(** * Perpetua: token store, cipher, proxy forwarder and refresh scheduler

    A shallow embedding of the TypeScript sources of Perpetua
    (crypto.ts, store/SQLiteStore.ts, proxy.ts, auth.ts, refresh.ts,
    middleware.ts, providers.ts), the properties the specification states
    about them, and further properties read off the code.

    Conventions.
    - A [string] is a JavaScript string whose code units are all below
      256, one character per code unit: provider slugs, account names,
      header names and values, envelopes, access tokens.
    - The plaintext handed to the cipher goes through Node's UTF-8 codec,
      so it is modelled in full: a list of UTF-16 code units ([jsstring]).
    - A [Buffer] is a [list byte].
    - [unixepoch()] and [Date.now()] are explicit time arguments, and what
      [randomBytes] and [fetch] come back with are arguments too.
    - Exceptions are the [Err] branch of [result]. *)

From stdpp Require Import gmap strings list fin_maps sorting.
From Stdlib Require Import ZArith Lia Ascii.
From Stdlib.Strings Require Import Byte.

Open Scope Z_scope.

(** ** Exceptions and results *)

Inductive exn : Type :=
  | ConfigError        (* 'ENCRYPTION_KEY must be a 64-char hex string (32 bytes)' *)
  | FormatError        (* 'Invalid encrypted value format' *)
  | CipherError        (* anything node:crypto throws *)
  | SqliteConstraint   (* a uniqueness violation no ON CONFLICT clause handles *)
  | BindError          (* better-sqlite3 refuses the bound parameters *)
  | NetworkError       (* fetch rejects *)
  | HttpError (status : Z)  (* 'Token refresh failed (status): ...' *)
  | JsonError.         (* res.json() rejects *)

Inductive result (A : Type) : Type :=
  | Ok (a : A)
  | Err (e : exn).
Arguments Ok {A} a.
Arguments Err {A} e.

Definition rbind {A B} (r : result A) (k : A → result B) : result B :=
  match r with
  | Ok a => k a
  | Err e => Err e
  end.

Notation "'let!' x ':=' r 'in' k" := (rbind r (λ x, k))
  (at level 10, x pattern, r at level 100, k at level 200).

(** ** Buffers, hex and UTF-8 (the parts of Node the cipher relies on) *)

Module Buffer.

Definition byteOf (z : Z) : byte :=
  match Byte.of_N (Z.to_N z) with
  | Some b => b
  | None => x00
  end.

Definition toZ (b : byte) : Z := Z.of_N (Byte.to_N b).

#[global] Instance byte_eq_decision : EqDecision byte := Byte.byte_eq_dec.

(** [buf.toString('hex')]. *)
Definition hexDigit (z : Z) : ascii :=
  nth (Z.to_nat z) (String.list_ascii_of_string "0123456789abcdef") "0"%char.

Fixpoint toHex (buf : list byte) : string :=
  match buf with
  | [] => EmptyString
  | b :: rest =>
      String (hexDigit (toZ b / 16)) (String (hexDigit (toZ b mod 16)) (toHex rest))
  end.

(** [Buffer.from(s, 'hex')]: pairs of hex digits, either case; decoding
    stops at the first pair that is not two hex digits, and a trailing
    single character is dropped. *)
Definition unhex (c : ascii) : option Z :=
  let n := Z.of_N (N_of_ascii c) in
  if (48 <=? n) && (n <=? 57) then Some (n - 48)
  else if (97 <=? n) && (n <=? 102) then Some (n - 87)
  else if (65 <=? n) && (n <=? 70) then Some (n - 55)
  else None.

Fixpoint fromHex (s : string) : list byte :=
  match s with
  | String a (String b rest) =>
      match unhex a, unhex b with
      | Some h, Some l => byteOf (16 * h + l) :: fromHex rest
      | _, _ => []
      end
  | _ => []
  end.

(** [buf.subarray(start, end)], with negative indices counted from the
    end and both indices clamped to the buffer. *)
Definition clampIndex (len i : Z) : Z :=
  if i <? 0 then Z.max (len + i) 0 else Z.min i len.

Definition subarray (buf : list byte) (start stop : Z) : list byte :=
  let len := Z.of_nat (length buf) in
  let s := clampIndex len start in
  let e := clampIndex len stop in
  take (Z.to_nat (e - s)) (drop (Z.to_nat s) buf).

End Buffer.

(** A JavaScript string: its UTF-16 code units. *)
Definition jsstring : Type := list Z.

Definition js (s : string) : jsstring :=
  (λ c, Z.of_N (N_of_ascii c)) <$> String.list_ascii_of_string s.

Module Utf8.
Import Buffer.

Definition isHigh (c : Z) : bool := (0xD800 <=? c) && (c <=? 0xDBFF).
Definition isLow (c : Z) : bool := (0xDC00 <=? c) && (c <=? 0xDFFF).
Definition isCont (x : Z) : bool := (0x80 <=? x) && (x <=? 0xBF).

(** U+FFFD, which replaces every unpaired surrogate. *)
Definition replacement : list byte := [byteOf 0xEF; byteOf 0xBF; byteOf 0xBD].

Definition encode1 (c : Z) : list byte := [byteOf c].
Definition encode2 (c : Z) : list byte :=
  [byteOf (0xC0 + c / 64); byteOf (0x80 + c mod 64)].
Definition encode3 (c : Z) : list byte :=
  [byteOf (0xE0 + c / 4096); byteOf (0x80 + (c / 64) mod 64); byteOf (0x80 + c mod 64)].
Definition encode4 (c : Z) : list byte :=
  [byteOf (0xF0 + c / 262144); byteOf (0x80 + (c / 4096) mod 64);
   byteOf (0x80 + (c / 64) mod 64); byteOf (0x80 + c mod 64)].

(** [Buffer.from(s, 'utf8')], also what [cipher.update(s, 'utf8')] feeds
    to the cipher. *)
Fixpoint encode (s : jsstring) : list byte :=
  match s with
  | [] => []
  | c :: rest =>
      if c <? 0x80 then encode1 c ++ encode rest
      else if c <? 0x800 then encode2 c ++ encode rest
      else if isHigh c then
        match rest with
        | d :: rest' =>
            if isLow d
            then encode4 (0x10000 + (c - 0xD800) * 1024 + (d - 0xDC00)) ++ encode rest'
            else replacement ++ encode rest
        | [] => replacement
        end
      else if isLow c then replacement ++ encode rest
      else encode3 c ++ encode rest
  end.

(** Range of the second byte after lead byte [x0] of a 3- or 4-byte
    sequence (excludes overlong forms, surrogates and > U+10FFFF). *)
Definition second3 (x0 x1 : Z) : bool :=
  if x0 =? 0xE0 then (0xA0 <=? x1) && (x1 <=? 0xBF)
  else if x0 =? 0xED then (0x80 <=? x1) && (x1 <=? 0x9F)
  else isCont x1.
Definition second4 (x0 x1 : Z) : bool :=
  if x0 =? 0xF0 then (0x90 <=? x1) && (x1 <=? 0xBF)
  else if x0 =? 0xF4 then (0x80 <=? x1) && (x1 <=? 0x8F)
  else isCont x1.

Definition surrogates (cp : Z) : jsstring :=
  [0xD800 + (cp - 0x10000) / 1024; 0xDC00 + (cp - 0x10000) mod 1024].

(** [buf.toString('utf8')]: the WHATWG decoder; a malformed sequence
    yields one U+FFFD for its longest valid prefix and decoding resumes
    at the offending byte. *)
Fixpoint decode (buf : list byte) : jsstring :=
  match buf with
  | [] => []
  | b0 :: r0 =>
      let x0 := toZ b0 in
      if x0 <? 0x80 then x0 :: decode r0
      else if (0xC2 <=? x0) && (x0 <=? 0xDF) then
        match r0 with
        | b1 :: r1 =>
            if isCont (toZ b1)
            then ((x0 - 0xC0) * 64 + (toZ b1 - 0x80)) :: decode r1
            else 0xFFFD :: decode r0
        | [] => [0xFFFD]
        end
      else if (0xE0 <=? x0) && (x0 <=? 0xEF) then
        match r0 with
        | b1 :: r1 =>
            if second3 x0 (toZ b1) then
              match r1 with
              | b2 :: r2 =>
                  if isCont (toZ b2)
                  then ((x0 - 0xE0) * 4096 + (toZ b1 - 0x80) * 64 + (toZ b2 - 0x80))
                         :: decode r2
                  else 0xFFFD :: decode r1
              | [] => [0xFFFD]
              end
            else 0xFFFD :: decode r0
        | [] => [0xFFFD]
        end
      else if (0xF0 <=? x0) && (x0 <=? 0xF4) then
        match r0 with
        | b1 :: r1 =>
            if second4 x0 (toZ b1) then
              match r1 with
              | b2 :: r2 =>
                  if isCont (toZ b2) then
                    match r2 with
                    | b3 :: r3 =>
                        if isCont (toZ b3)
                        then surrogates ((x0 - 0xF0) * 262144 + (toZ b1 - 0x80) * 4096
                                         + (toZ b2 - 0x80) * 64 + (toZ b3 - 0x80))
                               ++ decode r3
                        else 0xFFFD :: decode r2
                    | [] => [0xFFFD]
                    end
                  else 0xFFFD :: decode r1
              | [] => [0xFFFD]
              end
            else 0xFFFD :: decode r0
        | [] => [0xFFFD]
        end
      else 0xFFFD :: decode r0
  end.

(** A string is well formed when every code unit is in range and every
    surrogate is half of a high-low pair. *)
Fixpoint wellFormed (s : jsstring) : bool :=
  match s with
  | [] => true
  | c :: rest =>
      if isHigh c then
        match rest with
        | d :: rest' => isLow d && wellFormed rest'
        | [] => false
        end
      else (0 <=? c) && (c <=? 0xFFFF) && negb (isLow c) && wellFormed rest
  end.

End Utf8.

(** ** crypto.ts *)

(** What the code uses of [node:crypto]'s aes-256-gcm: sealing with a key
    and an IV gives a ciphertext and a tag; opening gives the plaintext
    back or throws. *)
Class AesGcm : Type := {
  (** [cipher.update(p) ++ cipher.final()] and [cipher.getAuthTag()] *)
  seal : list byte → list byte → list byte → list byte * list byte;
  (** [decipher.update(c) ++ decipher.final()] after [setAuthTag(t)];
      [None] when any of these calls throws *)
  open : list byte → list byte → list byte → list byte → option (list byte)
}.

(** The contract of the library: tags are 16 bytes, and opening what was
    sealed under the same 32-byte key and 12-byte IV gives the plaintext. *)
Record AesGcmLaws (G : AesGcm) : Prop := {
  seal_tag_length : ∀ k iv p, length (seal k iv p).2 = 16%nat;
  open_seal : ∀ k iv p,
    length k = 32%nat → length iv = 12%nat →
    open k iv (seal k iv p).1 (seal k iv p).2 = Some p
}.
Arguments seal_tag_length {G} _ k iv p.
Arguments open_seal {G} _ k iv p _ _.

Module Crypto.
Import Buffer.

Definition IV_BYTES : Z := 12.
Definition TAG_BYTES : Z := 16.

(** JavaScript truthiness of a [string | undefined]. *)
Definition truthy (o : option string) : bool :=
  match o with
  | Some s => negb (String.eqb s EmptyString)
  | None => false
  end.

(** [s.split(sep)] for a one-character separator. *)
Fixpoint split (sep : ascii) (s : string) : list string :=
  match s with
  | EmptyString => [EmptyString]
  | String c rest =>
      if Ascii.eqb c sep then EmptyString :: split sep rest
      else match split sep rest with
           | seg :: segs => String c seg :: segs
           | [] => [String c EmptyString]
           end
  end.

(** [getKey()], with [process.env.ENCRYPTION_KEY] as argument. *)
Definition getKey (env : option string) : result (list byte) :=
  match env with
  | Some hex =>
      if truthy (Some hex) && (Z.of_nat (String.length hex) =? 64)
      then Ok (fromHex hex)
      else Err ConfigError
  | None => Err ConfigError
  end.

(** [createCipheriv] and [createDecipheriv] reject a key that is not 32
    bytes long. *)
Definition createCipher (key : list byte) : result (list byte) :=
  if decide (length key = 32%nat) then Ok key else Err CipherError.

(** [encrypt(plaintext)]; [iv] is the outcome of [randomBytes(IV_BYTES)]. *)
Definition encrypt `{AesGcm} (env : option string) (iv : list byte)
    (plaintext : jsstring) : result string :=
  let! key := getKey env in
  let! key := createCipher key in
  let sealed := seal key iv (Utf8.encode plaintext) in
  let encrypted := sealed.1 ++ sealed.2 in
  Ok (toHex iv +:+ ":" +:+ toHex encrypted).

(** [decrypt(stored)]. *)
Definition decrypt `{AesGcm} (env : option string) (stored : string) : result jsstring :=
  let! key := getKey env in
  let parts := split ":" stored in
  let ivHex := parts !! 0%nat in
  let dataHex := parts !! 1%nat in
  if negb (truthy ivHex) || negb (truthy dataHex) then Err FormatError
  else
    let iv := fromHex (default EmptyString ivHex) in
    let data := fromHex (default EmptyString dataHex) in
    let len := Z.of_nat (length data) in
    let tag := subarray data (len - TAG_BYTES) len in
    let ciphertext := subarray data 0 (len - TAG_BYTES) in
    let! key := createCipher key in
    match open key iv ciphertext tag with
    | Some plain => Ok (Utf8.decode plain)
    | None => Err CipherError
    end.

End Crypto.

(** ** store/SQLiteStore.ts *)

(** A row of the [connections] table. *)
Module Row.
Record t : Type := mk {
  id : string;
  provider : string;
  account : string;
  refresh_token_encrypted : string;
  access_token : option string;
  expires_at : option Z;
  scopes : option string;
  created_at : Z;
  updated_at : Z
}.
End Row.

(** A row of the [oauth_states] table, without its key [state]. *)
Module StateRow.
Record t : Type := mk {
  provider : string;
  account : string;
  created_at : Z
}.
End StateRow.

(** [TokenRecord]: a row with its refresh token decrypted. *)
Module TokenRecord.
Record t : Type := mk {
  id : string;
  provider : string;
  account : string;
  refreshToken : jsstring;
  accessToken : option string;
  expiresAt : option Z;
  scopes : option string;
  createdAt : Z;
  updatedAt : Z
}.
End TokenRecord.

(** [StoredToken], what the store hands out. *)
Module StoredToken.
Record t : Type := mk {
  provider : string;
  account : string;
  refreshToken : jsstring;
  accessToken : option string;
  expiresAt : option Z;
  scopes : option string;
  createdAt : Z;
  updatedAt : Z
}.
End StoredToken.

(** The argument object of [storeToken]. *)
Module StoreParams.
Record t : Type := mk {
  provider : string;
  account : string;
  refreshToken : jsstring;
  accessToken : option string;
  expiresAt : option Z;
  scopes : option string
}.
End StoreParams.

Module Store.

(** The database: the two tables. [connections] keeps its rows in
    insertion order; [oauth_states] is keyed by its primary key. *)
Record db : Type := mkDb {
  connections : list Row.t;
  oauth_states : gmap string StateRow.t
}.

Definition empty : db := mkDb [] ∅.

Definition rowToRecord `{AesGcm} (env : option string) (row : Row.t) : result TokenRecord.t :=
  let! refreshToken := Crypto.decrypt env (Row.refresh_token_encrypted row) in
  Ok (TokenRecord.mk (Row.id row) (Row.provider row) (Row.account row) refreshToken
        (Row.access_token row) (Row.expires_at row) (Row.scopes row)
        (Row.created_at row) (Row.updated_at row)).

(** The object literal that [getToken], [getDefaultToken] and
    [getTokensNeedingRefresh] build from a record. *)
Definition toStored (record : TokenRecord.t) : StoredToken.t :=
  StoredToken.mk (TokenRecord.provider record) (TokenRecord.account record)
    (TokenRecord.refreshToken record) (TokenRecord.accessToken record)
    (TokenRecord.expiresAt record) (TokenRecord.scopes record)
    (TokenRecord.createdAt record) (TokenRecord.updatedAt record).

(** [WHERE provider = ? AND account = ?] *)
Definition sameKey (provider account : string) (row : Row.t) : bool :=
  String.eqb (Row.provider row) provider && String.eqb (Row.account row) account.

(** [WHERE provider = ?] *)
Definition ofProvider (provider : string) (row : Row.t) : bool :=
  String.eqb (Row.provider row) provider.

(** [ORDER BY account] *)
Definition accountLe (r1 r2 : Row.t) : Prop :=
  String.leb (Row.account r1) (Row.account r2) = true.

#[global] Instance accountLe_dec : RelDecision accountLe.
Proof. intros r1 r2. unfold accountLe. apply _. Defined.

(** [INSERT ... ON CONFLICT(provider, account) DO UPDATE SET ...]: the row
    with the same pair is updated in place; without one, the insert fails
    if the primary key [id] is taken and appends a row otherwise. *)
Definition upsert (now : Z) (id provider account encryptedRefresh : string)
    (accessToken : option string) (expiresAt : option Z) (scopes : option string)
    (rows : list Row.t) : result (list Row.t) :=
  if existsb (sameKey provider account) rows then
    Ok ((λ row,
           if sameKey provider account row
           then Row.mk (Row.id row) (Row.provider row) (Row.account row)
                  encryptedRefresh accessToken expiresAt scopes
                  (Row.created_at row) now
           else row) <$> rows)
  else if existsb (λ row, String.eqb (Row.id row) id) rows then Err SqliteConstraint
  else
    Ok (rows ++ [Row.mk id provider account encryptedRefresh accessToken expiresAt
                   scopes now now]).

(** [storeToken(params)]; [iv] is the nonce [encrypt] draws and [now] is
    [unixepoch()]. *)
Definition storeToken `{AesGcm} (env : option string) (iv : list byte) (now : Z)
    (params : StoreParams.t) (d : db) : result db :=
  let id := StoreParams.provider params +:+ ":" +:+ StoreParams.account params in
  let! encryptedRefresh := Crypto.encrypt env iv (StoreParams.refreshToken params) in
  let! rows :=
    upsert now id (StoreParams.provider params) (StoreParams.account params)
      encryptedRefresh (StoreParams.accessToken params) (StoreParams.expiresAt params)
      (StoreParams.scopes params) (connections d) in
  Ok (mkDb rows (oauth_states d)).

Definition getToken `{AesGcm} (env : option string) (provider account : string)
    (d : db) : result (option StoredToken.t) :=
  match find (sameKey provider account) (connections d) with
  | None => Ok None
  | Some row =>
      let! record := rowToRecord env row in
      Ok (Some (toStored record))
  end.

Definition getDefaultToken `{AesGcm} (env : option string) (provider : string)
    (d : db) : result (option StoredToken.t) :=
  let rows := merge_sort accountLe (List.filter (ofProvider provider) (connections d)) in
  match rows with
  | [] => Ok None
  | [row] =>
      let! record := rowToRecord env row in
      Ok (Some (toStored record))
  | _ =>
      (* Multiple connections: look for one explicitly named "default" *)
      match find (λ r, String.eqb (Row.account r) "default") rows with
      | None => Ok None
      | Some defaultRow =>
          let! record := rowToRecord env defaultRow in
          Ok (Some (toStored record))
      end
  end.

(** [UPDATE connections SET access_token = ?, expires_at = ?,
    updated_at = unixepoch() WHERE provider = ? AND account = ?] *)
Definition updateAccessToken (now : Z) (provider account accessToken : string)
    (expiresAt : Z) (d : db) : db :=
  mkDb ((λ row,
           if sameKey provider account row
           then Row.mk (Row.id row) (Row.provider row) (Row.account row)
                  (Row.refresh_token_encrypted row) (Some accessToken) (Some expiresAt)
                  (Row.scopes row) (Row.created_at row) now
           else row) <$> connections d)
       (oauth_states d).

Definition deleteToken (provider account : string) (d : db) : db :=
  mkDb (List.filter (λ row, negb (sameKey provider account row)) (connections d))
       (oauth_states d).

(** [WHERE expires_at IS NULL OR expires_at < ?] *)
Definition needsRefresh (threshold : Z) (row : Row.t) : bool :=
  match Row.expires_at row with
  | None => true
  | Some e => e <? threshold
  end.

Fixpoint mapM {A B} (f : A → result B) (l : list A) : result (list B) :=
  match l with
  | [] => Ok []
  | x :: rest =>
      let! y := f x in
      let! ys := mapM f rest in
      Ok (y :: ys)
  end.

Definition getTokensNeedingRefresh `{AesGcm} (env : option string) (nowSec thresholdSec : Z)
    (d : db) : result (list StoredToken.t) :=
  let threshold := nowSec + thresholdSec in
  let rows := List.filter (needsRefresh threshold) (connections d) in
  let! records := mapM (rowToRecord env) rows in
  Ok (toStored <$> records).

(** [INSERT OR REPLACE INTO oauth_states (state, provider, account)];
    [created_at] takes its default, [unixepoch()]. *)
Definition saveOAuthState (now : Z) (state provider account : string) (d : db) : db :=
  mkDb (connections d) (<[state := StateRow.mk provider account now]> (oauth_states d)).

Definition consumeOAuthState (state : string) (d : db) : option (string * string) * db :=
  match oauth_states d !! state with
  | None => (None, d)
  | Some row =>
      (Some (StateRow.provider row, StateRow.account row),
       mkDb (connections d) (delete state (oauth_states d)))
  end.

(** [DELETE FROM oauth_states WHERE created_at < unixepoch() - 600] *)
Definition cleanOAuthStates (now : Z) (d : db) : db :=
  mkDb (connections d)
       (filter (λ kv, ¬ (StateRow.created_at kv.2 < now - 600)) (oauth_states d)).

(** The states the store can be in: what its operations make of the empty
    database under one key. *)
Inductive reachable `{AesGcm} (env : option string) : db → Prop :=
  | reach_empty : reachable env empty
  | reach_storeToken d d' iv now params :
      reachable env d → length iv = 12%nat →
      storeToken env iv now params d = Ok d' → reachable env d'
  | reach_updateAccessToken d now provider account accessToken expiresAt :
      reachable env d →
      reachable env (updateAccessToken now provider account accessToken expiresAt d)
  | reach_deleteToken d provider account :
      reachable env d → reachable env (deleteToken provider account d)
  | reach_saveOAuthState d now state provider account :
      reachable env d → reachable env (saveOAuthState now state provider account d)
  | reach_consumeOAuthState d state :
      reachable env d → reachable env (consumeOAuthState state d).2
  | reach_cleanOAuthStates d now :
      reachable env d → reachable env (cleanOAuthStates now d).

Definition key (row : Row.t) : string * string := (Row.provider row, Row.account row).

(** The invariant of the [connections] table: UNIQUE(provider, account),
    and every stored envelope decrypts. *)
Definition wf `{AesGcm} (env : option string) (d : db) : Prop :=
  NoDup (key <$> connections d) ∧
  Forall (λ row, ∃ refreshToken,
            Crypto.decrypt env (Row.refresh_token_encrypted row) = Ok refreshToken)
         (connections d).

End Store.

(** ** providers.ts, as a lookup *)

Module ProviderConfig.
Record t : Type := mk {
  display_name : string;
  base_url : string;
  auth_url : string;
  token_url : string;
  client_id : string;
  client_secret : string;
  scopes : list string;
  extra_params : option (list (string * string))
}.
End ProviderConfig.

(** ** Text helpers shared by the HTTP handlers *)

Module Text.

(** The double quote, for messages that contain one. *)
Definition dq : string := String (ascii_of_nat 34) EmptyString.

(** [s.toLowerCase()] on the Latin-1 range, which is where the names of
    HTTP header fields live: A-Z and the accented capitals move by 32. *)
Definition lowerChar (c : ascii) : ascii :=
  let n := nat_of_ascii c in
  if ((65 <=? n) && (n <=? 90) || (192 <=? n) && (n <=? 222) && negb (n =? 215))%nat
  then ascii_of_nat (n + 32)
  else c.

Fixpoint toLowerCase (s : string) : string :=
  match s with
  | EmptyString => EmptyString
  | String c rest => String (lowerChar c) (toLowerCase rest)
  end.

(** [s.toUpperCase()] on ASCII, which is where HTTP methods live. *)
Definition upperChar (c : ascii) : ascii :=
  let n := nat_of_ascii c in
  if ((97 <=? n) && (n <=? 122))%nat then ascii_of_nat (n - 32) else c.

Fixpoint toUpperCase (s : string) : string :=
  match s with
  | EmptyString => EmptyString
  | String c rest => String (upperChar c) (toUpperCase rest)
  end.

(** [parts.join(sep)] *)
Fixpoint join (sep : string) (parts : list string) : string :=
  match parts with
  | [] => EmptyString
  | [x] => x
  | x :: rest => x +:+ sep +:+ join sep rest
  end.

(** A template literal's rendering of a [string | null]. *)
Definition template (o : option string) : string :=
  match o with
  | Some s => s
  | None => "null"
  end.

(** The application/x-www-form-urlencoded serializer behind
    [URLSearchParams.toString()]: letters, digits and [*-._] stay, a space
    becomes [+], and every other character is percent-encoded, byte by
    byte of its UTF-8 form. *)
Definition upperHexDigit (n : nat) : ascii :=
  nth n (String.list_ascii_of_string "0123456789ABCDEF") "0"%char.

Definition percent (n : nat) : string :=
  String "%" (String (upperHexDigit (n / 16)) (String (upperHexDigit (n mod 16)) EmptyString)).

Definition formEncodeChar (c : ascii) : string :=
  let n := nat_of_ascii c in
  if ((48 <=? n) && (n <=? 57) || (65 <=? n) && (n <=? 90) || (97 <=? n) && (n <=? 122)
      || (n =? 42) || (n =? 45) || (n =? 46) || (n =? 95))%nat
  then String c EmptyString
  else if (n =? 32)%nat then "+"
  else if (n <? 128)%nat then percent n
  else percent (192 + n / 64) +:+ percent (128 + n mod 64).

Fixpoint formEncode (s : string) : string :=
  match s with
  | EmptyString => EmptyString
  | String c rest => formEncodeChar c +:+ formEncode rest
  end.

Definition searchParamsToString (params : list (string * string)) : string :=
  join "&" ((λ kv, formEncode kv.1 +:+ "=" +:+ formEncode kv.2) <$> params).

End Text.

(** ** proxy.ts *)

Module Proxy.
Import Text.

(** A value of the query object or of the header object. *)
Inductive Value : Type :=
  | VString (s : string)
  | VArray (l : list string)
  | VUndefined.

Inductive Body : Type :=
  | BodyUndefined
  | BodyString (s : string)
  | BodyObject (json : string).   (* an object, with its [JSON.stringify] *)

Record Request : Type := mkRequest {
  provider : string;                 (* request.params.provider *)
  wildcardPath : string;             (* request.params['*'] *)
  query : list (string * Value);     (* Object.entries(request.query) *)
  method : string;
  headers : gmap string Value;
  body : Body
}.

(** The body of a token endpoint's 2xx answer. *)
Record TokenJson : Type := mkTokenJson {
  access_token : string;
  expires_in : option Z;
  refresh_token : option jsstring;
  scope : option string
}.

(** What [fetch(tokenUrl, ...)] comes back with. *)
Inductive TokenResponse : Type :=
  | TokenFetchRejected
  | TokenHttp (status : Z) (json : option TokenJson).   (* [None]: the body is no JSON *)

(** What [fetch(upstreamUrl, ...)] comes back with. *)
Inductive UpstreamResponse : Type :=
  | UpstreamFetchRejected
  | UpstreamHttp (status : Z) (headers : list (string * string)) (text : string).

(** Everything outside the process that one request touches. *)
Record World : Type := mkWorld {
  registry : gmap string ProviderConfig.t;
  nowSec : Z;           (* Date.now() / 1000 in the handler *)
  tokenEndpoint : TokenResponse;
  nowRefreshed : Z;     (* Date.now() / 1000 in refreshAccessToken *)
  nowWritten : Z;       (* unixepoch() in updateAccessToken *)
  upstream : UpstreamResponse
}.

Inductive Payload : Type :=
  | ErrorJson (error message : string)
  | Text (text : string).

Record Reply : Type := mkReply {
  code : Z;
  replyHeaders : list (string * string);
  payload : Payload
}.

Inductive Outcome : Type :=
  | Replied (r : Reply)
  | Threw (e : exn).

(** What the handler does to the outside, in order. *)
Inductive Effect : Type :=
  | TokenFetch (tokenUrl clientId clientSecret : string) (refreshToken : jsstring)
  | UpstreamFetch (url method : string) (headers : gmap string string) (body : option string)
  | LogError (message : string).

Definition getProvider (w : World) (slug : string) : option ProviderConfig.t :=
  registry w !! slug.

Definition ok (status : Z) : bool := (200 <=? status) && (status <=? 299).

(** [refreshAccessToken], run against the token endpoint's answer. *)
Definition refreshAccessToken (w : World) : result (string * Z) :=
  match tokenEndpoint w with
  | TokenFetchRejected => Err NetworkError
  | TokenHttp status json =>
      if negb (ok status) then Err (HttpError status)
      else match json with
           | None => Err JsonError
           | Some data =>
               let expiresAt := nowRefreshed w + default 3600 (expires_in data) in
               Ok (access_token data, expiresAt)
           end
  end.

(** [stripQueryParams(query, ...keys)] *)
Definition stripQueryParams (query : list (string * Value)) (keys : list string) : string :=
  let params :=
    flat_map (λ kv,
      if bool_decide (kv.1 ∈ keys) then []
      else match kv.2 with
           | VArray l => (λ val, (kv.1, val)) <$> l
           | VString v => [(kv.1, v)]
           | VUndefined => []
           end) query in
  let str := searchParamsToString params in
  if String.eqb str EmptyString then EmptyString else "?" +:+ str.

Definition HOP_BY_HOP_HEADERS : list string :=
  ["connection"; "keep-alive"; "proxy-authenticate"; "proxy-authorization"; "te";
   "trailers"; "transfer-encoding"; "upgrade"; "host"; "authorization"].

Definition SKIP_RESPONSE_HEADERS : list string :=
  ["connection"; "keep-alive"; "transfer-encoding"; "content-encoding"].

(** What the loop copies of a header's value: a string as it is, an array
    joined with ', ', nothing of [undefined]. *)
Definition headerText (v : Value) : option string :=
  match v with
  | VString s => Some s
  | VArray l => Some (join ", " l)
  | VUndefined => None
  end.

(** The loop over [Object.entries(request.headers)], then the assignment
    of [authorization]. *)
Definition copyHeader (k : string) (v : Value) (forwardHeaders : gmap string string)
    : gmap string string :=
  if bool_decide (toLowerCase k ∈ HOP_BY_HOP_HEADERS) then forwardHeaders
  else match headerText v with
       | Some text => <[k := text]> forwardHeaders
       | None => forwardHeaders
       end.

Definition buildForwardHeaders (headers : gmap string Value) (accessToken : option string)
    : gmap string string :=
  <["authorization" := "Bearer " +:+ template accessToken]>
    (map_fold copyHeader ∅ headers).

(** JavaScript truthiness of [tokenRecord.accessToken]. *)
Definition truthy (o : option string) : bool :=
  match o with
  | Some s => negb (String.eqb s EmptyString)
  | None => false
  end.

Definition shouldRefresh (tokenRecord : StoredToken.t) (nowSec : Z) : bool :=
  negb (truthy (StoredToken.accessToken tokenRecord))
  || match StoredToken.expiresAt tokenRecord with
     | Some expiresAt => expiresAt - nowSec <? 300
     | None => false
     end.

(** [request.query.account] *)
Definition accountParam (req : Request) : option Value :=
  (list_to_map (query req) : gmap string Value) !! "account".

(** The branch of step 2 taken without [?account=]: the account named
    "default" first, then whatever [getDefaultToken] resolves. *)
Definition loadDefault `{AesGcm} (env : option string) (provider : string) (d : Store.db)
    : result (option StoredToken.t * string) :=
  let! defaultNamed := Store.getToken env provider "default" d in
  match defaultNamed with
  | Some t => Ok (Some t, "default")
  | None =>
      let! tokenRecord := Store.getDefaultToken env provider d in
      Ok (tokenRecord, from_option StoredToken.account EmptyString tokenRecord)
  end.

(** Step 2: which record the request resolves to, and under which account
    name. A repeated [?account=] parses to an array, which the store's
    driver refuses to bind. *)
Definition loadToken `{AesGcm} (env : option string) (req : Request) (d : Store.db)
    : result (option StoredToken.t * string) :=
  match accountParam req with
  | Some (VArray _) => Err BindError
  | Some (VString account) =>
      if negb (String.eqb account EmptyString) then
        let! tokenRecord := Store.getToken env (provider req) account d in
        Ok (tokenRecord, account)
      else loadDefault env (provider req) d
  | _ => loadDefault env (provider req) d
  end.

(** [accountParam], when it is a non-empty string. *)
Definition accountGiven (req : Request) : option string :=
  match accountParam req with
  | Some (VString account) =>
      if String.eqb account EmptyString then None else Some account
  | _ => None
  end.

Definition unknownProvider (provider : string) : Reply :=
  mkReply 404 []
    (ErrorJson "UnknownProvider"
       ("Provider " +:+ dq +:+ provider +:+ dq +:+ " is not registered. Check providers.yml.")).

Definition noConnection (req : Request) : Reply :=
  mkReply 404 []
    (ErrorJson "NoConnection"
       ("No connection found for provider " +:+ dq +:+ provider req +:+ dq
        +:+ match accountGiven req with
            | Some account => ", account " +:+ dq +:+ account +:+ dq
            | None => EmptyString
            end
        +:+ ". Connect via POST /auth/" +:+ provider req +:+ "/start"
        +:+ match accountGiven req with
            | Some _ => EmptyString
            | None => ", then use ?account=<name> if you have multiple connections"
            end
        +:+ ".")).

Definition tokenRefreshFailed (provider account : string) : Reply :=
  mkReply 401 []
    (ErrorJson "TokenRefreshFailed"
       ("Could not refresh access token for " +:+ dq +:+ provider +:+ "/" +:+ account
        +:+ dq +:+ ". Re-authenticate via POST /auth/" +:+ provider +:+ "/start.")).

Definition upstreamError (provider : string) : Reply :=
  mkReply 502 []
    (ErrorJson "UpstreamError"
       ("Failed to reach upstream for provider " +:+ dq +:+ provider +:+ dq +:+ ".")).

(** Steps 4 to 8, with the record step 3 left in [tokenRecord]. *)
Definition forward (w : World) (req : Request) (providerCfg : ProviderConfig.t)
    (tokenRecord : StoredToken.t) : list Effect * Outcome :=
  let upstreamPath := "/" +:+ wildcardPath req in
  let queryString := stripQueryParams (query req) ["account"] in
  let upstreamUrl := ProviderConfig.base_url providerCfg +:+ upstreamPath +:+ queryString in
  let forwardHeaders := buildForwardHeaders (headers req) (StoredToken.accessToken tokenRecord) in
  let hasBody := bool_decide (toUpperCase (method req) ∈ ["POST"; "PUT"; "PATCH"]) in
  let bodyContent := if hasBody then body req else BodyUndefined in
  let sent :=
    match bodyContent with
    | BodyString s => if String.eqb s EmptyString then None else Some s
    | BodyObject json => Some json
    | BodyUndefined => None
    end in
  let call := UpstreamFetch upstreamUrl (method req) forwardHeaders sent in
  match upstream w with
  | UpstreamFetchRejected =>
      ([call; LogError "Upstream request failed"], Replied (upstreamError (provider req)))
  | UpstreamHttp status hs text =>
      let kept :=
        List.filter (λ kv, negb (bool_decide (toLowerCase kv.1 ∈ SKIP_RESPONSE_HEADERS))) hs in
      ([call], Replied (mkReply status kept (Text text)))
  end.

(** A run performs a refresh exchange when it calls the token endpoint. *)
Definition performsRefresh (effects : list Effect) : Prop :=
  ∃ tokenUrl clientId clientSecret refreshToken,
    TokenFetch tokenUrl clientId clientSecret refreshToken ∈ effects.

(** The handler of [ALL /proxy/:provider/*], after [requireApiKey]. *)
Definition handle `{AesGcm} (env : option string) (w : World) (req : Request) (d : Store.db)
    : list Effect * Store.db * Outcome :=
  match getProvider w (provider req) with
  | None => ([], d, Replied (unknownProvider (provider req)))
  | Some providerCfg =>
      match loadToken env req d with
      | Err e => ([], d, Threw e)
      | Ok (None, _) => ([], d, Replied (noConnection req))
      | Ok (Some tokenRecord, account) =>
          if shouldRefresh tokenRecord (nowSec w) then
            let call :=
              TokenFetch (ProviderConfig.token_url providerCfg)
                (ProviderConfig.client_id providerCfg)
                (ProviderConfig.client_secret providerCfg)
                (StoredToken.refreshToken tokenRecord) in
            match refreshAccessToken w with
            | Ok (accessToken, expiresAt) =>
                let d' :=
                  Store.updateAccessToken (nowWritten w) (provider req) account
                    accessToken expiresAt d in
                let tokenRecord' :=
                  StoredToken.mk (StoredToken.provider tokenRecord)
                    (StoredToken.account tokenRecord) (StoredToken.refreshToken tokenRecord)
                    (Some accessToken) (Some expiresAt) (StoredToken.scopes tokenRecord)
                    (StoredToken.createdAt tokenRecord) (StoredToken.updatedAt tokenRecord) in
                let '(effects, outcome) := forward w req providerCfg tokenRecord' in
                (call :: effects, d', outcome)
            | Err _ =>
                ([call; LogError "Token refresh failed in proxy"], d,
                 Replied (tokenRefreshFailed (provider req) account))
            end
          else
            let '(effects, outcome) := forward w req providerCfg tokenRecord in
            (effects, d, outcome)
      end
  end.

End Proxy.

(** ** auth.ts: the callback route *)

Module Auth.
Import Text.

Record CallbackRequest : Type := mkCallback {
  provider : string;          (* request.params.provider *)
  code : option string;       (* request.query.code *)
  state : option string;      (* request.query.state *)
  error : option string       (* request.query.error *)
}.

Record World : Type := mkWorld {
  registry : gmap string ProviderConfig.t;
  tokenEndpoint : Proxy.TokenResponse;   (* the answer to the code exchange *)
  nowSec : Z;                            (* Date.now() / 1000 *)
  iv : list byte;                        (* the nonce storeToken's encrypt draws *)
  nowWritten : Z                         (* unixepoch() in storeToken *)
}.

(** The page sent back: [errorHtml(message)] or
    [successHtml(provider, account)]. *)
Inductive Page : Type :=
  | ErrorHtml (message : string)
  | SuccessHtml (provider account : string).

Record Reply : Type := mkReply {
  code_ : Z;
  page : Page
}.

Inductive Outcome : Type :=
  | Replied (r : Reply)
  | Threw (e : exn).

Definition truthy (o : option string) : bool :=
  match o with
  | Some s => negb (String.eqb s EmptyString)
  | None => false
  end.

Definition invalidState : Reply :=
  mkReply 400 (ErrorHtml "Invalid or expired state. Please try again.").

(** The code exchange: [fetch], the [res.ok] check and [res.json()]. *)
Definition exchange (w : World) : result Proxy.TokenJson :=
  match tokenEndpoint w with
  | Proxy.TokenFetchRejected => Err NetworkError
  | Proxy.TokenHttp status json =>
      if negb (Proxy.ok status) then Err (HttpError status)
      else match json with
           | None => Err JsonError
           | Some data => Ok data
           end
  end.

(** The handler of [GET /auth/:provider/callback]. *)
Definition callback `{AesGcm} (env : option string) (w : World) (req : CallbackRequest)
    (d : Store.db) : Store.db * Outcome :=
  if truthy (error req) then
    (d, Replied (mkReply 400 (ErrorHtml ("OAuth error: " +:+ default EmptyString (error req)))))
  else if negb (truthy (code req)) || negb (truthy (state req)) then
    (d, Replied (mkReply 400 (ErrorHtml "Missing code or state parameter.")))
  else
    (* Verify state *)
    let '(stateData, d) := Store.consumeOAuthState (default EmptyString (state req)) d in
    match stateData with
    | None => (d, Replied invalidState)
    | Some (stateProvider, account) =>
        if negb (String.eqb stateProvider (provider req)) then (d, Replied invalidState)
        else
          match registry w !! provider req with
          | None =>
              (d, Replied (mkReply 404 (ErrorHtml ("Unknown provider: " +:+ provider req))))
          | Some providerCfg =>
              match exchange w with
              | Err _ =>
                  (d, Replied (mkReply 500 (ErrorHtml "Token exchange failed. Check server logs.")))
              | Ok tokenData =>
                  match Proxy.refresh_token tokenData with
                  | None | Some [] =>
                      (d, Replied (mkReply 500
                         (ErrorHtml "No refresh token returned. Ensure you requested offline access.")))
                  | Some refreshToken =>
                      let expiresAt :=
                        match Proxy.expires_in tokenData with
                        | Some expires_in =>
                            if expires_in =? 0 then None else Some (nowSec w + expires_in)
                        | None => None
                        end in
                      let params :=
                        StoreParams.mk (provider req) account refreshToken
                          (Some (Proxy.access_token tokenData)) expiresAt
                          (Some (default (join " " (ProviderConfig.scopes providerCfg))
                                         (Proxy.scope tokenData))) in
                      match Store.storeToken env (iv w) (nowWritten w) params d with
                      | Err e => (d, Threw e)
                      | Ok d' => (d', Replied (mkReply 200 (SuccessHtml (provider req) account)))
                      end
                  end
              end
          end
    end.

End Auth.

(** ** refresh.ts: the background loop, as the event loop runs it *)

Module Refresh.

Definition REFRESH_THRESHOLD_SEC : Z := 10 * 60.

(** A cycle suspended at [await refreshToken(...)] for [current]; the
    tokens after it in the loop are [remaining]. *)
Record Cycle : Type := mkCycle {
  current : StoredToken.t;
  currentCfg : ProviderConfig.t;
  remaining : list StoredToken.t
}.

Record State : Type := mkState {
  db : Store.db;
  timer : bool;               (* _timer is set *)
  cycles : list Cycle;        (* runRefreshCycle calls that have not returned *)
  unhandled : list exn        (* rejections of [void runRefreshCycle(store)] *)
}.

(** What the event loop delivers. *)
Inductive Event : Type :=
  | StartRefreshLoop (now : Z)
  | Tick (now : Z)                       (* the interval fires *)
  | Settled (i : nat) (resp : Proxy.TokenResponse) (nowRefreshed nowWritten : Z)
                                         (* the fetch of the i-th open cycle settles *)
  | StopRefreshLoop.

(** [refreshToken], run against the token endpoint's answer. *)
Definition refreshToken (resp : Proxy.TokenResponse) (nowRefreshed : Z) : result (string * Z) :=
  match resp with
  | Proxy.TokenFetchRejected => Err NetworkError
  | Proxy.TokenHttp status json =>
      if negb (Proxy.ok status) then Err (HttpError status)
      else match json with
           | None => Err JsonError
           | Some data =>
               Ok (Proxy.access_token data,
                   nowRefreshed + default 3600 (Proxy.expires_in data))
           end
  end.

(** The [for] loop from [tokens] on, up to its next [await]: tokens of
    unknown providers are skipped. *)
Fixpoint advance (registry : gmap string ProviderConfig.t) (tokens : list StoredToken.t)
    : option Cycle :=
  match tokens with
  | [] => None
  | token :: rest =>
      match registry !! StoredToken.provider token with
      | None => advance registry rest
      | Some providerCfg => Some (mkCycle token providerCfg rest)
      end
  end.

(** A call of [runRefreshCycle(store)], up to its first pending fetch. *)
Definition runRefreshCycle `{AesGcm} (env : option string)
    (registry : gmap string ProviderConfig.t) (now : Z) (s : State) : State :=
  match Store.getTokensNeedingRefresh env now REFRESH_THRESHOLD_SEC (db s) with
  | Err e => mkState (db s) (timer s) (cycles s) (unhandled s ++ [e])
  | Ok tokens =>
      match advance registry tokens with
      | None => s
      | Some c => mkState (db s) (timer s) (cycles s ++ [c]) (unhandled s)
      end
  end.

Definition step `{AesGcm} (env : option string) (registry : gmap string ProviderConfig.t)
    (s : State) (ev : Event) : State :=
  match ev with
  | StartRefreshLoop now =>
      if timer s then s
      else
        let s' := runRefreshCycle env registry now s in
        mkState (db s') true (cycles s') (unhandled s')
  | Tick now =>
      if timer s then runRefreshCycle env registry now s else s
  | Settled i resp nowRefreshed nowWritten =>
      match cycles s !! i with
      | None => s
      | Some c =>
          let db' :=
            match refreshToken resp nowRefreshed with
            | Ok (accessToken, expiresAt) =>
                Store.updateAccessToken nowWritten (StoredToken.provider (current c))
                  (StoredToken.account (current c)) accessToken expiresAt (db s)
            | Err _ => db s
            end in
          let cycles' :=
            match advance registry (remaining c) with
            | None => delete i (cycles s)
            | Some c' => <[i := c']> (cycles s)
            end in
          mkState db' (timer s) cycles' (unhandled s)
      end
  | StopRefreshLoop => mkState (db s) false (cycles s) (unhandled s)
  end.

Definition run `{AesGcm} (env : option string) (registry : gmap string ProviderConfig.t)
    (s : State) (evs : list Event) : State :=
  fold_left (step env registry) evs s.

Definition initial (d : Store.db) : State := mkState d false [] [].

(** Two open cycles race on a record when both still hold a token for the
    same (provider, account). *)
Definition holds (provider account : string) (c : Cycle) : bool :=
  existsb (λ t, String.eqb (StoredToken.provider t) provider
                && String.eqb (StoredToken.account t) account)
          (current c :: remaining c).

(** Every cycle in the trace starts with no other cycle open. *)
Fixpoint serialized `{AesGcm} (env : option string) (registry : gmap string ProviderConfig.t)
    (s : State) (evs : list Event) : Prop :=
  match evs with
  | [] => True
  | ev :: rest =>
      match ev with
      | Tick _ | StartRefreshLoop _ => cycles s = []
      | _ => True
      end ∧ serialized env registry (step env registry s ev) rest
  end.

End Refresh.

(** A stand-in cipher with the interface of [AesGcm], used to run the model
    on concrete inputs: every byte is shifted by the sum of the key and IV
    bytes, and the tag repeats a checksum of key, IV and ciphertext. *)
Module Vigenere.
Import Buffer.

Definition total (buf : list byte) : Z := foldr (λ b acc, toZ b + acc) 0 buf.

Definition shiftBy (s : Z) (b : byte) : byte := byteOf ((toZ b + s) mod 256).

Definition tagOf (k iv c : list byte) : list byte :=
  replicate 16 (byteOf ((total k + total iv + total c) mod 256)).

Definition seal (k iv p : list byte) : list byte * list byte :=
  let c := shiftBy (total k + total iv) <$> p in
  (c, tagOf k iv c).

Definition open (k iv c t : list byte) : option (list byte) :=
  if decide (t = tagOf k iv c)
  then Some (shiftBy (- (total k + total iv)) <$> c)
  else None.

End Vigenere.

Definition vigenere : AesGcm :=
  {| seal := Vigenere.seal; open := Vigenere.open |}.

(** The key of the test suite: 64 zeros. *)
Definition keyHex : string :=
  "0000000000000000000000000000000000000000000000000000000000000000".


Fixpoint occurs (c : ascii) (s : string) : bool :=
  match s with
  | EmptyString => false
  | String a rest => Ascii.eqb a c || occurs c rest
  end.

(** A string starts with two segments when it reads [a:b] or [a:b:...]
    with [a] and [b] non-empty and free of colons. *)
Definition startsWithTwoSegments (stored : string) : Prop :=
  ∃ a b rest,
    a ≠ EmptyString ∧ b ≠ EmptyString ∧
    occurs ":" a = false ∧ occurs ":" b = false ∧
    stored = a +:+ ":" +:+ b +:+ rest ∧
    (rest = EmptyString ∨ ∃ r, rest = String ":" r).

(** The envelope format as the specification words it: exactly two
    non-empty hex segments separated by a colon. *)
Module EnvelopeSpec.

Fixpoint allHex (s : string) : bool :=
  match s with
  | EmptyString => true
  | String c rest => bool_decide (is_Some (Buffer.unhex c)) && allHex rest
  end.

Definition hexSegment (s : string) : bool :=
  negb (String.eqb s EmptyString) && allHex s.

Definition twoHexSegments (stored : string) : bool :=
  match Crypto.split ":" stored with
  | [a; b] => hexSegment a && hexSegment b
  | _ => false
  end.

End EnvelopeSpec.

(** ** Concrete data, after the fixtures of the test suite *)

Module Fixture.

Definition env : option string := Some keyHex.

(** A nonce, as [randomBytes(12)] could draw it. *)
Definition iv : list byte := replicate 12 x00.

Definition unwrap (r : result Store.db) : Store.db :=
  match r with
  | Ok d => d
  | Err _ => Store.empty
  end.

Definition store (now : Z) (provider account : string) (refreshToken : jsstring)
    (accessToken : option string) (expiresAt : option Z) (d : Store.db) : Store.db :=
  unwrap (Store.storeToken (H := vigenere) env iv now
            (StoreParams.mk provider account refreshToken accessToken expiresAt None) d).

(** One connection, named "personal". *)
Definition onePersonal : Store.db :=
  store 1000 "oura" "personal" (js "refresh") None None Store.empty.

(** Two connections, "personal" and "default". *)
Definition personalAndDefault : Store.db :=
  store 1001 "oura" "default" (js "refresh-2") None None onePersonal.

(** (oura, daniel) with an access token that expired 100 seconds before
    time 5000. *)
Definition expired : Store.db :=
  store 1000 "oura" "daniel" (js "r1") (Some "a1") (Some 4900) Store.empty.

(** (oura, daniel) with an empty access token and no expiry. *)
Definition emptyAccess : Store.db :=
  store 1000 "oura" "daniel" (js "r1") (Some EmptyString) None Store.empty.

(** (oura, daniel) with an access token good until time 8600. *)
Definition fresh : Store.db :=
  store 1000 "oura" "daniel" (js "r1") (Some "a1") (Some 8600) Store.empty.

Definition oura : ProviderConfig.t :=
  ProviderConfig.mk "Oura" "https://api.ouraring.com" "https://cloud.ouraring.com/oauth/authorize"
    "https://api.ouraring.com/oauth/token" "client-id" "client-secret" ["daily"] None.

Definition registry : gmap string ProviderConfig.t := {[ "oura" := oura ]}.

(** The world of one proxied request at time 5000: the token endpoint
    answers [tokenEndpoint], the upstream answers 200. *)
Definition world (tokenEndpoint : Proxy.TokenResponse) : Proxy.World :=
  Proxy.mkWorld registry 5000 tokenEndpoint 5001 5002
    (Proxy.UpstreamHttp 200 [("content-type", "application/json")] "{}").

(** GET /proxy/oura/v2/usercollection/daily_sleep?account=daniel, sent with
    the caller's API key. *)
Definition request : Proxy.Request :=
  Proxy.mkRequest "oura" "v2/usercollection/daily_sleep"
    [("account", Proxy.VString "daniel")] "GET"
    {[ "authorization" := Proxy.VString "Bearer test-api-key";
       "host" := Proxy.VString "localhost:3001";
       "accept" := Proxy.VString "application/json" ]}
    Proxy.BodyUndefined.

End Fixture.

(** ** store/SQLiteStore.ts: the listing *)

(** [Connection]: a row without its refresh token. *)
Module Connection.
Record t : Type := mk {
  id : string;
  provider : string;
  account : string;
  accessToken : option string;
  expiresAt : option Z;
  scopes : option string;
  createdAt : Z;
  updatedAt : Z
}.
End Connection.

Module Listing.

Definition rowToConnection (row : Row.t) : Connection.t :=
  Connection.mk (Row.id row) (Row.provider row) (Row.account row) (Row.access_token row)
    (Row.expires_at row) (Row.scopes row) (Row.created_at row) (Row.updated_at row).

(** [ORDER BY provider, account] *)
Definition providerAccountLe (r1 r2 : Row.t) : Prop :=
  match String.compare (Row.provider r1) (Row.provider r2) with
  | Lt => True
  | Eq => String.leb (Row.account r1) (Row.account r2) = true
  | Gt => False
  end.

#[global] Instance providerAccountLe_dec : RelDecision providerAccountLe.
Proof.
  intros r1 r2. unfold providerAccountLe.
  destruct (String.compare (Row.provider r1) (Row.provider r2)); apply _.
Defined.

Definition listConnections (d : Store.db) : list Connection.t :=
  rowToConnection <$> merge_sort providerAccountLe (Store.connections d).

End Listing.

(** ** middleware.ts *)

(** [createHash('sha256').update(s).digest()] *)
Class Sha256 : Type := digest : string → list byte.

(** What the middleware relies on: a digest is 32 bytes long. *)
Record Sha256Laws (S : Sha256) : Prop := {
  digest_length : ∀ s, length (digest s) = 32%nat
}.

Module Middleware.

Record Reply : Type := mkReply {
  code : Z;
  error : string;
  message : string
}.

Definition headerRequired : Reply :=
  mkReply 401 "Unauthorized" "Authorization: Bearer <api_key> header required".
Definition invalidKey : Reply := mkReply 401 "Unauthorized" "Invalid API key".
Definition notConfigured : Reply := mkReply 500 "Internal" "API_KEY not configured".

(** [getApiKeyHash()], with [process.env.API_KEY] as argument; [None] when
    it throws. *)
Definition getApiKeyHash `{Sha256} (apiKey : option string) : option (list byte) :=
  match apiKey with
  | Some key => if String.eqb key EmptyString then None else Some (digest key)
  | None => None
  end.

(** [keyHash()]: the module keeps the first hash it computed in
    [_keyHash], here [cache]. *)
Definition keyHash `{Sha256} (apiKey : option string) (cache : option (list byte))
    : option (list byte) * option (list byte) :=
  match cache with
  | Some h => (cache, Some h)
  | None =>
      match getApiKeyHash apiKey with
      | Some h => (Some h, Some h)
      | None => (None, None)
      end
  end.

(** [timingSafeEqual(a, b)]; [None] when it throws, which it does for
    buffers of different lengths. *)
Definition timingSafeEqual (a b : list byte) : option bool :=
  if decide (length a = length b) then Some (bool_decide (a = b)) else None.

(** [s.slice(n)] *)
Definition slice (n : nat) (s : string) : string :=
  String.substring n (String.length s - n) s.

(** [requireApiKey(request, reply)]: the new [_keyHash] and the reply it
    sends, if any. *)
Definition requireApiKey `{Sha256} (apiKey : option string) (cache : option (list byte))
    (authHeader : option string) : option (list byte) * option Reply :=
  match authHeader with
  | Some header =>
      if String.prefix "Bearer " header then
        let provided := slice 7 header in
        let providedHash := digest provided in
        match keyHash apiKey cache with
        | (cache', Some expected) =>
            match timingSafeEqual providedHash expected with
            | Some true => (cache', None)
            | Some false => (cache', Some invalidKey)
            | None => (cache', Some notConfigured)
            end
        | (cache', None) => (cache', Some notConfigured)
        end
      else (cache, Some headerRequired)
  | None => (cache, Some headerRequired)
  end.

End Middleware.

(** A stand-in digest with the interface of [Sha256], used to run the
    middleware on concrete inputs: the first 32 characters, padded with
    zeros. *)
Definition padded : Sha256 :=
  λ s, take 32 ((Buffer.byteOf ∘ Z.of_N ∘ N_of_ascii <$> String.list_ascii_of_string s)
                ++ replicate 32 x00).

(** ** providers.ts: loading the registry *)

Module Providers.


(** A registry entry: the configuration the handlers read, and the buffer
    that is copied along. *)
Record Loaded : Type := mkLoaded {
  config : ProviderConfig.t;
  buffer : option Z
}.




(** [s.replace(/\/$/, '')] *)
Fixpoint stripTrailingSlash (s : string) : string :=
  match s with
  | EmptyString => EmptyString
  | String c EmptyString => if Ascii.eqb c "/" then EmptyString else s
  | String c rest => String c (stripTrailingSlash rest)
  end.



Definition getProvider (registry : gmap string Loaded) (slug : string)
    : option ProviderConfig.t :=
  config <$> registry !! slug.

End Providers.

(** ** auth.ts: the start route *)

Module AuthStart.
Import Text.

(** A parsed URL: what precedes the query, the query as [searchParams]
    holds it, and the fragment with its hash sign. *)
Record Url : Type := mkUrl {
  beforeQuery : string;
  searchParams : list (string * string);
  fragment : string
}.

(** [url.searchParams.set(name, value)]: the first pair of that name takes
    the value and the others of that name go; without one the pair is
    appended. *)
Fixpoint setParam (name value : string) (params : list (string * string))
    : list (string * string) :=
  match params with
  | [] => [(name, value)]
  | (k, v) :: rest =>
      if String.eqb k name
      then (name, value) :: List.filter (λ kv, negb (String.eqb kv.1 name)) rest
      else (k, v) :: setParam name value rest
  end.

(** [url.toString()] *)
Definition toString (u : Url) : string :=
  beforeQuery u
  +:+ match searchParams u with
      | [] => EmptyString
      | params => "?" +:+ searchParamsToString params
      end
  +:+ fragment u.

Record StartRequest : Type := mkStart {
  provider : string;             (* request.params.provider *)
  account : option string        (* request.body?.account *)
}.

Record World : Type := mkWorld {
  registry : gmap string ProviderConfig.t;
  BASE_URL : option string;      (* process.env.BASE_URL *)
  PORT : option string;          (* process.env.PORT *)
  random : list byte;            (* randomBytes(24) *)
  nowWritten : Z;                (* unixepoch() in saveOAuthState *)
  parsedAuthUrl : option Url     (* new URL(providerCfg.auth_url); [None]: it throws *)
}.

Inductive Outcome : Type :=
  | UnknownProvider (message : string)                    (* 404 *)
  | Started (auth_url redirect_uri : string) (expires_in : Z)   (* 200 *)
  | ThrewInvalidUrl.

Definition redirectUri (w : World) (provider : string) : string :=
  let baseUrl := default ("http://localhost:" +:+ default "3001" (PORT w)) (BASE_URL w) in
  baseUrl +:+ "/auth/" +:+ provider +:+ "/callback".

(** The handler of [POST /auth/:provider/start]. *)
Definition start (w : World) (req : StartRequest) (d : Store.db) : Store.db * Outcome :=
  let account := default "default" (account req) in
  match registry w !! provider req with
  | None =>
      (d, UnknownProvider ("Provider " +:+ dq +:+ provider req +:+ dq +:+ " is not registered."))
  | Some providerCfg =>
      let state := Buffer.toHex (random w) in
      (* Persist state so callback can verify it *)
      let d := Store.saveOAuthState (nowWritten w) state (provider req) account d in
      match parsedAuthUrl w with
      | None => (d, ThrewInvalidUrl)
      | Some authUrl =>
          let params := searchParams authUrl in
          let params := setParam "response_type" "code" params in
          let params := setParam "client_id" (ProviderConfig.client_id providerCfg) params in
          let params := setParam "redirect_uri" (redirectUri w (provider req)) params in
          let params := setParam "scope" (join " " (ProviderConfig.scopes providerCfg)) params in
          let params := setParam "state" state params in
          let params :=
            fold_left (λ acc kv, setParam kv.1 kv.2 acc)
              (default [] (ProviderConfig.extra_params providerCfg)) params in
          (d, Started (toString (mkUrl (beforeQuery authUrl) params (fragment authUrl)))
                      (redirectUri w (provider req)) 600)
      end
  end.

End AuthStart.

(** ** Proof automation *)

(** Arithmetic with division and remainder by constants. *)
Ltac euclid := Z.div_mod_to_equations; lia.

(** Case analysis on every integer comparison of the goal. *)
Ltac zcases :=
  repeat match goal with
  | |- context [?a <? ?b] => destruct (Z.ltb_spec a b); try euclid
  | |- context [?a <=? ?b] => destruct (Z.leb_spec a b); try euclid
  | |- context [?a =? ?b] => destruct (Z.eqb_spec a b); try euclid
  end.

(** * Properties *)

(** ** Buffers and hex *)

Section BufferFacts.
Import Buffer.

Lemma toZ_range b : 0 ≤ toZ b < 256.
Proof.
  unfold toZ. pose proof (Byte.to_N_bounded b). lia.
Qed.

Lemma byteOf_toZ b : byteOf (toZ b) = b.
Proof.
  unfold byteOf, toZ. by rewrite N2Z.id, Byte.of_to_N.
Qed.

Lemma toZ_byteOf z : 0 ≤ z < 256 → toZ (byteOf z) = z.
Proof.
  intros Hz. unfold byteOf, toZ.
  destruct (Byte.of_N (Z.to_N z)) as [b|] eqn:Hb.
  - apply Byte.to_of_N in Hb. lia.
  - apply Byte.of_N_None_iff in Hb. lia.
Qed.

Lemma hex_of_byte b :
  unhex (hexDigit (toZ b / 16)) = Some (toZ b / 16) ∧
  unhex (hexDigit (toZ b mod 16)) = Some (toZ b mod 16) ∧
  hexDigit (toZ b / 16) ≠ ":"%char ∧
  hexDigit (toZ b mod 16) ≠ ":"%char.
Proof. destruct b; vm_compute; done. Qed.

Lemma fromHex_toHex buf : fromHex (toHex buf) = buf.
Proof.
  induction buf as [|b buf IH]; [done|].
  cbn [toHex fromHex].
  destruct (hex_of_byte b) as (-> & -> & _ & _).
  rewrite IH. f_equal.
  rewrite <- (byteOf_toZ b) at 3. f_equal.
  pose proof (Z.div_mod (toZ b) 16). lia.
Qed.

Lemma subarray_tail (c t : list byte) :
  let len := Z.of_nat (length (c ++ t)) in
  subarray (c ++ t) (len - Z.of_nat (length t)) len = t.
Proof.
  intros len. unfold subarray, clampIndex. fold len.
  assert (Hlen : len = Z.of_nat (length c) + Z.of_nat (length t))
    by (unfold len; rewrite length_app; lia).
  destruct (Z.ltb_spec (len - Z.of_nat (length t)) 0); [lia|].
  destruct (Z.ltb_spec len 0); [lia|].
  rewrite !Z.min_l by lia.
  replace (Z.to_nat (len - Z.of_nat (length t))) with (length c) by lia.
  rewrite drop_app_length.
  apply take_ge. lia.
Qed.

Lemma subarray_head (c t : list byte) :
  let len := Z.of_nat (length (c ++ t)) in
  subarray (c ++ t) 0 (len - Z.of_nat (length t)) = c.
Proof.
  intros len. unfold subarray, clampIndex. fold len.
  assert (Hlen : len = Z.of_nat (length c) + Z.of_nat (length t))
    by (unfold len; rewrite length_app; lia).
  destruct (Z.ltb_spec (len - Z.of_nat (length t)) 0); [lia|].
  change (0 <? 0) with false. cbn match.
  rewrite (Z.min_l 0 len), (Z.min_l _ len) by lia. cbn [Z.to_nat drop].
  replace (Z.to_nat (len - Z.of_nat (length t) - 0)) with (length c) by lia.
  apply take_app_length.
Qed.

End BufferFacts.

(** ** UTF-8 *)

Section Utf8Facts.
Import Buffer Utf8.

Lemma decode_cons b0 r0 :
  decode (b0 :: r0) =
    let x0 := toZ b0 in
    if x0 <? 0x80 then x0 :: decode r0
    else if (0xC2 <=? x0) && (x0 <=? 0xDF) then
      match r0 with
      | b1 :: r1 =>
          if isCont (toZ b1)
          then ((x0 - 0xC0) * 64 + (toZ b1 - 0x80)) :: decode r1
          else 0xFFFD :: decode r0
      | [] => [0xFFFD]
      end
    else if (0xE0 <=? x0) && (x0 <=? 0xEF) then
      match r0 with
      | b1 :: r1 =>
          if second3 x0 (toZ b1) then
            match r1 with
            | b2 :: r2 =>
                if isCont (toZ b2)
                then ((x0 - 0xE0) * 4096 + (toZ b1 - 0x80) * 64 + (toZ b2 - 0x80))
                       :: decode r2
                else 0xFFFD :: decode r1
            | [] => [0xFFFD]
            end
          else 0xFFFD :: decode r0
      | [] => [0xFFFD]
      end
    else if (0xF0 <=? x0) && (x0 <=? 0xF4) then
      match r0 with
      | b1 :: r1 =>
          if second4 x0 (toZ b1) then
            match r1 with
            | b2 :: r2 =>
                if isCont (toZ b2) then
                  match r2 with
                  | b3 :: r3 =>
                      if isCont (toZ b3)
                      then surrogates ((x0 - 0xF0) * 262144 + (toZ b1 - 0x80) * 4096
                                       + (toZ b2 - 0x80) * 64 + (toZ b3 - 0x80))
                             ++ decode r3
                      else 0xFFFD :: decode r2
                  | [] => [0xFFFD]
                  end
                else 0xFFFD :: decode r1
            | [] => [0xFFFD]
            end
          else 0xFFFD :: decode r0
      | [] => [0xFFFD]
      end
    else 0xFFFD :: decode r0.
Proof. reflexivity. Qed.

Lemma decode_encode1 c rest :
  0 ≤ c < 0x80 → decode (encode1 c ++ rest) = c :: decode rest.
Proof.
  intros Hc. unfold encode1. cbn [app]. rewrite decode_cons. cbv zeta.
  rewrite toZ_byteOf by lia. by zcases.
Qed.

Lemma decode_encode2 c rest :
  0x80 ≤ c < 0x800 → decode (encode2 c ++ rest) = c :: decode rest.
Proof.
  intros Hc. unfold encode2. cbn [app]. rewrite decode_cons. cbv zeta.
  unfold isCont. rewrite !toZ_byteOf by euclid.
  zcases. cbn [andb]. f_equal. euclid.
Qed.

Lemma decode_encode3 c rest :
  0x800 ≤ c ≤ 0xFFFF → isHigh c = false → isLow c = false →
  decode (encode3 c ++ rest) = c :: decode rest.
Proof.
  unfold isHigh, isLow. intros Hc Hh Hl.
  assert (Hs : c < 0xD800 ∨ 0xDFFF < c) by lia. clear Hh Hl.
  unfold encode3. cbn [app]. rewrite decode_cons. cbv zeta.
  unfold second3, isCont. rewrite !toZ_byteOf by euclid.
  zcases; cbn [andb]; try euclid; f_equal; euclid.
Qed.

Lemma decode_encode4 c d rest :
  isHigh c = true → isLow d = true →
  decode (encode4 (0x10000 + (c - 0xD800) * 1024 + (d - 0xDC00)) ++ rest)
  = c :: d :: decode rest.
Proof.
  unfold isHigh, isLow. intros Hc Hd.
  assert (Hc' : 0xD800 ≤ c ≤ 0xDBFF) by lia.
  assert (Hd' : 0xDC00 ≤ d ≤ 0xDFFF) by lia. clear Hc Hd.
  set (cp := 0x10000 + (c - 0xD800) * 1024 + (d - 0xDC00)).
  assert (Hcp : 0x10000 ≤ cp ≤ 0x10FFFF) by (unfold cp; lia).
  unfold encode4. cbn [app]. rewrite decode_cons. cbv zeta.
  unfold second4, isCont, surrogates. rewrite !toZ_byteOf by euclid.
  zcases; cbn [andb app]; try euclid;
    (f_equal; [|f_equal]; unfold cp; euclid).
Qed.

Lemma decode_encode_bounded n (s : jsstring) :
  (length s ≤ n)%nat → wellFormed s = true → decode (encode s) = s.
Proof.
  revert s. induction n as [|n IH]; intros [|c rest] Hlen Hwf;
    cbn [length] in Hlen; try done; try lia.
  cbn [wellFormed] in Hwf. cbn [encode].
  destruct (isHigh c) eqn:Hh.
  - destruct rest as [|d rest']; [done|].
    apply andb_prop in Hwf as [Hd Hwf]. rewrite Hd.
    assert (0xD800 ≤ c) by (unfold isHigh in Hh; lia).
    destruct (Z.ltb_spec c 0x80); [lia|].
    destruct (Z.ltb_spec c 0x800); [lia|].
    rewrite decode_encode4 by done.
    rewrite IH; [done| cbn [length] in Hlen; lia | done].
  - apply andb_prop in Hwf as [Hwf Hrest].
    apply andb_prop in Hwf as [Hrange Hl].
    apply negb_true_iff in Hl. rewrite Hl.
    assert (Hrest' : decode (encode rest) = rest) by (apply IH; [lia|done]).
    destruct (Z.ltb_spec c 0x80).
    { rewrite decode_encode1 by lia. by rewrite Hrest'. }
    destruct (Z.ltb_spec c 0x800).
    { rewrite decode_encode2 by lia. by rewrite Hrest'. }
    rewrite decode_encode3 by (done || lia). by rewrite Hrest'.
Qed.

(** UTF-8 encoding loses nothing on a well-formed string. *)
Lemma decode_encode (s : jsstring) :
  wellFormed s = true → decode (encode s) = s.
Proof. apply (decode_encode_bounded (length s)). lia. Qed.

(** An unpaired surrogate comes back as U+FFFD. *)
Lemma decode_encode_lone_surrogate :
  decode (encode [0xD800]) = [0xFFFD].
Proof. reflexivity. Qed.

End Utf8Facts.

(** ** The stand-in cipher satisfies the cipher interface *)

Lemma vigenere_shift_back s b :
  Vigenere.shiftBy (- s) (Vigenere.shiftBy s b) = b.
Proof.
  unfold Vigenere.shiftBy.
  rewrite toZ_byteOf by (apply Z.mod_pos_bound; lia).
  rewrite <- (byteOf_toZ b) at 2. f_equal.
  pose proof (toZ_range b). Z.div_mod_to_equations. lia.
Qed.

Lemma vigenere_open_seal k iv p :
  Vigenere.open k iv (Vigenere.seal k iv p).1 (Vigenere.seal k iv p).2 = Some p.
Proof.
  unfold Vigenere.open, Vigenere.seal. cbn [fst snd].
  rewrite decide_True by done. f_equal.
  rewrite <- list_fmap_compose.
  rewrite <- (list_fmap_id p) at 2.
  apply list_fmap_ext. intros _ b _. apply vigenere_shift_back.
Qed.

Lemma vigenere_laws : AesGcmLaws vigenere.
Proof.
  split.
  - intros k iv p. apply length_replicate.
  - intros k iv p _ _. apply vigenere_open_seal.
Qed.

(** ** crypto.ts *)

Section CryptoFacts.
Import Buffer Crypto.

Lemma append_nil_l s : EmptyString +:+ s = s.
Proof. reflexivity. Qed.

Lemma append_cons c a b : String c a +:+ b = String c (a +:+ b).
Proof. reflexivity. Qed.

Lemma split_is_cons sep s : ∃ seg segs, split sep s = seg :: segs.
Proof.
  induction s as [|c s (seg & segs & IH)]; cbn [split]; [by eauto|].
  destruct (Ascii.eqb c sep); [by eauto|]. rewrite IH. by eauto.
Qed.

Lemma split_free sep s : occurs sep s = false → split sep s = [s].
Proof.
  induction s as [|c s IH]; cbn [split occurs]; [done|].
  intros [Hc Hs]%orb_false_elim. rewrite Hc, IH by done. done.
Qed.

Lemma split_app sep a r :
  occurs sep a = false → split sep (a +:+ String sep r) = a :: split sep r.
Proof.
  induction a as [|c a IH]; simpl.
  - intros _. by rewrite Ascii.eqb_refl.
  - intros [Hc Ha]%orb_false_elim. rewrite Hc, IH by done. done.
Qed.

Lemma split_segments_free sep s seg :
  seg ∈ split sep s → occurs sep seg = false.
Proof.
  revert seg. induction s as [|c s IH]; intros seg; cbn [split].
  - intros ->%list_elem_of_singleton. done.
  - destruct (Ascii.eqb c sep) eqn:Hc.
    + intros [->|Hin]%elem_of_cons; [done|by apply IH].
    + destruct (split_is_cons sep s) as (seg0 & segs & Hs). rewrite Hs in IH |- *.
      intros [->|Hin]%elem_of_cons.
      * cbn [occurs]. rewrite Hc. apply IH. by left.
      * apply IH. by right.
Qed.

(** Joining the segments with the separator gives the string back. *)
Lemma split_join sep s seg segs :
  split sep s = seg :: segs →
  s = seg +:+ foldr (λ x acc, String sep x +:+ acc) EmptyString segs.
Proof.
  revert seg segs. induction s as [|c s IH]; intros seg segs; cbn [split].
  - by intros [= <- <-].
  - destruct (Ascii.eqb_spec c sep) as [->|Hc].
    + intros [= <- <-].
      destruct (split_is_cons sep s) as (seg0 & segs0 & Hs). rewrite Hs.
      cbn [foldr]. rewrite append_nil_l, append_cons. f_equal. by apply IH.
    + destruct (split_is_cons sep s) as (seg0 & segs0 & Hs). rewrite Hs.
      intros [= <- <-]. rewrite append_cons. f_equal. by apply IH.
Qed.

Lemma toHex_no_colon buf : occurs ":" (toHex buf) = false.
Proof.
  induction buf as [|b buf IH]; [done|]. cbn [toHex occurs].
  destruct (hex_of_byte b) as (_ & _ & H1 & H2).
  apply Ascii.eqb_neq in H1, H2. by rewrite H1, H2, IH.
Qed.

Lemma split_envelope iv data :
  split ":" (toHex iv +:+ ":" +:+ toHex data) = [toHex iv; toHex data].
Proof.
  rewrite append_cons, append_nil_l.
  rewrite split_app by apply toHex_no_colon.
  by rewrite split_free by apply toHex_no_colon.
Qed.

Lemma truthy_toHex buf : buf ≠ [] → truthy (Some (toHex buf)) = true.
Proof. by destruct buf. Qed.

Lemma truthy_Some s : truthy (Some s) = true ↔ s ≠ EmptyString.
Proof.
  unfold truthy. rewrite negb_true_iff.
  destruct (String.eqb_spec s EmptyString); naive_solver.
Qed.

Context `{G : AesGcm} (laws : AesGcmLaws G).

(** Whatever the plaintext, decrypting an envelope made by [encrypt] under
    the same key succeeds and gives the plaintext as it survives UTF-8. *)
Lemma decrypt_encrypt_utf8 env key iv p :
  getKey env = Ok key → length key = 32%nat → length iv = 12%nat →
  ∃ stored, encrypt env iv p = Ok stored ∧
            decrypt env stored = Ok (Utf8.decode (Utf8.encode p)).
Proof.
  intros Hkey Hlen Hiv. unfold encrypt, decrypt. rewrite Hkey. cbn [rbind].
  unfold createCipher. rewrite decide_True by done. cbn [rbind].
  eexists; split; [done|].
  rewrite split_envelope. cbn [lookup list_lookup default].
  pose proof (seal_tag_length laws key iv (Utf8.encode p)) as Htag.
  destruct (seal key iv (Utf8.encode p)) as [c tag] eqn:Hseal. cbn [fst snd] in *.
  assert (Hne : c ++ tag ≠ []) by (destruct tag; [done|by destruct c]).
  assert (Hiv' : iv ≠ []) by (by destruct iv).
  rewrite !truthy_toHex by done. cbn [negb orb]. unfold id.
  rewrite !fromHex_toHex. unfold TAG_BYTES.
  change 16 with (Z.of_nat 16). rewrite <- Htag.
  rewrite subarray_tail, subarray_head.
  pose proof (open_seal laws key iv (Utf8.encode p) Hlen Hiv) as Hopen.
  rewrite Hseal in Hopen. cbn [fst snd] in Hopen. by rewrite Hopen.
Qed.

(** The format check looks at the first two segments only. *)
Lemma decrypt_format_error_split env key stored :
  getKey env = Ok key →
  decrypt env stored = Err FormatError ↔
  truthy (split ":" stored !! 0%nat) = false ∨ truthy (split ":" stored !! 1%nat) = false.
Proof.
  intros Hkey. unfold decrypt. rewrite Hkey. cbn [rbind]. split.
  - destruct (truthy (split ":" stored !! 0%nat)); [|by left].
    destruct (truthy (split ":" stored !! 1%nat)); [|by right].
    cbn [negb orb]. unfold createCipher. case_decide; cbn [rbind]; [|done].
    by destruct (open _ _ _ _).
  - intros [-> | ->]; [done|]. by rewrite orb_true_r.
Qed.

End CryptoFacts.

Lemma append_nil_r s : s +:+ EmptyString = s.
Proof. induction s; [done|]. rewrite append_cons. by f_equal. Qed.

Lemma startsWithTwoSegments_split stored :
  startsWithTwoSegments stored ↔
  Crypto.truthy (Crypto.split ":" stored !! 0%nat) = true ∧
  Crypto.truthy (Crypto.split ":" stored !! 1%nat) = true.
Proof.
  split.
  - intros (a & b & rest & Ha & Hb & Hfa & Hfb & -> & Hrest).
    rewrite append_cons, append_nil_l, split_app by done.
    destruct Hrest as [->|[r ->]].
    + rewrite append_nil_r, split_free by done. cbn [lookup list_lookup].
      by rewrite !truthy_Some.
    + rewrite split_app by done. cbn [lookup list_lookup]. by rewrite !truthy_Some.
  - destruct (Crypto.split ":" stored) as [|a [|b segs]] eqn:Hs;
      cbn [lookup list_lookup]; [by intros [? _]|by intros [_ ?]|].
    rewrite !truthy_Some. intros [Ha Hb].
    exists a, b, (foldr (λ x acc, String ":" x +:+ acc) EmptyString segs).
    repeat split; try done.
    + eapply split_segments_free. rewrite Hs. by left.
    + eapply split_segments_free. rewrite Hs. right. by left.
    + apply split_join in Hs. rewrite Hs at 1. cbn [foldr].
      by rewrite !append_cons, append_nil_l.
    + destruct segs; [by left|right]. cbn [foldr]. rewrite append_cons. by eauto.
Qed.

(** ** store/SQLiteStore.ts *)

Section StoreFacts.
Import Store.
Context `{G : AesGcm} (laws : AesGcmLaws G).

Lemma filter_bool {A} (p : A → bool) (l : list A) :
  List.filter p l = filter (λ x, p x = true) l.
Proof.
  induction l as [|x l IH]; [done|]. cbn [List.filter]. rewrite filter_cons, IH.
  destruct (p x); by case_decide.
Qed.

(** Under a uniqueness constraint on [f], two rows that agree on [f] are
    one row. *)
Lemma NoDup_fmap_eq {A B} (f : A → B) (l : list A) x y :
  NoDup (f <$> l) → x ∈ l → y ∈ l → f x = f y → x = y.
Proof.
  induction l as [|z l IH]; [by intros _ ?%elem_of_nil|].
  rewrite fmap_cons, NoDup_cons. intros [Hz Hnd].
  intros [->|Hx]%elem_of_cons [->|Hy]%elem_of_cons Hxy; [done| | |by apply IH].
  - destruct Hz. rewrite Hxy. by apply list_elem_of_fmap_2.
  - destruct Hz. rewrite <- Hxy. by apply list_elem_of_fmap_2.
Qed.

Lemma NoDup_fmap_filter {A B} (f : A → B) (P : A → Prop) `{∀ x, Decision (P x)} (l : list A) :
  NoDup (f <$> l) → NoDup (f <$> filter P l).
Proof.
  intros Hnd. apply NoDup_fmap_2_strong.
  - intros x y [_ Hx]%list_elem_of_filter [_ Hy]%list_elem_of_filter Hxy.
    by apply (NoDup_fmap_eq f l).
  - by apply NoDup_filter, (NoDup_fmap_1 f).
Qed.

Lemma sameKey_spec provider account row :
  sameKey provider account row = true ↔ key row = (provider, account).
Proof.
  unfold sameKey, key. rewrite andb_true_iff, !String.eqb_eq.
  split; [by intros [-> ->]|by intros [= -> ->]].
Qed.

Lemma ofProvider_spec provider row :
  ofProvider provider row = true ↔ Row.provider row = provider.
Proof. unfold ofProvider. apply String.eqb_eq. Qed.

(** An envelope that [encrypt] made decrypts under the same environment. *)
Lemma encrypt_decrypts env iv p stored :
  length iv = 12%nat →
  Crypto.encrypt env iv p = Ok stored →
  Crypto.decrypt env stored = Ok (Utf8.decode (Utf8.encode p)).
Proof.
  intros Hiv Henc.
  destruct (Crypto.getKey env) as [k|e] eqn:Hkey;
    [|by unfold Crypto.encrypt in Henc; rewrite Hkey in Henc].
  destruct (decide (length k = 32%nat)) as [Hlen|Hlen].
  - destruct (decrypt_encrypt_utf8 laws env k iv p Hkey Hlen Hiv) as (stored' & He & Hd).
    congruence.
  - unfold Crypto.encrypt in Henc. rewrite Hkey in Henc. cbn [rbind] in Henc.
    unfold Crypto.createCipher in Henc. by rewrite decide_False in Henc.
Qed.

Lemma upsert_keys now id provider account enc at_ exp sc rows rows' :
  upsert now id provider account enc at_ exp sc rows = Ok rows' →
  (key <$> rows' = key <$> rows ∧ (provider, account) ∈ key <$> rows) ∨
  (key <$> rows' = (key <$> rows) ++ [(provider, account)] ∧ (provider, account) ∉ key <$> rows).
Proof.
  unfold upsert. destruct (existsb (sameKey provider account) rows) eqn:Hex.
  - intros [= <-]. left. split.
    + rewrite <- list_fmap_compose. apply list_fmap_ext. intros _ row _. cbn.
      by destruct (sameKey provider account row).
    + apply existsb_exists in Hex as (row & Hin & Hrow).
      apply sameKey_spec in Hrow. rewrite <- Hrow.
      apply list_elem_of_fmap_2. by apply list_elem_of_In.
  - destruct (existsb (λ row, String.eqb (Row.id row) id) rows); [done|].
    intros [= <-]. right. split.
    + by rewrite fmap_app.
    + intros (row & Hk & Hin)%list_elem_of_fmap.
      assert (existsb (sameKey provider account) rows = true); [|congruence].
      apply existsb_exists. exists row. split; [by apply list_elem_of_In|].
      by apply sameKey_spec.
Qed.

Lemma upsert_decrypts env now id provider account enc at_ exp sc rows rows' :
  upsert now id provider account enc at_ exp sc rows = Ok rows' →
  (∃ rt, Crypto.decrypt env enc = Ok rt) →
  Forall (λ row, ∃ rt, Crypto.decrypt env (Row.refresh_token_encrypted row) = Ok rt) rows →
  Forall (λ row, ∃ rt, Crypto.decrypt env (Row.refresh_token_encrypted row) = Ok rt) rows'.
Proof.
  unfold upsert. intros Hup Henc Hall.
  destruct (existsb (sameKey provider account) rows).
  - injection Hup as <-. apply Forall_fmap. eapply Forall_impl; [done|].
    intros row Hrow. cbn. by destruct (sameKey provider account row).
  - destruct (existsb (λ row, String.eqb (Row.id row) id) rows); [done|].
    injection Hup as <-. apply Forall_app. split; [done|]. by repeat constructor.
Qed.

(** Every reachable database satisfies the table invariant. *)
Lemma reachable_wf env d : reachable env d → wf env d.
Proof.
  induction 1 as [|d d' iv now params _ [IHk IHd] Hiv Hstore
                  |d now provider account at_ exp _ [IHk IHd]
                  |d provider account _ [IHk IHd]
                  |d now state provider account _ IH
                  |d state _ IH
                  |d now _ IH]; unfold wf in *.
  - split; cbn; constructor.
  - unfold storeToken in Hstore.
    destruct (Crypto.encrypt env iv _) as [enc|] eqn:Henc; [|done]. cbn [rbind] in Hstore.
    destruct (upsert _ _ _ _ _ _ _ _ _) as [rows|] eqn:Hup; [|done].
    injection Hstore as <-. cbn [connections]. split.
    + apply upsert_keys in Hup as [[-> _]|[-> Hnew]]; [done|].
      apply NoDup_app. split_and!; [done| |apply NoDup_singleton].
      intros k Hk ->%list_elem_of_singleton. done.
    + eapply upsert_decrypts; [done| |done].
      eexists. by eapply encrypt_decrypts.
  - cbn [updateAccessToken connections]. split.
    + rewrite <- list_fmap_compose.
      erewrite list_fmap_ext; [exact IHk|]. intros _ row _. cbn.
      by destruct (sameKey provider account row).
    + apply Forall_fmap. eapply Forall_impl; [done|].
      intros row Hrow. cbn. by destruct (sameKey provider account row).
  - cbn [deleteToken connections]. rewrite filter_bool. split.
    + by apply NoDup_fmap_filter.
    + apply Forall_forall. intros row [_ Hrow]%list_elem_of_filter.
      by eapply Forall_forall in IHd.
  - done.
  - unfold consumeOAuthState. by destruct (_ !! _).
  - done.
Qed.

(** What [rowToRecord] and [toStored] keep of a row. *)
Lemma rowToRecord_fields env row record :
  rowToRecord env row = Ok record →
  Crypto.decrypt env (Row.refresh_token_encrypted row) = Ok (TokenRecord.refreshToken record) ∧
  toStored record =
    StoredToken.mk (Row.provider row) (Row.account row) (TokenRecord.refreshToken record)
      (Row.access_token row) (Row.expires_at row) (Row.scopes row)
      (Row.created_at row) (Row.updated_at row).
Proof.
  unfold rowToRecord. destruct (Crypto.decrypt env _) as [rt|]; [|done].
  by intros [= <-].
Qed.

Lemma rowToRecord_ok env row rt :
  Crypto.decrypt env (Row.refresh_token_encrypted row) = Ok rt →
  ∃ record, rowToRecord env row = Ok record.
Proof. unfold rowToRecord. intros ->. by eexists. Qed.

Lemma wf_rowToRecord env d row :
  wf env d → row ∈ connections d → ∃ record, rowToRecord env row = Ok record.
Proof.
  intros [_ Hdec] Hin. eapply Forall_forall in Hdec as [rt Hrt]; [|done].
  by eapply rowToRecord_ok.
Qed.

Lemma find_default_unique provider d rows row :
  NoDup (key <$> connections d) →
  rows ≡ₚ List.filter (ofProvider provider) (connections d) →
  row ∈ rows → Row.account row = "default" →
  find (λ r, String.eqb (Row.account r) "default") rows = Some row.
Proof.
  intros Hnd Hperm Hin Hacc.
  assert (Hsub : ∀ r, r ∈ rows → r ∈ connections d ∧ Row.provider r = provider).
  { intros r Hr. rewrite Hperm, filter_bool in Hr.
    apply list_elem_of_filter in Hr as [Hp Hr]. by apply ofProvider_spec in Hp. }
  destruct (find _ rows) as [row'|] eqn:Hfind.
  - apply find_some in Hfind as [Hin'%list_elem_of_In Hacc'%String.eqb_eq].
    f_equal. destruct (Hsub _ Hin) as [? ?], (Hsub _ Hin') as [? ?].
    eapply (NoDup_fmap_eq key); [done..|]. unfold key. congruence.
  - eapply find_none in Hfind; [|by apply list_elem_of_In].
    apply String.eqb_neq in Hfind. done.
Qed.

Lemma find_default_none (rows : list Row.t) :
  (∀ row, row ∈ rows → Row.account row ≠ "default") →
  find (λ r, String.eqb (Row.account r) "default") rows = None.
Proof.
  intros Hno. destruct (find _ rows) as [row'|] eqn:Hfind; [|done].
  apply find_some in Hfind as [Hin%list_elem_of_In Hacc%String.eqb_eq].
  by destruct (Hno _ Hin).
Qed.

Lemma find_fmap {A} (P : A → bool) (f : A → A) (l : list A) :
  (∀ x, P (f x) = P x) → find P (f <$> l) = f <$> find P l.
Proof.
  intros HP. induction l as [|x l IH]; [done|].
  cbn [fmap list_fmap find]. rewrite HP. by destruct (P x).
Qed.

Lemma decrypt_ok_key env stored p :
  Crypto.decrypt env stored = Ok p →
  ∃ key, Crypto.getKey env = Ok key ∧ length key = 32%nat.
Proof.
  unfold Crypto.decrypt. destruct (Crypto.getKey env) as [key|]; [|done].
  cbn [rbind]. destruct (_ || _); [done|].
  unfold Crypto.createCipher. case_decide; [|done]. by eauto.
Qed.

Lemma getToken_Some env provider account d t :
  getToken env provider account d = Ok (Some t) →
  ∃ row record,
    find (sameKey provider account) (connections d) = Some row ∧
    rowToRecord env row = Ok record ∧ t = toStored record ∧
    Row.provider row = provider ∧ Row.account row = account.
Proof.
  unfold getToken. destruct (find _ _) as [row|] eqn:Hfind; [|done].
  destruct (rowToRecord env row) as [record|] eqn:Hrec; [|done].
  intros [= <-]. exists row, record.
  apply find_some in Hfind as [_ Hk%sameKey_spec]. injection Hk as Hp Ha.
  by split_and!.
Qed.

(** C6: for a record that exists under (provider, account), a second
    [storeToken] for the pair replaces the refresh token (as it survives
    UTF-8), the access token, the expiry and the scopes, sets [updatedAt]
    to the time of the call and keeps [createdAt]; [updateAccessToken]
    replaces the access token and the expiry, sets [updatedAt] and keeps
    the refresh token, the scopes and [createdAt]. *)
Theorem upsert_keeps_createdAt env iv now params accessToken expiresAt d t :
  length iv = 12%nat →
  getToken env (StoreParams.provider params) (StoreParams.account params) d = Ok (Some t) →
  (∃ d',
     storeToken env iv now params d = Ok d' ∧
     getToken env (StoreParams.provider params) (StoreParams.account params) d'
     = Ok (Some (StoredToken.mk (StoreParams.provider params) (StoreParams.account params)
                   (Utf8.decode (Utf8.encode (StoreParams.refreshToken params)))
                   (StoreParams.accessToken params) (StoreParams.expiresAt params)
                   (StoreParams.scopes params) (StoredToken.createdAt t) now))) ∧
  getToken env (StoreParams.provider params) (StoreParams.account params)
    (updateAccessToken now (StoreParams.provider params) (StoreParams.account params)
       accessToken expiresAt d)
  = Ok (Some (StoredToken.mk (StoreParams.provider params) (StoreParams.account params)
                (StoredToken.refreshToken t) (Some accessToken) (Some expiresAt)
                (StoredToken.scopes t) (StoredToken.createdAt t) now)).
Proof.
  intros Hiv (row & record & Hfind & Hrec & -> & Hp & Ha)%getToken_Some.
  pose proof Hrec as [Hdec Hstored]%rowToRecord_fields.
  destruct (decrypt_ok_key _ _ _ Hdec) as (key & Hkey & Hlen).
  destruct (decrypt_encrypt_utf8 laws env key iv (StoreParams.refreshToken params)
              Hkey Hlen Hiv) as (enc & Henc & Hdec').
  pose proof Hfind as [Hin Hsame]%find_some.
  split.
  - unfold storeToken, upsert. rewrite Henc. cbn [rbind].
    replace (existsb _ _) with true
      by (symmetry; apply existsb_exists; by exists row).
    cbn [rbind]. eexists. split; [done|].
    unfold getToken. cbn [connections].
    rewrite find_fmap, Hfind by (intros x; by destruct (sameKey _ _ x) eqn:Hx; [rewrite <- Hx|]).
    cbn [fmap option_fmap option_map]. rewrite Hsame.
    unfold rowToRecord. cbn [Row.refresh_token_encrypted]. rewrite Hdec'. cbn [rbind].
    rewrite Hstored. unfold toStored. cbn. by rewrite Hp, Ha.
  - unfold getToken, updateAccessToken. cbn [connections].
    rewrite find_fmap, Hfind by (intros x; by destruct (sameKey _ _ x) eqn:Hx; [rewrite <- Hx|]).
    cbn [fmap option_fmap option_map]. rewrite Hsame.
    unfold rowToRecord. cbn [Row.refresh_token_encrypted]. rewrite Hdec. cbn [rbind].
    rewrite Hstored. unfold toStored. cbn. by rewrite Hp, Ha.
Qed.

(** C3: [getDefaultToken(provider)] reports absent when the provider has no
    record, returns the sole record whatever its account name when it has
    exactly one, and with two or more returns the record named "default"
    if there is one and absent otherwise, never another record. *)
Theorem getDefaultToken_resolution env provider d :
  reachable env d →
  match filter (λ row, Row.provider row = provider) (connections d) with
  | [] => getDefaultToken env provider d = Ok None
  | [row] =>
      ∃ record, rowToRecord env row = Ok record ∧
                getDefaultToken env provider d = Ok (Some (toStored record))
  | rows =>
      (∀ row, row ∈ rows → Row.account row = "default" →
         ∃ record, rowToRecord env row = Ok record ∧
                   getDefaultToken env provider d = Ok (Some (toStored record))) ∧
      ((∀ row, row ∈ rows → Row.account row ≠ "default") →
         getDefaultToken env provider d = Ok None) ∧
      (∀ t, getDefaultToken env provider d = Ok (Some t) →
         StoredToken.account t = "default")
  end.
Proof.
  intros Hwf%reachable_wf. pose proof Hwf as [Hnd _].
  assert (Hfilter : filter (λ row, Row.provider row = provider) (connections d)
                    = List.filter (ofProvider provider) (connections d)).
  { rewrite filter_bool. apply list_filter_iff. intros row.
    symmetry. apply ofProvider_spec. }
  rewrite Hfilter. unfold getDefaultToken.
  pose proof (merge_sort_Permutation accountLe
                (List.filter (ofProvider provider) (connections d))) as Hperm.
  assert (Hsub : ∀ r, r ∈ List.filter (ofProvider provider) (connections d) →
                      r ∈ connections d).
  { intros r. rewrite filter_bool. by intros [_ ?]%list_elem_of_filter. }
  destruct (List.filter (ofProvider provider) (connections d)) as [|r1 [|r2 rest]] eqn:Hrows.
  - apply Permutation_nil_r in Hperm. by rewrite Hperm.
  - apply Permutation_singleton_r in Hperm. rewrite Hperm.
    destruct (wf_rowToRecord env d r1 Hwf) as [record Hrec]; [apply Hsub; by left|].
    exists record. by rewrite Hrec.
  - destruct (merge_sort accountLe (r1 :: r2 :: rest)) as [|s1 [|s2 srest]] eqn:Hsorted;
      [by apply Permutation_length in Hperm..|].
    rewrite <- Hrows in Hperm. split_and!.
    + intros row Hin Hacc.
      destruct (wf_rowToRecord env d row Hwf) as [record Hrec]; [by apply Hsub|].
      exists record. split; [done|].
      rewrite (find_default_unique provider d _ row), Hrec; [done..| |done].
      by rewrite Hperm, Hrows.
    + intros Hno. rewrite find_default_none; [done|].
      intros row Hin. apply Hno. by rewrite <- Hrows, <- Hperm.
    + intros t. destruct (find _ _) as [row|] eqn:Hfind; [|done].
      apply find_some in Hfind as [_ Hacc%String.eqb_eq].
      destruct (rowToRecord env row) as [record|] eqn:Hrec; [|done].
      intros [= <-]. apply rowToRecord_fields in Hrec as [_ ->]. done.
Qed.

End StoreFacts.

Lemma fixture_personalAndDefault_reachable :
  Store.reachable (H := vigenere) Fixture.env Fixture.personalAndDefault.
Proof.
  apply Store.reach_storeToken with
    (d := Fixture.onePersonal) (iv := Fixture.iv) (now := 1001)
    (params := StoreParams.mk "oura" "default" (js "refresh-2") None None None);
    [|reflexivity|by vm_compute].
  apply Store.reach_storeToken with
    (d := Store.empty) (iv := Fixture.iv) (now := 1000)
    (params := StoreParams.mk "oura" "personal" (js "refresh") None None None);
    [|reflexivity|by vm_compute].
  constructor.
Qed.

Lemma getDefaultToken_resolution_witness :
  Store.reachable (H := vigenere) Fixture.env Fixture.personalAndDefault ∧
  ∃ t, Store.getDefaultToken (H := vigenere) Fixture.env "oura" Fixture.personalAndDefault
       = Ok (Some t) ∧ StoredToken.account t = "default".
Proof.
  split; [apply fixture_personalAndDefault_reachable|].
  pose proof (getDefaultToken_resolution vigenere_laws Fixture.env "oura"
                Fixture.personalAndDefault fixture_personalAndDefault_reachable) as H.
  remember (filter _ _) as rows eqn:Hrows in H. vm_compute in Hrows. subst rows.
  destruct H as (Hdefault & _ & Honly).
  edestruct Hdefault as (record & Hrec & Hget); [right; left| |].
  - reflexivity.
  - eexists. split; [exact Hget|]. by eapply Honly.
Defined.

(** ** The cipher round trip *)

(** C4, as far as it holds: for every plaintext that is well-formed UTF-16
    (every surrogate paired), every 12-byte nonce and every environment
    whose key is 32 bytes, [encrypt] succeeds and [decrypt] gives the
    plaintext back. *)
Theorem decrypt_encrypt_well_formed `{G : AesGcm} (laws : AesGcmLaws G)
    (env : option string) (key iv : list byte) (p : jsstring) :
  Crypto.getKey env = Ok key → length key = 32%nat → length iv = 12%nat →
  Utf8.wellFormed p = true →
  ∃ stored, Crypto.encrypt env iv p = Ok stored ∧ Crypto.decrypt env stored = Ok p.
Proof.
  intros Hkey Hlen Hiv Hwf.
  destruct (decrypt_encrypt_utf8 laws env key iv p Hkey Hlen Hiv) as (stored & He & Hd).
  exists stored. split; [done|]. by rewrite Hd, decode_encode.
Qed.

(** The unicode sample of the test suite:
    'token-éèê-你好-🔒'. *)
Lemma decrypt_encrypt_well_formed_witness :
  let p := js "token-" ++ [0xE9; 0xE8; 0xEA] ++ js "-" ++ [0x4F60; 0x597D] ++ js "-"
           ++ [0xD83D; 0xDD12] in
  ∃ stored, Crypto.encrypt (H := vigenere) Fixture.env Fixture.iv p = Ok stored ∧
            Crypto.decrypt (H := vigenere) Fixture.env stored = Ok p.
Proof.
  apply (decrypt_encrypt_well_formed vigenere_laws Fixture.env (replicate 32 x00) Fixture.iv);
    reflexivity.
Defined.

(** C4 as stated fails: a plaintext holding an unpaired surrogate comes
    back as U+FFFD, under any cipher that satisfies the interface. *)
Lemma decrypt_encrypt_lone_surrogate :
  ¬ (∀ (G : AesGcm) (laws : AesGcmLaws G) env key iv p stored,
       Crypto.getKey env = Ok key → length key = 32%nat → length iv = 12%nat →
       Crypto.encrypt env iv p = Ok stored → Crypto.decrypt env stored = Ok p).
Proof.
  intros Hclaim.
  destruct (decrypt_encrypt_utf8 vigenere_laws Fixture.env (replicate 32 x00) Fixture.iv
              [0xD800] eq_refl eq_refl eq_refl) as (stored & He & Hd).
  specialize (Hclaim vigenere vigenere_laws Fixture.env (replicate 32 x00) Fixture.iv
                [0xD800] stored eq_refl eq_refl eq_refl He).
  rewrite Hd in Hclaim. discriminate Hclaim.
Qed.

(** ** The format check of [decrypt] *)

(** C8, as far as it holds: under a readable key, [decrypt] reports the
    format error exactly when the envelope does not start with two
    non-empty colon-free segments, [a:b] or [a:b:...]; it looks at no third
    segment and does not check that the segments are hex. *)
Theorem decrypt_format_error `{G : AesGcm} (env : option string) (key : list byte)
    (stored : string) :
  Crypto.getKey env = Ok key →
  Crypto.decrypt env stored = Err FormatError ↔ ¬ startsWithTwoSegments stored.
Proof.
  intros Hkey. rewrite (decrypt_format_error_split env key stored Hkey).
  rewrite startsWithTwoSegments_split.
  destruct (Crypto.truthy (Crypto.split ":" stored !! 0%nat)),
           (Crypto.truthy (Crypto.split ":" stored !! 1%nat));
    intuition discriminate.
Qed.

Lemma decrypt_format_error_witness :
  Crypto.decrypt (H := vigenere) Fixture.env "no-colon" = Err FormatError ↔
  ¬ startsWithTwoSegments "no-colon".
Proof.
  apply (decrypt_format_error Fixture.env (replicate 32 x00)). reflexivity.
Defined.

(** What the stand-in cipher makes of a third segment and of segments that
    are not hex: a failure inside the cipher. *)
Example decrypt_three_segments :
  Crypto.decrypt (H := vigenere) Fixture.env "aa:bb:cc" = Err CipherError ∧
  Crypto.decrypt (H := vigenere) Fixture.env "zz:yy" = Err CipherError.
Proof. by vm_compute. Qed.

(** C8 as stated fails: [decrypt] does not report the format error for
    every string that is not two non-empty hex segments; "aa:bb:cc" has
    three segments and passes the format check, whatever the cipher. *)
Lemma decrypt_three_segments_no_format_error :
  ¬ (∀ (G : AesGcm) env key stored,
       Crypto.getKey env = Ok key →
       Crypto.decrypt env stored = Err FormatError ↔
       EnvelopeSpec.twoHexSegments stored = false).
Proof.
  intros Hclaim.
  specialize (Hclaim vigenere Fixture.env (replicate 32 x00) "aa:bb:cc" eq_refl).
  assert (Hformat : Crypto.decrypt (H := vigenere) Fixture.env "aa:bb:cc" = Err FormatError)
    by (by apply Hclaim).
  apply (decrypt_format_error_split Fixture.env (replicate 32 x00)) in Hformat; [|done].
  by destruct Hformat.
Qed.

(** ** Upsert and partial update on the fixture (oura, daniel) *)

Lemma upsert_keeps_createdAt_witness :
  let before := StoredToken.mk "oura" "daniel" (js "r1") (Some "a1") (Some 4900) None 1000 1000 in
  let params := StoreParams.mk "oura" "daniel" (js "r2") (Some "a2") (Some 9000) (Some "daily") in
  Store.getToken (H := vigenere) Fixture.env "oura" "daniel" Fixture.expired = Ok (Some before) ∧
  (∃ d',
     Store.storeToken (H := vigenere) Fixture.env Fixture.iv 2000 params Fixture.expired = Ok d' ∧
     Store.getToken (H := vigenere) Fixture.env "oura" "daniel" d'
     = Ok (Some (StoredToken.mk "oura" "daniel" (js "r2") (Some "a2") (Some 9000)
                   (Some "daily") 1000 2000))) ∧
  Store.getToken (H := vigenere) Fixture.env "oura" "daniel"
    (Store.updateAccessToken 2000 "oura" "daniel" "a3" 8000 Fixture.expired)
  = Ok (Some (StoredToken.mk "oura" "daniel" (js "r1") (Some "a3") (Some 8000) None 1000 2000)).
Proof.
  split; [by vm_compute|].
  apply (upsert_keeps_createdAt vigenere_laws Fixture.env Fixture.iv 2000
           (StoreParams.mk "oura" "daniel" (js "r2") (Some "a2") (Some 9000) (Some "daily"))
           "a3" 8000 Fixture.expired
           (StoredToken.mk "oura" "daniel" (js "r1") (Some "a1") (Some 4900) None 1000 1000)).
  - reflexivity.
  - by vm_compute.
Defined.

(** ** OAuth handshake states *)

(** C5 as stated fails: a state saved at time 0 is still consumed, with
    its binding, at any later time; [consumeOAuthState] reads no clock. *)
Lemma consumeOAuthState_ignores_age :
  let d := Store.saveOAuthState 0 "old-state" "oura" "daniel" Store.empty in
  (∃ row, Store.oauth_states d !! "old-state" = Some row ∧
          660 - StateRow.created_at row > 600) ∧
  (Store.consumeOAuthState "old-state" d).1 = Some ("oura", "daniel").
Proof.
  cbv zeta. split; [|by vm_compute].
  eexists. split; [by vm_compute|]. cbn. lia.
Qed.

(** C5, as far as it holds: a state that is present is consumed with its
    binding whatever its age; once [cleanOAuthStates] has run at time
    [now], a state created before [now - 600] is gone and consuming it
    yields nothing, while a younger one is still consumed. *)
Theorem oauth_state_expires_when_swept (d : Store.db) (state : string)
    (row : StateRow.t) (now : Z) :
  Store.oauth_states d !! state = Some row →
  (Store.consumeOAuthState state d).1
  = Some (StateRow.provider row, StateRow.account row) ∧
  (Store.consumeOAuthState state (Store.cleanOAuthStates now d)).1
  = if decide (StateRow.created_at row < now - 600) then None
    else Some (StateRow.provider row, StateRow.account row).
Proof.
  intros Hrow. unfold Store.consumeOAuthState. rewrite Hrow. split; [done|].
  cbn [Store.cleanOAuthStates Store.oauth_states].
  case_decide as Hage.
  - rewrite (map_lookup_filter_None_2 _ (Store.oauth_states d) state); [done|].
    right. intros row' Hrow'. cbn. rewrite Hrow in Hrow'. injection Hrow' as <-. tauto.
  - by rewrite (map_lookup_filter_Some_2 _ (Store.oauth_states d) state row).
Qed.

Lemma oauth_state_expires_when_swept_witness :
  let d := Store.saveOAuthState 0 "old-state" "oura" "daniel" Store.empty in
  (Store.consumeOAuthState "old-state" d).1 = Some ("oura", "daniel") ∧
  (Store.consumeOAuthState "old-state" (Store.cleanOAuthStates 660 d)).1 = None.
Proof.
  apply (oauth_state_expires_when_swept
           (Store.saveOAuthState 0 "old-state" "oura" "daniel" Store.empty)
           "old-state" (StateRow.mk "oura" "daniel" 0) 660).
  by vm_compute.
Defined.

(** ** The callback route *)

Lemma auth_truthy_Some (o : option string) :
  Auth.truthy o = true → ∃ s, o = Some s ∧ s ≠ EmptyString.
Proof.
  destruct o as [s|]; [|done]. cbn. intros Hs%negb_true_iff%String.eqb_neq. by eauto.
Qed.

(** C10: a callback for provider q with a state that was saved for another
    provider p is answered with the invalid-state error and still deletes
    the state, leaving the connections alone; any later callback with that
    state, also one for p, gets the same error and changes nothing. *)
Theorem callback_mismatch_consumes_state `{G : AesGcm} (env : option string)
    (w : Auth.World) (req : Auth.CallbackRequest) (d : Store.db)
    (st : string) (row : StateRow.t) :
  Auth.truthy (Auth.error req) = false →
  Auth.truthy (Auth.code req) = true →
  Auth.state req = Some st → st ≠ EmptyString →
  Store.oauth_states d !! st = Some row →
  StateRow.provider row ≠ Auth.provider req →
  let d1 := (Auth.callback env w req d).1 in
  (Auth.callback env w req d).2 = Auth.Replied Auth.invalidState ∧
  Store.oauth_states d1 !! st = None ∧
  Store.connections d1 = Store.connections d ∧
  ∀ w' req',
    Auth.truthy (Auth.error req') = false →
    Auth.truthy (Auth.code req') = true →
    Auth.state req' = Some st →
    Auth.callback env w' req' d1 = (d1, Auth.Replied Auth.invalidState).
Proof.
  intros Herr Hcode Hst Hne Hrow Hmis.
  assert (Htruthy : Auth.truthy (Some st) = true)
    by (by apply negb_true_iff, String.eqb_neq).
  assert (Hfirst : Auth.callback env w req d
                   = (Store.mkDb (Store.connections d) (delete st (Store.oauth_states d)),
                      Auth.Replied Auth.invalidState)).
  { unfold Auth.callback. rewrite Herr, Hcode, Hst, Htruthy.
    cbn [negb orb default from_option]. unfold id, Store.consumeOAuthState. rewrite Hrow.
    apply String.eqb_neq in Hmis. by rewrite Hmis. }
  cbv zeta. rewrite Hfirst. cbn [fst snd Store.oauth_states Store.connections].
  split_and!; [done|apply lookup_delete_eq|done|].
  intros w' req' Herr' Hcode' Hst'.
  unfold Auth.callback. rewrite Herr', Hcode', Hst', Htruthy.
  cbn [negb orb default from_option]. unfold id, Store.consumeOAuthState.
  cbn [Store.oauth_states]. by rewrite lookup_delete_eq.
Qed.

Lemma callback_mismatch_consumes_state_witness :
  let d := Store.saveOAuthState 0 "test-state" "gcal" "default" Fixture.expired in
  let w := Auth.mkWorld Fixture.registry Proxy.TokenFetchRejected 10 Fixture.iv 10 in
  let req := Auth.mkCallback "oura" (Some "test-code") (Some "test-state") None in
  let d1 := (Auth.callback (H := vigenere) Fixture.env w req d).1 in
  (Auth.callback (H := vigenere) Fixture.env w req d).2 = Auth.Replied Auth.invalidState ∧
  Store.oauth_states d1 !! "test-state" = None ∧
  Store.connections d1 = Store.connections d ∧
  ∀ w' req',
    Auth.truthy (Auth.error req') = false →
    Auth.truthy (Auth.code req') = true →
    Auth.state req' = Some "test-state" →
    Auth.callback (H := vigenere) Fixture.env w' req' d1 = (d1, Auth.Replied Auth.invalidState).
Proof.
  apply (callback_mismatch_consumes_state (G := vigenere) Fixture.env
           (Auth.mkWorld Fixture.registry Proxy.TokenFetchRejected 10 Fixture.iv 10)
           (Auth.mkCallback "oura" (Some "test-code") (Some "test-state") None)
           (Store.saveOAuthState 0 "test-state" "gcal" "default" Fixture.expired)
           "test-state" (StateRow.mk "gcal" "default" 0));
    try reflexivity; try discriminate.
Defined.

(** ** proxy.ts *)

Section ProxyFacts.
Import Proxy.
Context `{G : AesGcm}.

Lemma truthy_false (o : option string) :
  truthy o = false ↔ o = None ∨ o = Some EmptyString.
Proof.
  destruct o as [s|]; cbn; [|by intuition].
  rewrite negb_false_iff, String.eqb_eq. split; [intros ->; by right|].
  by intros [|[= ->]].
Qed.

(** The refresh condition, spelled out. *)
Lemma shouldRefresh_spec (t : StoredToken.t) (now : Z) :
  shouldRefresh t now = true ↔
  StoredToken.accessToken t = None ∨
  StoredToken.accessToken t = Some EmptyString ∨
  ∃ expiresAt, StoredToken.expiresAt t = Some expiresAt ∧ expiresAt - now < 300.
Proof.
  unfold shouldRefresh. rewrite orb_true_iff, negb_true_iff, truthy_false.
  destruct (StoredToken.expiresAt t) as [e|].
  - rewrite Z.ltb_lt. split; [intros [[|]|]; by eauto|].
    intros [|[|(e' & [= <-] & ?)]]; by eauto.
  - split; [intros [[|]|]; by eauto|].
    intros [|[|(e' & [=] & ?)]]; by eauto.
Qed.

(** The refresh exchange fails on a rejected fetch and on any answer that
    is not 2xx. *)
Lemma refreshAccessToken_fails (w : World) :
  tokenEndpoint w = TokenFetchRejected ∨
  (∃ status json, tokenEndpoint w = TokenHttp status json ∧ ok status = false) →
  ∃ e, refreshAccessToken w = Err e.
Proof.
  unfold refreshAccessToken. intros [->|(status & json & -> & ->)]; by eexists.
Qed.

(** What the copying loop leaves under each name. *)
Lemma copied_lookup (hs : gmap string Value) (k : string) :
  map_fold copyHeader ∅ hs !! k
  = if bool_decide (Text.toLowerCase k ∈ HOP_BY_HOP_HEADERS) then None
    else hs !! k ≫= headerText.
Proof.
  revert k. apply (map_fold_weak_ind (λ r m, ∀ k,
    r !! k = if bool_decide (Text.toLowerCase k ∈ HOP_BY_HOP_HEADERS) then None
             else m !! k ≫= headerText)).
  - intros k. rewrite !lookup_empty. by case_bool_decide.
  - intros i x m r Hi IH k. unfold copyHeader.
    destruct (decide (k = i)) as [->|Hne].
    + rewrite lookup_insert_eq. cbn [mbind option_bind].
      case_bool_decide as Hhop.
      * rewrite IH. by rewrite bool_decide_eq_true_2.
      * destruct (headerText x); [by rewrite lookup_insert_eq|].
        rewrite IH, Hi. by case_bool_decide.
    + rewrite (lookup_insert_ne m) by done.
      case_bool_decide; [by apply IH|].
      destruct (headerText x); [|by apply IH].
      rewrite lookup_insert_ne by done. by apply IH.
Qed.

Lemma buildForwardHeaders_lookup (hs : gmap string Value) (accessToken : option string)
    (k : string) :
  buildForwardHeaders hs accessToken !! k
  = if decide (k = "authorization") then Some ("Bearer " +:+ Text.template accessToken)
    else if bool_decide (Text.toLowerCase k ∈ HOP_BY_HOP_HEADERS) then None
    else hs !! k ≫= headerText.
Proof.
  unfold buildForwardHeaders. case_decide as Hk.
  - subst k. by rewrite lookup_insert_eq.
  - rewrite lookup_insert_ne by done. apply copied_lookup.
Qed.

(** The forwarded headers as one map: the inbound headers without the
    excluded names, each value as text, and [authorization] set on top. *)
Lemma buildForwardHeaders_eq (hs : gmap string Value) (accessToken : option string) :
  buildForwardHeaders hs accessToken
  = <["authorization" := "Bearer " +:+ Text.template accessToken]>
      (omap headerText
         (filter (λ kv, Text.toLowerCase kv.1 ∉ HOP_BY_HOP_HEADERS) hs)).
Proof.
  apply map_eq. intros k. rewrite buildForwardHeaders_lookup.
  case_decide as Hk; [subst k; by rewrite lookup_insert_eq|].
  rewrite lookup_insert_ne, lookup_omap, map_lookup_filter by done.
  destruct (hs !! k) as [v|]; cbn; [|by case_bool_decide].
  case_bool_decide as Hhop.
  - by rewrite option_guard_False by (cbn; tauto).
  - by rewrite option_guard_True.
Qed.

(** What steps 4 to 8 do to the outside: one upstream call, carrying the
    forwarded headers, and at most a log line after it. *)
Lemma forward_effects (w : World) (req : Request) (providerCfg : ProviderConfig.t)
    (tokenRecord : StoredToken.t) :
  ∃ url sent tail,
    (forward w req providerCfg tokenRecord).1
    = UpstreamFetch url (method req)
        (buildForwardHeaders (headers req) (StoredToken.accessToken tokenRecord)) sent
      :: tail ∧
    ∀ e, e ∈ tail → ∃ message, e = LogError message.
Proof.
  unfold forward. cbv zeta.
  destruct (upstream w); cbn [fst]; do 3 eexists; (split; [reflexivity|]).
  - intros e ->%list_elem_of_singleton. by eexists.
  - by intros e ?%elem_of_nil.
Qed.

(** The three shapes a run of the handler has once the provider is known
    and a record is resolved. *)
Lemma handle_resolved env w req d providerCfg tokenRecord account :
  getProvider w (provider req) = Some providerCfg →
  loadToken env req d = Ok (Some tokenRecord, account) →
  let call :=
    TokenFetch (ProviderConfig.token_url providerCfg) (ProviderConfig.client_id providerCfg)
      (ProviderConfig.client_secret providerCfg) (StoredToken.refreshToken tokenRecord) in
  if shouldRefresh tokenRecord (nowSec w) then
    match refreshAccessToken w with
    | Err _ =>
        handle env w req d
        = ([call; LogError "Token refresh failed in proxy"], d,
           Replied (tokenRefreshFailed (provider req) account))
    | Ok (accessToken, expiresAt) =>
        ∃ tokenRecord',
          StoredToken.accessToken tokenRecord' = Some accessToken ∧
          handle env w req d
          = (call :: (forward w req providerCfg tokenRecord').1,
             Store.updateAccessToken (nowWritten w) (provider req) account accessToken
               expiresAt d,
             (forward w req providerCfg tokenRecord').2)
    end
  else
    handle env w req d
    = ((forward w req providerCfg tokenRecord).1, d, (forward w req providerCfg tokenRecord).2).
Proof.
  intros Hprov Hload. unfold handle. rewrite Hprov, Hload. cbv zeta.
  destruct (shouldRefresh tokenRecord (nowSec w)).
  - destruct (refreshAccessToken w) as [[accessToken expiresAt]|e]; [|done].
    exists (StoredToken.mk (StoredToken.provider tokenRecord)
              (StoredToken.account tokenRecord) (StoredToken.refreshToken tokenRecord)
              (Some accessToken) (Some expiresAt) (StoredToken.scopes tokenRecord)
              (StoredToken.createdAt tokenRecord) (StoredToken.updatedAt tokenRecord)).
    split; [done|]. by destruct (forward _ _ _ _).
  - by destruct (forward _ _ _ _).
Qed.

(** C1: when the refresh that the proxy path triggers for a resolved record
    fails, by a rejected fetch or an answer that is not 2xx, the handler
    replies 401 TokenRefreshFailed, leaves the database exactly as it was
    and makes no upstream call. *)
Theorem refresh_failure_leaves_store env w req d providerCfg tokenRecord account :
  getProvider w (provider req) = Some providerCfg →
  loadToken env req d = Ok (Some tokenRecord, account) →
  shouldRefresh tokenRecord (nowSec w) = true →
  (tokenEndpoint w = TokenFetchRejected ∨
   ∃ status json, tokenEndpoint w = TokenHttp status json ∧ ok status = false) →
  ∃ effects message,
    handle env w req d
    = (effects, d, Replied (mkReply 401 [] (ErrorJson "TokenRefreshFailed" message))) ∧
    (∀ url m hs b, UpstreamFetch url m hs b ∉ effects) ∧
    loadToken env req (handle env w req d).1.2 = Ok (Some tokenRecord, account).
Proof.
  intros Hprov Hload Hshould Hfail.
  pose proof (handle_resolved env w req d providerCfg tokenRecord account Hprov Hload) as H.
  cbv zeta in H. rewrite Hshould in H.
  destruct (refreshAccessToken_fails w Hfail) as [e He]. rewrite He in H.
  do 2 eexists. rewrite H. split_and!; [reflexivity| |done].
  intros url m hs b [|[|?%elem_of_nil]%elem_of_cons]%elem_of_cons; done.
Qed.

(** C2, as far as it holds: for a resolved record the proxy path calls
    the token endpoint exactly when the access token is absent or the
    empty string, or the expiry is set and less than 300 seconds away; so
    it does for an expiry of now + 100 and for an absent access token, and
    does not for a non-empty access token that expires at now + 3600. *)
Theorem refresh_trigger env w req d providerCfg tokenRecord account :
  getProvider w (provider req) = Some providerCfg →
  loadToken env req d = Ok (Some tokenRecord, account) →
  (performsRefresh (handle env w req d).1.1 ↔
   StoredToken.accessToken tokenRecord = None ∨
   StoredToken.accessToken tokenRecord = Some EmptyString ∨
   ∃ expiresAt, StoredToken.expiresAt tokenRecord = Some expiresAt ∧
                expiresAt - nowSec w < 300) ∧
  (StoredToken.expiresAt tokenRecord = Some (nowSec w + 100) →
   performsRefresh (handle env w req d).1.1) ∧
  (StoredToken.accessToken tokenRecord = None →
   performsRefresh (handle env w req d).1.1) ∧
  (∀ accessToken,
     StoredToken.accessToken tokenRecord = Some accessToken → accessToken ≠ EmptyString →
     StoredToken.expiresAt tokenRecord = Some (nowSec w + 3600) →
     ¬ performsRefresh (handle env w req d).1.1).
Proof.
  intros Hprov Hload.
  assert (Hiff : performsRefresh (handle env w req d).1.1 ↔
                 shouldRefresh tokenRecord (nowSec w) = true).
  { pose proof (handle_resolved env w req d providerCfg tokenRecord account Hprov Hload) as H.
    cbv zeta in H. unfold performsRefresh.
    destruct (shouldRefresh tokenRecord (nowSec w)).
    - split; [done|intros _]. do 4 eexists.
      destruct (refreshAccessToken w) as [[accessToken expiresAt]|e].
      + destruct H as (t' & _ & ->). cbn [fst]. by left.
      + rewrite H. cbn [fst]. by left.
    - split; [|done]. intros (u & i & c & r & Hin). rewrite H in Hin. cbn [fst] in Hin.
      destruct (forward_effects w req providerCfg tokenRecord)
        as (url & sent & tail & Heff & Htail).
      rewrite Heff in Hin. apply elem_of_cons in Hin as [|Hin]; [done|].
      by destruct (Htail _ Hin). }
  split_and!.
  - by rewrite Hiff, shouldRefresh_spec.
  - intros He. apply Hiff, shouldRefresh_spec. right; right.
    exists (nowSec w + 100). split; [done|lia].
  - intros Ha. apply Hiff, shouldRefresh_spec. by left.
  - intros accessToken Ha Hne He Hrefresh.
    apply Hiff, shouldRefresh_spec in Hrefresh
      as [Hnone|[Hempty|(e & He' & Hlt)]]; [congruence..|].
    rewrite He in He'. injection He' as <-. lia.
Qed.

(** C7: the headers of the upstream call are the inbound headers without
    those whose lower-case name is in the exclusion set (a list of values
    joined by ', '), with [authorization] then set to the bearer of the
    resolved record's access token, the refreshed one after a refresh; no
    name that reads [authorization] in any case carries anything else, so
    the caller's credential is never forwarded. *)
Theorem forwarded_headers env w req d url m hs b :
  UpstreamFetch url m hs b ∈ (handle env w req d).1.1 →
  ∃ tokenRecord account accessToken,
    loadToken env req d = Ok (Some tokenRecord, account) ∧
    (if shouldRefresh tokenRecord (nowSec w)
     then ∃ expiresAt, refreshAccessToken w = Ok (accessToken, expiresAt)
     else StoredToken.accessToken tokenRecord = Some accessToken) ∧
    hs = <["authorization" := "Bearer " +:+ accessToken]>
           (omap headerText
              (filter (λ kv, Text.toLowerCase kv.1 ∉ HOP_BY_HOP_HEADERS) (headers req))) ∧
    (∀ k v, Text.toLowerCase k = "authorization" → hs !! k = Some v →
       k = "authorization" ∧ v = "Bearer " +:+ accessToken).
Proof.
  intros Hin.
  assert (Hshape : ∃ providerCfg tokenRecord account,
             getProvider w (provider req) = Some providerCfg ∧
             loadToken env req d = Ok (Some tokenRecord, account)).
  { unfold handle in Hin.
    destruct (getProvider w (provider req)) as [providerCfg|]; [|by apply elem_of_nil in Hin].
    destruct (loadToken env req d) as [[[tokenRecord|] account]|e];
      [by eauto|by apply elem_of_nil in Hin..]. }
  destruct Hshape as (providerCfg & tokenRecord & account & Hprov & Hload).
  pose proof (handle_resolved env w req d providerCfg tokenRecord account Hprov Hload) as H.
  cbv zeta in H.
  assert (Hcall : ∃ accessToken,
            (if shouldRefresh tokenRecord (nowSec w)
             then ∃ expiresAt, refreshAccessToken w = Ok (accessToken, expiresAt)
             else StoredToken.accessToken tokenRecord = Some accessToken) ∧
            hs = buildForwardHeaders (headers req) (Some accessToken)).
  { destruct (shouldRefresh tokenRecord (nowSec w)) eqn:Hshould.
    - destruct (refreshAccessToken w) as [[accessToken expiresAt]|e].
      + destruct H as (t' & Ht' & H). rewrite H in Hin. cbn [fst] in Hin.
        apply elem_of_cons in Hin as [|Hin]; [done|].
        destruct (forward_effects w req providerCfg t') as (u & s & tail & Heff & Htail).
        rewrite Heff, Ht' in Hin. apply elem_of_cons in Hin as [[= _ _ -> _]|Hin].
        * exists accessToken. by eauto.
        * by destruct (Htail _ Hin).
      + rewrite H in Hin. cbn [fst] in Hin.
        apply elem_of_cons in Hin as [|[|?%elem_of_nil]%elem_of_cons]; done.
    - rewrite H in Hin. cbn [fst] in Hin.
      destruct (forward_effects w req providerCfg tokenRecord) as (u & s & tail & Heff & Htail).
      rewrite Heff in Hin.
      assert (∃ accessToken, StoredToken.accessToken tokenRecord = Some accessToken)
        as [accessToken Ha].
      { unfold shouldRefresh in Hshould. apply orb_false_elim in Hshould as [Ht _].
        destruct (StoredToken.accessToken tokenRecord); [by eauto|done]. }
      rewrite Ha in Hin. apply elem_of_cons in Hin as [[= _ _ -> _]|Hin].
      + exists accessToken. by eauto.
      + by destruct (Htail _ Hin). }
  destruct Hcall as (accessToken & Hfresh & ->).
  exists tokenRecord, account, accessToken. split_and!; [done..| |].
  - apply buildForwardHeaders_eq.
  - intros k v Hlow. rewrite buildForwardHeaders_lookup. case_decide as Hk.
    + by intros [= <-].
    + rewrite bool_decide_eq_true_2; [done|]. rewrite Hlow.
      unfold HOP_BY_HOP_HEADERS. set_solver.
Qed.

End ProxyFacts.

(** ** The proxy route on the fixtures *)

(** The end-to-end scenario of the specification: the token endpoint
    answers 400, the stored record keeps its old access token. *)
Lemma refresh_failure_leaves_store_witness :
  ∃ effects message,
    Proxy.handle (H := vigenere) Fixture.env (Fixture.world (Proxy.TokenHttp 400 None))
      Fixture.request Fixture.expired
    = (effects, Fixture.expired,
       Proxy.Replied (Proxy.mkReply 401 [] (Proxy.ErrorJson "TokenRefreshFailed" message))) ∧
    (∀ url m hs b, Proxy.UpstreamFetch url m hs b ∉ effects) ∧
    Proxy.loadToken (H := vigenere) Fixture.env Fixture.request
      (Proxy.handle (H := vigenere) Fixture.env (Fixture.world (Proxy.TokenHttp 400 None))
         Fixture.request Fixture.expired).1.2
    = Ok (Some (StoredToken.mk "oura" "daniel" (js "r1") (Some "a1") (Some 4900) None 1000 1000),
          "daniel").
Proof.
  apply (refresh_failure_leaves_store (G := vigenere) Fixture.env
           (Fixture.world (Proxy.TokenHttp 400 None)) Fixture.request Fixture.expired
           Fixture.oura).
  - by vm_compute.
  - by vm_compute.
  - by vm_compute.
  - right. exists 400, None. split; reflexivity.
Defined.

Lemma refresh_trigger_witness :
  Proxy.performsRefresh
    (Proxy.handle (H := vigenere) Fixture.env (Fixture.world Proxy.TokenFetchRejected)
       Fixture.request Fixture.expired).1.1.
Proof.
  assert (Hprov : Proxy.getProvider (Fixture.world Proxy.TokenFetchRejected)
                     (Proxy.provider Fixture.request) = Some Fixture.oura)
    by (by vm_compute).
  assert (Hload : Proxy.loadToken (H := vigenere) Fixture.env Fixture.request Fixture.expired
                  = Ok (Some (StoredToken.mk "oura" "daniel" (js "r1") (Some "a1") (Some 4900)
                                None 1000 1000), "daniel"))
    by (by vm_compute).
  destruct (refresh_trigger (G := vigenere) Fixture.env
              (Fixture.world Proxy.TokenFetchRejected) Fixture.request Fixture.expired
              Fixture.oura _ _ Hprov Hload) as (Hiff & _).
  apply Hiff. right; right. exists 4900. split; [reflexivity|]. cbn. lia.
Defined.

(** C2 as stated fails: a record whose access token is the empty string,
    which is not absent, and whose expiry is null is refreshed all the
    same. *)
Lemma empty_access_token_refreshes :
  ∃ tokenRecord,
    Proxy.loadToken (H := vigenere) Fixture.env Fixture.request Fixture.emptyAccess
    = Ok (Some tokenRecord, "daniel") ∧
    StoredToken.accessToken tokenRecord = Some EmptyString ∧
    StoredToken.expiresAt tokenRecord = None ∧
    Proxy.performsRefresh
      (Proxy.handle (H := vigenere) Fixture.env (Fixture.world Proxy.TokenFetchRejected)
         Fixture.request Fixture.emptyAccess).1.1.
Proof.
  eexists. split; [by vm_compute|]. split_and!; [done..|].
  remember (Proxy.handle _ _ _ _) as run eqn:Hrun. vm_compute in Hrun. subst run.
  do 4 eexists. cbn [fst]. by left.
Qed.

(** The request of the fixture against a token that is still good: the
    caller's [authorization] and [host] are dropped, [accept] goes through,
    and the stored access token is the bearer. *)
Lemma forwarded_headers_witness :
  ∃ tokenRecord account accessToken,
    Proxy.loadToken (H := vigenere) Fixture.env Fixture.request Fixture.fresh
    = Ok (Some tokenRecord, account) ∧
    ({[ "accept" := "application/json"; "authorization" := "Bearer a1" ]} : gmap string string)
    = <["authorization" := "Bearer " +:+ accessToken]>
        (omap Proxy.headerText
           (filter (λ kv, Text.toLowerCase kv.1 ∉ Proxy.HOP_BY_HOP_HEADERS)
                   (Proxy.headers Fixture.request))).
Proof.
  assert (Hin : Proxy.UpstreamFetch "https://api.ouraring.com/v2/usercollection/daily_sleep"
                  "GET" {[ "accept" := "application/json"; "authorization" := "Bearer a1" ]}
                  None
                ∈ (Proxy.handle (H := vigenere) Fixture.env
                     (Fixture.world Proxy.TokenFetchRejected) Fixture.request Fixture.fresh).1.1).
  { vm_compute. apply list_elem_of_here. }
  destruct (forwarded_headers (G := vigenere) Fixture.env
              (Fixture.world Proxy.TokenFetchRejected) Fixture.request Fixture.fresh _ _ _ _ Hin)
    as (tokenRecord & account & accessToken & Hload & _ & Heq & _).
  exists tokenRecord, account, accessToken. split; [exact Hload|exact Heq].
Defined.

(** ** refresh.ts *)

Section RefreshFacts.
Import Refresh.
Context `{G : AesGcm}.

(** A call of [runRefreshCycle] opens at most one cycle and closes none. *)
Lemma runRefreshCycle_cycles env registry now s :
  cycles (runRefreshCycle env registry now s) = cycles s ∨
  ∃ c, cycles (runRefreshCycle env registry now s) = cycles s ++ [c].
Proof.
  unfold runRefreshCycle.
  destruct (Store.getTokensNeedingRefresh _ _ _ _) as [tokens|e]; [|by left].
  destruct (advance registry tokens) as [c|]; [right; by exists c|by left].
Qed.

Lemma step_serialized_cycles env registry s ev :
  (length (cycles s) ≤ 1)%nat →
  match ev with
  | Tick _ | StartRefreshLoop _ => cycles s = []
  | _ => True
  end →
  (length (cycles (step env registry s ev)) ≤ 1)%nat.
Proof.
  intros Hlen Hev. destruct ev as [now|now|i resp nowRefreshed nowWritten|]; cbn [step].
  - destruct (timer s); [done|]. cbn [cycles].
    destruct (runRefreshCycle_cycles env registry now s) as [->|[c ->]];
      rewrite Hev; cbn; lia.
  - destruct (timer s); [|done].
    destruct (runRefreshCycle_cycles env registry now s) as [->|[c ->]];
      rewrite Hev; cbn; lia.
  - destruct (cycles s !! i) as [c|] eqn:Hc; [|done]. cbn [cycles].
    destruct (advance registry (remaining c)).
    + by rewrite length_insert.
    + rewrite length_delete by done. lia.
  - done.
Qed.

(** C9, as far as it holds: a second [startRefreshLoop] while the timer is
    set starts nothing, so there is one timer at most; a tick always calls
    [runRefreshCycle], whether or not a cycle is open; and in a run where
    every cycle starts with no other cycle open, at most one cycle is ever
    open. *)
Theorem cycles_serialized_by_timing env registry s evs now :
  (timer s = true → step env registry s (StartRefreshLoop now) = s) ∧
  (timer s = true →
   step env registry s (Tick now) = runRefreshCycle env registry now s) ∧
  ((length (cycles s) ≤ 1)%nat → serialized env registry s evs →
   (length (cycles (run env registry s evs)) ≤ 1)%nat).
Proof.
  split_and!.
  - cbn [step]. by intros ->.
  - cbn [step]. by intros ->.
  - revert s. induction evs as [|ev evs IH]; intros s Hlen Hser; [done|].
    destruct Hser as [Hev Hser]. cbn [run fold_left]. apply IH; [|done].
    by apply step_serialized_cycles.
Qed.

End RefreshFacts.

Lemma cycles_serialized_by_timing_witness :
  let evs := [Refresh.StartRefreshLoop 5000;
              Refresh.Settled 0 (Proxy.TokenHttp 200 (Some (Proxy.mkTokenJson "a2" None None None)))
                5001 5002;
              Refresh.Tick 5300] in
  (length (Refresh.cycles
             (Refresh.run (H := vigenere) Fixture.env Fixture.registry
                (Refresh.initial Fixture.expired) evs)) ≤ 1)%nat.
Proof.
  apply (cycles_serialized_by_timing (G := vigenere) Fixture.env Fixture.registry
           (Refresh.initial Fixture.expired) _ 0).
  - cbn. lia.
  - by vm_compute.
Defined.

(** C9 as stated fails: with the cycle that [startRefreshLoop] started
    still waiting for the token endpoint, the next tick is no no-op; it
    opens a second cycle, and both hold the record (oura, daniel). *)
Lemma tick_overlaps_open_cycle :
  let s1 := Refresh.run (H := vigenere) Fixture.env Fixture.registry
              (Refresh.initial Fixture.expired) [Refresh.StartRefreshLoop 5000] in
  let s2 := Refresh.step (H := vigenere) Fixture.env Fixture.registry s1 (Refresh.Tick 5300) in
  length (Refresh.cycles s1) = 1%nat ∧
  length (Refresh.cycles s2) = 2%nat ∧
  Refresh.holds "oura" "daniel" <$> Refresh.cycles s2 = [true; true].
Proof. by vm_compute. Qed.

(** * Further properties *)

(** ** crypto.ts: keys and envelopes *)

Section CryptoKeys.
Import Buffer Crypto.
Context `{G : AesGcm}.

Lemma getKey_Some hex :
  getKey (Some hex) = if decide (String.length hex = 64%nat) then Ok (fromHex hex)
                      else Err ConfigError.
Proof.
  unfold getKey. case_decide as Hlen.
  - rewrite Hlen. destruct hex; [done|]. done.
  - destruct (Z.eqb_spec (Z.of_nat (String.length hex)) 64); [lia|].
    by rewrite andb_false_r.
Qed.

(** X1: [encrypt] and [decrypt] report the configuration error exactly
    when ENCRYPTION_KEY is unset or is not 64 characters long, whatever
    they are given to work on. *)
Theorem config_error_iff env iv p stored :
  (encrypt env iv p = Err ConfigError ↔
   ∀ hex, env = Some hex → String.length hex ≠ 64%nat) ∧
  (decrypt env stored = Err ConfigError ↔
   ∀ hex, env = Some hex → String.length hex ≠ 64%nat).
Proof.
  unfold encrypt, decrypt. destruct env as [hex|]; [|by split; split].
  rewrite getKey_Some. case_decide as Hlen; cbn [rbind].
  - split; (split; [|intros Hno; by destruct (Hno hex)]).
    + unfold createCipher. by case_decide.
    + destruct (_ || _); [done|]. unfold createCipher. case_decide; [|done].
      cbn [rbind]. by destruct (open _ _ _ _).
  - split; (split; [|done]); by intros _ ? [= <-].
Qed.



Lemma toHex_length buf : String.length (toHex buf) = (2 * length buf)%nat.
Proof. induction buf as [|b buf IH]; [done|]. cbn [toHex String.length length]. lia. Qed.

Lemma allHex_toHex buf : EnvelopeSpec.allHex (toHex buf) = true.
Proof.
  induction buf as [|b buf IH]; [done|]. cbn [toHex EnvelopeSpec.allHex].
  destruct (hex_of_byte b) as (H1 & H2 & _ & _).
  rewrite !bool_decide_eq_true_2 by (by eexists). done.
Qed.

Lemma encrypt_Ok env iv p stored :
  encrypt env iv p = Ok stored →
  ∃ key, getKey env = Ok key ∧ length key = 32%nat ∧
         stored = toHex iv +:+ ":" +:+ toHex ((seal key iv (Utf8.encode p)).1
                                               ++ (seal key iv (Utf8.encode p)).2).
Proof.
  unfold encrypt. destruct (getKey env) as [key|]; [|done]. cbn [rbind].
  unfold createCipher. case_decide; [|done]. cbn [rbind]. intros [= <-]. by eauto.
Qed.

(** X3: an envelope made with a 12-byte nonce reads: the 24 hex digits of
    the nonce, a colon, and the hex digits of at least 16 bytes; it has
    exactly two segments, both hex. *)
Theorem encrypt_envelope_format (laws : AesGcmLaws G) env iv p stored :
  length iv = 12%nat →
  encrypt env iv p = Ok stored →
  ∃ data,
    stored = toHex iv +:+ ":" +:+ toHex data ∧
    String.length (toHex iv) = 24%nat ∧
    (16 ≤ length data)%nat ∧
    split ":" stored = [toHex iv; toHex data] ∧
    EnvelopeSpec.twoHexSegments stored = true.
Proof.
  intros Hiv (key & Hkey & Hlen & ->)%encrypt_Ok.
  pose proof (seal_tag_length laws key iv (Utf8.encode p)) as Htag.
  destruct (seal key iv (Utf8.encode p)) as [c tag]. cbn [fst snd] in *.
  exists (c ++ tag). split_and!; [done| | |apply split_envelope|].
  - rewrite toHex_length. lia.
  - rewrite length_app. lia.
  - unfold EnvelopeSpec.twoHexSegments, EnvelopeSpec.hexSegment.
    rewrite split_envelope, !allHex_toHex, !andb_true_r.
    destruct iv as [|i iv]; [done|]. destruct tag as [|t tag]; [done|].
    by destruct c.
Qed.

(** X4: two envelopes made with different nonces differ, whatever the
    plaintexts are. *)
Theorem envelopes_differ_by_nonce env iv1 iv2 p1 p2 stored1 stored2 :
  encrypt env iv1 p1 = Ok stored1 →
  encrypt env iv2 p2 = Ok stored2 →
  iv1 ≠ iv2 → stored1 ≠ stored2.
Proof.
  intros (key1 & _ & _ & ->)%encrypt_Ok (key2 & _ & _ & ->)%encrypt_Ok Hne Heq.
  apply (f_equal (split ":")) in Heq. rewrite !split_envelope in Heq.
  injection Heq as Hiv _. apply (f_equal fromHex) in Hiv.
  by rewrite !fromHex_toHex in Hiv.
Qed.

(** X5: [decrypt] reads the first two segments of what it is given and
    nothing after a second colon. *)
Theorem decrypt_ignores_extra_segments env a b rest :
  occurs ":" a = false → occurs ":" b = false →
  decrypt env (a +:+ ":" +:+ b +:+ ":" +:+ rest) = decrypt env (a +:+ ":" +:+ b).
Proof.
  intros Ha Hb. unfold decrypt.
  rewrite !append_cons, !append_nil_l.
  rewrite !(split_app ":" a) by done.
  rewrite (split_app ":" b), (split_free ":" b) by done.
  done.
Qed.

End CryptoKeys.


Lemma encrypt_envelope_format_witness :
  ∃ stored data,
    Crypto.encrypt (H := vigenere) Fixture.env Fixture.iv (js "refresh") = Ok stored ∧
    stored = Buffer.toHex Fixture.iv +:+ ":" +:+ Buffer.toHex data ∧
    (16 ≤ length data)%nat.
Proof.
  destruct (Crypto.encrypt (H := vigenere) Fixture.env Fixture.iv (js "refresh"))
    as [stored|] eqn:Henc; [|by vm_compute in Henc].
  destruct (encrypt_envelope_format (G := vigenere) vigenere_laws Fixture.env Fixture.iv
              (js "refresh") stored eq_refl Henc) as (data & Hstored & _ & Hlen & _).
  by exists stored, data.
Defined.

Lemma envelopes_differ_by_nonce_witness :
  Crypto.encrypt (H := vigenere) Fixture.env Fixture.iv (js "refresh")
  ≠ Crypto.encrypt (H := vigenere) Fixture.env (replicate 12 Byte.x01) (js "refresh").
Proof.
  destruct (Crypto.encrypt (H := vigenere) Fixture.env Fixture.iv (js "refresh"))
    as [stored1|] eqn:H1; [|by vm_compute in H1].
  destruct (Crypto.encrypt (H := vigenere) Fixture.env (replicate 12 Byte.x01) (js "refresh"))
    as [stored2|] eqn:H2; [|by vm_compute in H2].
  intros [= Heq]. revert Heq.
  apply (envelopes_differ_by_nonce (G := vigenere) Fixture.env Fixture.iv
           (replicate 12 Byte.x01) (js "refresh") (js "refresh") stored1 stored2 H1 H2).
  by vm_compute.
Defined.

Lemma decrypt_ignores_extra_segments_witness :
  Crypto.decrypt (H := vigenere) Fixture.env "aa:bb:cc"
  = Crypto.decrypt (H := vigenere) Fixture.env "aa:bb".
Proof.
  exact (decrypt_ignores_extra_segments (G := vigenere) Fixture.env "aa" "bb" "cc"
           eq_refl eq_refl).
Defined.

(** ** store/SQLiteStore.ts: reads after writes *)

Section StoreReads.
Import Store.
Context `{G : AesGcm} (laws : AesGcmLaws G).

Lemma find_None_existsb {A} (P : A → bool) (l : list A) :
  find P l = None ↔ existsb P l = false.
Proof.
  induction l as [|x l IH]; [done|]. cbn [find existsb].
  destruct (P x); [done|]. by rewrite IH.
Qed.

Lemma find_app_false {A} (P : A → bool) (l : list A) (x : A) :
  P x = false → find P (l ++ [x]) = find P l.
Proof.
  intros Hx. induction l as [|y l IH]; cbn [app find]; [by rewrite Hx|].
  by destruct (P y).
Qed.

Lemma find_app_new {A} (P : A → bool) (l : list A) (x : A) :
  find P l = None → P x = true → find P (l ++ [x]) = Some x.
Proof.
  intros Hl Hx. induction l as [|y l IH]; cbn [app find] in *; [by rewrite Hx|].
  destruct (P y); [done|]. by apply IH.
Qed.

Lemma find_filter_implied {A} (P Q : A → bool) (l : list A) :
  (∀ x, P x = true → Q x = true) → find P (List.filter Q l) = find P l.
Proof.
  intros HPQ. induction l as [|x l IH]; [done|]. cbn [List.filter find].
  destruct (P x) eqn:HP.
  - rewrite (HPQ x HP). cbn [find]. by rewrite HP.
  - destruct (Q x); [|done]. cbn [find]. by rewrite HP.
Qed.

Lemma sameKey_other provider account provider' account' row :
  (provider, account) ≠ (provider', account') →
  sameKey provider account row = true → sameKey provider' account' row = false.
Proof.
  intros Hne Hrow%sameKey_spec. apply not_true_is_false. intros Hrow'%sameKey_spec.
  congruence.
Qed.

(** The rewrite of the matching rows that [upsert] and [updateAccessToken]
    do leaves the search for any pair where it was. *)
Lemma find_sameKey_rewrite provider account provider' account'
    (rewrite_ : Row.t → Row.t) (rows : list Row.t) :
  (∀ row, Row.provider (rewrite_ row) = Row.provider row ∧
          Row.account (rewrite_ row) = Row.account row) →
  find (sameKey provider account)
    ((λ row, if sameKey provider' account' row then rewrite_ row else row) <$> rows)
  = (λ row, if sameKey provider' account' row then rewrite_ row else row)
      <$> find (sameKey provider account) rows.
Proof.
  intros Hkeep. apply find_fmap. intros row.
  destruct (sameKey provider' account' row); [|done].
  unfold sameKey. by destruct (Hkeep row) as [-> ->].
Qed.

(** Every row's id reads provider:account, and no two rows share an id. *)
Lemma reachable_ids env d :
  reachable env d →
  Forall (λ row, Row.id row = Row.provider row +:+ ":" +:+ Row.account row) (connections d) ∧
  NoDup (Row.id <$> connections d).
Proof.
  induction 1 as [|d d' iv now params _ [IHf IHn] Hiv Hstore
                  |d now provider account at_ exp _ [IHf IHn]
                  |d provider account _ [IHf IHn]
                  |d now state provider account _ IH
                  |d state _ IH
                  |d now _ IH].
  - split; cbn; constructor.
  - unfold storeToken in Hstore.
    destruct (Crypto.encrypt env iv _) as [enc|]; [|done]. cbn [rbind] in Hstore.
    unfold upsert in Hstore.
    destruct (existsb (sameKey _ _) (connections d)).
    + injection Hstore as <-. cbn [connections]. split.
      * apply Forall_fmap. eapply Forall_impl; [exact IHf|]. intros row Hrow. cbn.
        by destruct (sameKey _ _ row).
      * rewrite <- list_fmap_compose. erewrite list_fmap_ext; [exact IHn|].
        intros _ row _. cbn. by destruct (sameKey _ _ row).
    + destruct (existsb (λ row, String.eqb (Row.id row) _) (connections d)) eqn:Hid; [done|].
      injection Hstore as <-. cbn [connections]. split.
      * apply Forall_app. split; [done|]. by repeat constructor.
      * rewrite fmap_app. apply NoDup_app. split_and!; [done| |apply NoDup_singleton].
        intros i (row & -> & Hin)%list_elem_of_fmap Hnew%list_elem_of_singleton.
        cbn [Row.id] in Hnew.
        assert (existsb (λ row, String.eqb (Row.id row)
                  (StoreParams.provider params +:+ ":" +:+ StoreParams.account params))
                  (connections d) = true); [|congruence].
        apply existsb_exists. exists row. split; [by apply list_elem_of_In|].
        by apply String.eqb_eq.
  - cbn [updateAccessToken connections]. split.
    + apply Forall_fmap. eapply Forall_impl; [exact IHf|]. intros row Hrow. cbn.
      by destruct (sameKey _ _ row).
    + rewrite <- list_fmap_compose. erewrite list_fmap_ext; [exact IHn|].
      intros _ row _. cbn. by destruct (sameKey _ _ row).
  - cbn [deleteToken connections]. rewrite filter_bool. split.
    + apply Forall_forall. intros row [_ Hrow]%list_elem_of_filter.
      by eapply Forall_forall in IHf.
    + by apply NoDup_fmap_filter.
  - done.
  - unfold consumeOAuthState. by destruct (_ !! _).
  - done.
Qed.

(** In a table with unique pairs, the row of a pair is the one [getToken]
    finds. *)
Lemma getToken_of_row env d row record :
  NoDup (key <$> connections d) → row ∈ connections d →
  rowToRecord env row = Ok record →
  getToken env (Row.provider row) (Row.account row) d = Ok (Some (toStored record)).
Proof.
  intros Hnd Hin Hrec. unfold getToken.
  destruct (find _ _) as [row'|] eqn:Hfind.
  - apply find_some in Hfind as [Hin'%list_elem_of_In Hk%sameKey_spec].
    assert (row' = row) as -> by (by eapply (NoDup_fmap_eq key)).
    by rewrite Hrec.
  - eapply find_none in Hfind; [|by apply list_elem_of_In].
    assert (sameKey (Row.provider row) (Row.account row) row = true)
      by (by apply sameKey_spec).
    congruence.
Qed.

(** What a successful [storeToken] leaves under its pair. *)
Lemma storeToken_lookup env iv now params d d' :
  length iv = 12%nat →
  storeToken env iv now params d = Ok d' →
  getToken env (StoreParams.provider params) (StoreParams.account params) d'
  = Ok (Some (StoredToken.mk (StoreParams.provider params) (StoreParams.account params)
                (Utf8.decode (Utf8.encode (StoreParams.refreshToken params)))
                (StoreParams.accessToken params) (StoreParams.expiresAt params)
                (StoreParams.scopes params)
                (from_option Row.created_at now
                   (find (sameKey (StoreParams.provider params) (StoreParams.account params))
                      (connections d)))
                now)) ∧
  oauth_states d' = oauth_states d.
Proof.
  intros Hiv Hstore. unfold storeToken in Hstore.
  destruct (Crypto.encrypt env iv _) as [enc|] eqn:Henc; [|done]. cbn [rbind] in Hstore.
  apply (encrypt_decrypts laws) in Henc; [|done].
  unfold upsert in Hstore.
  destruct (existsb (sameKey _ _) (connections d)) eqn:Hex.
  - injection Hstore as <-. split; [|done]. unfold getToken. cbn [connections].
    rewrite (find_sameKey_rewrite _ _ _ _
               (λ row, Row.mk (Row.id row) (Row.provider row) (Row.account row) enc
                         (StoreParams.accessToken params) (StoreParams.expiresAt params)
                         (StoreParams.scopes params) (Row.created_at row) now)) by done.
    destruct (find _ (connections d)) as [row|] eqn:Hfind;
      [|apply find_None_existsb in Hfind; congruence].
    pose proof Hfind as [_ Hsame]%find_some.
    cbn [fmap option_fmap option_map]. rewrite Hsame.
    unfold rowToRecord. cbn [Row.refresh_token_encrypted]. rewrite Henc. cbn [rbind].
    apply sameKey_spec in Hsame. injection Hsame as Hp Ha.
    unfold toStored. cbn. by rewrite Hp, Ha.
  - destruct (existsb (λ row, String.eqb (Row.id row) _) (connections d)); [done|].
    injection Hstore as <-. split; [|done]. unfold getToken. cbn [connections].
    apply find_None_existsb in Hex. rewrite Hex.
    rewrite (find_app_new _ _ _ Hex) by (by apply sameKey_spec).
    unfold rowToRecord. cbn [Row.refresh_token_encrypted]. by rewrite Henc.
Qed.

(** What [updateAccessToken] leaves under its pair. *)
Lemma updateAccessToken_lookup env now provider account accessToken expiresAt d t :
  getToken env provider account d = Ok (Some t) →
  getToken env provider account
    (updateAccessToken now provider account accessToken expiresAt d)
  = Ok (Some (StoredToken.mk (StoredToken.provider t) (StoredToken.account t)
                (StoredToken.refreshToken t) (Some accessToken) (Some expiresAt)
                (StoredToken.scopes t) (StoredToken.createdAt t) now)).
Proof.
  intros (row & record & Hfind & Hrec & -> & Hp & Ha)%getToken_Some.
  pose proof Hrec as [Hdec Hstored]%rowToRecord_fields.
  pose proof Hfind as [_ Hsame]%find_some.
  unfold getToken, updateAccessToken. cbn [connections].
  rewrite (find_sameKey_rewrite _ _ _ _
             (λ row, Row.mk (Row.id row) (Row.provider row) (Row.account row)
                       (Row.refresh_token_encrypted row) (Some accessToken) (Some expiresAt)
                       (Row.scopes row) (Row.created_at row) now)) by done.
  rewrite Hfind. cbn [fmap option_fmap option_map]. rewrite Hsame.
  unfold rowToRecord. cbn [Row.refresh_token_encrypted]. rewrite Hdec. cbn [rbind].
  rewrite Hstored. done.
Qed.

Lemma mapM_Forall2 {A B} (f : A → result B) (l : list A) :
  Forall (λ x, ∃ y, f x = Ok y) l →
  ∃ ys, mapM f l = Ok ys ∧ Forall2 (λ x y, f x = Ok y) l ys.
Proof.
  induction 1 as [|x l [y Hy] _ (ys & Hys & Hall)]; [by exists []|].
  exists (y :: ys). cbn [mapM]. rewrite Hy, Hys. split; [done|]. by constructor.
Qed.

(** X6: what [storeToken] has stored is what [getToken] returns for the
    pair: the refresh token as it survives UTF-8, the given access token,
    expiry and scopes, [updatedAt] at the time of the call, and [createdAt]
    at the time of the call for a new pair and as it was for a known one;
    the handshake states are left alone. *)
Theorem storeToken_getToken env iv now params d d' :
  length iv = 12%nat →
  storeToken env iv now params d = Ok d' →
  getToken env (StoreParams.provider params) (StoreParams.account params) d'
  = Ok (Some (StoredToken.mk (StoreParams.provider params) (StoreParams.account params)
                (Utf8.decode (Utf8.encode (StoreParams.refreshToken params)))
                (StoreParams.accessToken params) (StoreParams.expiresAt params)
                (StoreParams.scopes params)
                (from_option Row.created_at now
                   (find (sameKey (StoreParams.provider params) (StoreParams.account params))
                      (connections d)))
                now)) ∧
  oauth_states d' = oauth_states d.
Proof. apply storeToken_lookup. Qed.

(** X7: a write for one pair changes what [getToken] returns for no other
    pair, be it [storeToken], [updateAccessToken] or [deleteToken]. *)
Theorem other_pairs_untouched env iv now params accessToken expiresAt
    provider account provider' account' d :
  (provider, account) ≠ (provider', account') →
  StoreParams.provider params = provider' → StoreParams.account params = account' →
  (∀ d', storeToken env iv now params d = Ok d' →
         getToken env provider account d' = getToken env provider account d) ∧
  getToken env provider account
    (updateAccessToken now provider' account' accessToken expiresAt d)
  = getToken env provider account d ∧
  getToken env provider account (deleteToken provider' account' d)
  = getToken env provider account d.
Proof.
  intros Hne Hp Ha.
  assert (Hrewrite : ∀ rewrite_,
    (∀ row, Row.provider (rewrite_ row) = Row.provider row ∧
            Row.account (rewrite_ row) = Row.account row) →
    find (sameKey provider account)
      ((λ row, if sameKey provider' account' row then rewrite_ row else row) <$> connections d)
    = find (sameKey provider account) (connections d)).
  { intros rewrite_ Hkeep. rewrite find_sameKey_rewrite by done.
    destruct (find _ _) as [row|] eqn:Hfind; [|done].
    apply find_some in Hfind as [_ Hsame]. cbn.
    by rewrite (sameKey_other _ _ _ _ _ Hne Hsame). }
  split_and!.
  - intros d' Hstore. unfold storeToken in Hstore.
    destruct (Crypto.encrypt env iv _) as [enc|]; [|done]. cbn [rbind] in Hstore.
    unfold upsert in Hstore. rewrite Hp, Ha in Hstore.
    destruct (existsb (sameKey _ _) (connections d)).
    + injection Hstore as <-. unfold getToken. cbn [connections].
      by rewrite (Hrewrite (λ row, Row.mk (Row.id row) (Row.provider row) (Row.account row)
                              enc _ _ _ (Row.created_at row) now)).
    + destruct (existsb (λ row, String.eqb (Row.id row) _) (connections d)); [done|].
      injection Hstore as <-. unfold getToken. cbn [connections].
      rewrite find_app_false; [done|].
      apply (sameKey_other provider' account'); [congruence|by apply sameKey_spec].
  - unfold getToken, updateAccessToken. cbn [connections].
    by rewrite (Hrewrite (λ row, Row.mk (Row.id row) (Row.provider row) (Row.account row)
                            (Row.refresh_token_encrypted row) _ _ (Row.scopes row)
                            (Row.created_at row) now)).
  - unfold getToken, deleteToken. cbn [connections].
    rewrite find_filter_implied; [done|].
    intros row Hrow. by rewrite (sameKey_other _ _ _ _ _ Hne Hrow).
Qed.

(** X8: after [deleteToken] the pair has no record; deleting again, or
    deleting a pair that has none, changes nothing. *)
Theorem deleteToken_removes env provider account d :
  getToken env provider account (deleteToken provider account d) = Ok None ∧
  deleteToken provider account (deleteToken provider account d)
  = deleteToken provider account d ∧
  (getToken env provider account d = Ok None → deleteToken provider account d = d).
Proof.
  assert (Hid : ∀ rows : list Row.t,
            find (sameKey provider account) rows = None →
            List.filter (λ row, negb (sameKey provider account row)) rows = rows).
  { intros rows Hnone. induction rows as [|row rows IH]; [done|].
    cbn [find List.filter] in *. destruct (sameKey provider account row); [done|].
    cbn [negb]. f_equal. by apply IH. }
  assert (Hgone : find (sameKey provider account)
                    (List.filter (λ row, negb (sameKey provider account row)) (connections d))
                  = None).
  { destruct (find _ _) as [row|] eqn:Hfind; [|done].
    apply find_some in Hfind as [Hin Hsame]. apply filter_In in Hin as [_ Hnot].
    by rewrite Hsame in Hnot. }
  split_and!.
  - unfold getToken, deleteToken. cbn [connections]. by rewrite Hgone.
  - unfold deleteToken. cbn [connections oauth_states]. f_equal. exact (Hid _ Hgone).
  - unfold getToken.
    destruct (find (sameKey provider account) (connections d)) as [row|] eqn:Hfind.
    + by destruct (rowToRecord env row).
    + intros _. unfold deleteToken. rewrite (Hid _ Hfind). by destruct d.
Qed.

(** X9: [updateAccessToken] for a pair that has no record changes
    nothing: it never creates one. *)
Theorem updateAccessToken_missing env now provider account accessToken expiresAt d :
  getToken env provider account d = Ok None →
  updateAccessToken now provider account accessToken expiresAt d = d.
Proof.
  unfold getToken. destruct (find _ _) as [row|] eqn:Hfind;
    [by destruct (rowToRecord env row)|].
  intros _. unfold updateAccessToken.
  erewrite (list_fmap_ext _ id (connections d)); [rewrite list_fmap_id; by destruct d|].
  intros i row Hin%list_elem_of_lookup_2%list_elem_of_In.
  eapply find_none in Hfind; [|done]. by rewrite Hfind.
Qed.

(** X10: on a database built through the store's operations, with a key
    of 32 bytes, [storeToken] fails exactly when another pair's row already
    has the id provider:account that the new row would get, and then with
    the constraint error; a colon in a provider or account name makes that
    possible. *)
Theorem storeToken_outcome env key iv now params d :
  reachable env d →
  Crypto.getKey env = Ok key → length key = 32%nat →
  let provider := StoreParams.provider params in
  let account := StoreParams.account params in
  match storeToken env iv now params d with
  | Ok _ =>
      ∀ row, row ∈ connections d →
             Row.provider row +:+ ":" +:+ Row.account row = provider +:+ ":" +:+ account →
             (Row.provider row, Row.account row) = (provider, account)
  | Err e =>
      e = SqliteConstraint ∧
      ∃ row, row ∈ connections d ∧
             Row.provider row +:+ ":" +:+ Row.account row = provider +:+ ":" +:+ account ∧
             (Row.provider row, Row.account row) ≠ (provider, account)
  end.
Proof.
  intros Hreach Hkey Hlen provider account.
  destruct (reachable_ids env d Hreach) as [Hfmt Hids].
  rewrite Forall_forall in Hfmt.
  unfold storeToken, Crypto.encrypt. rewrite Hkey. cbn [rbind].
  unfold Crypto.createCipher. rewrite decide_True by done. cbn [rbind].
  unfold upsert. fold provider account.
  destruct (existsb (sameKey provider account) (connections d)) eqn:Hex; cbn [rbind].
  - apply existsb_exists in Hex as (row0 & Hin0%list_elem_of_In & Hk0%sameKey_spec).
    intros row Hin Hid. rewrite <- Hk0. change (Store.key row = Store.key row0). f_equal.
    apply (NoDup_fmap_eq Row.id (connections d)); [done..|].
    rewrite (Hfmt _ Hin), (Hfmt _ Hin0), Hid.
    injection Hk0 as -> ->. done.
  - destruct (existsb (λ row, String.eqb (Row.id row) _) (connections d)) eqn:Hid;
      cbn [rbind].
    + split; [done|].
      apply existsb_exists in Hid as (row & Hin%list_elem_of_In & Heq%String.eqb_eq).
      exists row. split_and!; [done|by rewrite <- (Hfmt _ Hin)|].
      intros Hk. assert (existsb (sameKey provider account) (connections d) = true);
        [|congruence].
      apply existsb_exists. exists row. split; [by apply list_elem_of_In|].
      by apply sameKey_spec.
    + intros row Hin Heq.
      assert (existsb (λ row, String.eqb (Row.id row) (provider +:+ ":" +:+ account))
                (connections d) = true); [|congruence].
      apply existsb_exists. exists row. split; [by apply list_elem_of_In|].
      apply String.eqb_eq. by rewrite (Hfmt _ Hin).
Qed.

(** X11: on a database built through the store's operations no read
    fails, and [getTokensNeedingRefresh] returns exactly the records, as
    [getToken] returns them, whose expiry is null or earlier than
    [nowSec + thresholdSec]. *)
Theorem getTokensNeedingRefresh_spec env nowSec thresholdSec d :
  reachable env d →
  ∃ tokens,
    getTokensNeedingRefresh env nowSec thresholdSec d = Ok tokens ∧
    ∀ t, t ∈ tokens ↔
         getToken env (StoredToken.provider t) (StoredToken.account t) d = Ok (Some t) ∧
         (StoredToken.expiresAt t = None ∨
          ∃ e, StoredToken.expiresAt t = Some e ∧ e < nowSec + thresholdSec).
Proof.
  intros Hwf%(reachable_wf laws). pose proof Hwf as [Hnd Hdec].
  unfold getTokensNeedingRefresh.
  assert (Hsub : ∀ row, row ∈ List.filter (needsRefresh (nowSec + thresholdSec)) (connections d)
                        ↔ row ∈ connections d ∧ needsRefresh (nowSec + thresholdSec) row = true).
  { intros row. rewrite filter_bool, list_elem_of_filter. tauto. }
  assert (Hneeds : ∀ row, needsRefresh (nowSec + thresholdSec) row = true ↔
                          Row.expires_at row = None ∨
                          ∃ e, Row.expires_at row = Some e ∧ e < nowSec + thresholdSec).
  { intros row. unfold needsRefresh. destruct (Row.expires_at row) as [e|].
    - rewrite Z.ltb_lt. split; [by eauto|]. by intros [|(? & [= <-] & ?)].
    - split; [by left|done]. }
  destruct (mapM_Forall2 (rowToRecord env)
              (List.filter (needsRefresh (nowSec + thresholdSec)) (connections d)))
    as (records & -> & Hall).
  { apply Forall_forall. intros row [Hin _]%Hsub.
    destruct (wf_rowToRecord env d row Hwf Hin) as [record Hrec]. by exists record. }
  cbn [rbind]. eexists. split; [done|]. intros t. split.
  - intros (record & -> & Hin)%list_elem_of_fmap.
    apply list_elem_of_lookup in Hin as [i Hi].
    destruct (Forall2_lookup_r _ _ _ _ _ Hall Hi) as (row & Hrow & Hrec).
    apply list_elem_of_lookup_2, Hsub in Hrow as [Hin Hn%Hneeds].
    pose proof (getToken_of_row env d row record Hnd Hin Hrec) as Hget.
    pose proof Hrec as [_ Hstored]%rowToRecord_fields.
    rewrite Hstored in Hget |- *. cbn [StoredToken.provider StoredToken.account
      StoredToken.expiresAt]. by split.
  - intros [(row & record & Hfind & Hrec & -> & Hp & Ha)%getToken_Some Hexp].
    pose proof Hrec as [_ Hstored]%rowToRecord_fields.
    rewrite Hstored in Hexp. cbn [StoredToken.expiresAt] in Hexp.
    apply find_some in Hfind as [Hin%list_elem_of_In _].
    assert (Hrow : row ∈ List.filter (needsRefresh (nowSec + thresholdSec)) (connections d))
      by (by apply Hsub, conj, Hneeds).
    apply list_elem_of_lookup in Hrow as [i Hi].
    destruct (Forall2_lookup_l _ _ _ _ _ Hall Hi) as (record' & Hrecord' & Hrec').
    assert (record' = record) as -> by congruence.
    apply list_elem_of_fmap. exists record. split; [done|].
    by eapply list_elem_of_lookup_2.
Qed.

End StoreReads.

Lemma storeToken_getToken_witness :
  ∃ d',
    Store.storeToken (H := vigenere) Fixture.env Fixture.iv 2000
      (StoreParams.mk "oura" "work" (js "r9") (Some "a9") (Some 9000) (Some "daily"))
      Fixture.expired = Ok d' ∧
    Store.getToken (H := vigenere) Fixture.env "oura" "work" d'
    = Ok (Some (StoredToken.mk "oura" "work" (js "r9") (Some "a9") (Some 9000)
                  (Some "daily") 2000 2000)).
Proof.
  destruct (Store.storeToken (H := vigenere) Fixture.env Fixture.iv 2000
              (StoreParams.mk "oura" "work" (js "r9") (Some "a9") (Some 9000) (Some "daily"))
              Fixture.expired) as [d'|] eqn:Hstore; [|by vm_compute in Hstore].
  exists d'. split; [done|].
  destruct (storeToken_getToken (G := vigenere) vigenere_laws Fixture.env Fixture.iv 2000
              (StoreParams.mk "oura" "work" (js "r9") (Some "a9") (Some 9000) (Some "daily"))
              Fixture.expired d' eq_refl Hstore) as [Hget _].
  exact Hget.
Defined.

Lemma other_pairs_untouched_witness :
  Store.getToken (H := vigenere) Fixture.env "oura" "personal"
    (Store.deleteToken "oura" "default" Fixture.personalAndDefault)
  = Store.getToken (H := vigenere) Fixture.env "oura" "personal" Fixture.personalAndDefault.
Proof.
  destruct (other_pairs_untouched (G := vigenere) Fixture.env Fixture.iv 0
              (StoreParams.mk "oura" "default" [] None None None) "a" 0
              "oura" "personal" "oura" "default" Fixture.personalAndDefault)
    as (_ & _ & Hdelete); [discriminate|reflexivity|reflexivity|].
  exact Hdelete.
Defined.

Lemma updateAccessToken_missing_witness :
  Store.updateAccessToken 5002 "oura" "work" "a2" 8600 Fixture.expired = Fixture.expired.
Proof.
  apply (updateAccessToken_missing (G := vigenere) Fixture.env).
  by vm_compute.
Defined.

(** The pairs ("a:b", "c") and ("a", "b:c") would both get the id
    "a:b:c": with the first stored, storing the second fails. *)
Lemma storeToken_outcome_witness :
  let d := Fixture.store 1000 "a:b" "c" (js "r1") None None Store.empty in
  Store.storeToken (H := vigenere) Fixture.env Fixture.iv 1001
    (StoreParams.mk "a" "b:c" (js "r2") None None None) d = Err SqliteConstraint.
Proof.
  cbv zeta.
  assert (Hreach : Store.reachable (H := vigenere) Fixture.env
                     (Fixture.store 1000 "a:b" "c" (js "r1") None None Store.empty)).
  { apply Store.reach_storeToken with
      (d := Store.empty) (iv := Fixture.iv) (now := 1000)
      (params := StoreParams.mk "a:b" "c" (js "r1") None None None);
      [constructor|reflexivity|by vm_compute]. }
  pose proof (storeToken_outcome (G := vigenere) Fixture.env (replicate 32 x00) Fixture.iv 1001
                (StoreParams.mk "a" "b:c" (js "r2") None None None) _ Hreach
                eq_refl eq_refl) as H.
  cbv zeta in H.
  destruct (Store.storeToken _ _ _ _ _) as [d'|e] eqn:Hstore; [|by destruct H as [-> _]].
  by vm_compute in Hstore.
Defined.

Lemma getTokensNeedingRefresh_spec_witness :
  ∃ tokens,
    Store.getTokensNeedingRefresh (H := vigenere) Fixture.env 5000 600 Fixture.expired
    = Ok tokens ∧
    StoredToken.mk "oura" "daniel" (js "r1") (Some "a1") (Some 4900) None 1000 1000 ∈ tokens.
Proof.
  assert (Hreach : Store.reachable (H := vigenere) Fixture.env Fixture.expired).
  { apply Store.reach_storeToken with
      (d := Store.empty) (iv := Fixture.iv) (now := 1000)
      (params := StoreParams.mk "oura" "daniel" (js "r1") (Some "a1") (Some 4900) None);
      [constructor|reflexivity|by vm_compute]. }
  destruct (getTokensNeedingRefresh_spec (G := vigenere) vigenere_laws Fixture.env 5000 600
              Fixture.expired Hreach) as (tokens & Hget & Hiff).
  exists tokens. split; [exact Hget|]. apply Hiff. split; [by vm_compute|].
  right. exists 4900. split; [reflexivity|]. cbn. lia.
Defined.

(** ** store/SQLiteStore.ts: handshake states and the listing *)

(** X12: a saved state is consumed once, with the provider and account
    it was saved for, whatever was saved under it before; a second
    consumption yields nothing; the connections and the other states are
    left alone. *)
Theorem oauth_state_single_use (now : Z) (state provider account : string) (d : Store.db) :
  let d1 := Store.saveOAuthState now state provider account d in
  let d2 := (Store.consumeOAuthState state d1).2 in
  (Store.consumeOAuthState state d1).1 = Some (provider, account) ∧
  Store.consumeOAuthState state d2 = (None, d2) ∧
  Store.connections d2 = Store.connections d ∧
  ∀ state', state' ≠ state →
            Store.oauth_states d2 !! state' = Store.oauth_states d !! state'.
Proof.
  cbv zeta. unfold Store.consumeOAuthState, Store.saveOAuthState.
  cbn [Store.oauth_states Store.connections]. rewrite lookup_insert_eq.
  cbn [fst snd Store.oauth_states Store.connections StateRow.provider StateRow.account].
  rewrite lookup_delete_eq. split_and!; [done..|].
  intros state' Hne. by rewrite lookup_delete_ne, lookup_insert_ne.
Qed.

Lemma providerAccountLe_total : Total Listing.providerAccountLe.
Proof.
  intros r1 r2. unfold Listing.providerAccountLe, String.leb.
  rewrite (String.compare_antisym (Row.provider r2) (Row.provider r1)),
          (String.compare_antisym (Row.account r2) (Row.account r1)).
  destruct (String.compare (Row.provider r1) (Row.provider r2)); cbn; try tauto.
  destruct (String.compare (Row.account r1) (Row.account r2)); cbn; tauto.
Qed.

(** X13: [listConnections] returns every connection once, ordered by
    provider and, within a provider, by account. *)
Theorem listConnections_sorted (d : Store.db) :
  Listing.listConnections d ≡ₚ Listing.rowToConnection <$> Store.connections d ∧
  Sorted (λ c1 c2,
            match String.compare (Connection.provider c1) (Connection.provider c2) with
            | Lt => True
            | Eq => String.leb (Connection.account c1) (Connection.account c2) = true
            | Gt => False
            end)
         (Listing.listConnections d).
Proof.
  unfold Listing.listConnections. split.
  - by rewrite merge_sort_Permutation.
  - eapply Sorted_fmap; [|apply (Sorted_merge_sort _ (Total0 := providerAccountLe_total))].
    by intros r1 r2.
Qed.

(** ** proxy.ts: what a request does to the outside and to the store *)

Section ProxyRuns.
Import Proxy.
Context `{G : AesGcm}.

(** The upstream call of steps 4 to 8, spelled out. *)
Lemma forward_call (w : World) (req : Request) (providerCfg : ProviderConfig.t)
    (tokenRecord : StoredToken.t) :
  ∃ tail,
    (forward w req providerCfg tokenRecord).1
    = UpstreamFetch
        (ProviderConfig.base_url providerCfg +:+ "/" +:+ wildcardPath req
         +:+ stripQueryParams (query req) ["account"])
        (method req)
        (buildForwardHeaders (headers req) (StoredToken.accessToken tokenRecord))
        (if bool_decide (Text.toUpperCase (method req) ∈ ["POST"; "PUT"; "PATCH"])
         then match body req with
              | BodyString s => if String.eqb s EmptyString then None else Some s
              | BodyObject json => Some json
              | BodyUndefined => None
              end
         else None)
      :: tail ∧
    (∀ e, e ∈ tail → ∃ message, e = LogError message) ∧
    (forward w req providerCfg tokenRecord).2
    = match upstream w with
      | UpstreamFetchRejected => Replied (upstreamError (provider req))
      | UpstreamHttp status hs text =>
          Replied (mkReply status
                     (List.filter
                        (λ kv, negb (bool_decide (Text.toLowerCase kv.1 ∈ SKIP_RESPONSE_HEADERS)))
                        hs)
                     (Text text))
      end.
Proof.
  unfold forward. cbv zeta.
  assert (Hurl : ProviderConfig.base_url providerCfg +:+ ("/" +:+ wildcardPath req)
                 +:+ stripQueryParams (query req) ["account"]
                 = ProviderConfig.base_url providerCfg +:+ "/" +:+ wildcardPath req
                   +:+ stripQueryParams (query req) ["account"]) by done.
  rewrite Hurl.
  assert (Hsent : match (if bool_decide (Text.toUpperCase (method req) ∈ ["POST"; "PUT"; "PATCH"])
                         then body req else BodyUndefined) with
                  | BodyUndefined => None
                  | BodyString s => if String.eqb s EmptyString then None else Some s
                  | BodyObject json => Some json
                  end
                  = if bool_decide (Text.toUpperCase (method req) ∈ ["POST"; "PUT"; "PATCH"])
                    then match body req with
                         | BodyString s => if String.eqb s EmptyString then None else Some s
                         | BodyObject json => Some json
                         | BodyUndefined => None
                         end
                    else None) by (by case_bool_decide).
  rewrite Hsent.
  destruct (upstream w); cbn [fst snd]; eexists; (split_and!; [reflexivity| |reflexivity]).
  - intros e ->%list_elem_of_singleton. by eexists.
  - by intros e ?%elem_of_nil.
Qed.

(** The runs of the handler: it stops before any call, stops after a
    failed refresh, or forwards with the stored or the refreshed token. *)
Lemma handle_cases env w req d :
  (handle env w req d).1.1 = [] ∧ (handle env w req d).1.2 = d ∨
  (∃ providerCfg tokenRecord account,
     getProvider w (provider req) = Some providerCfg ∧
     loadToken env req d = Ok (Some tokenRecord, account) ∧
     (shouldRefresh tokenRecord (nowSec w) = false ∧
      handle env w req d
      = ((forward w req providerCfg tokenRecord).1, d,
         (forward w req providerCfg tokenRecord).2) ∨
      shouldRefresh tokenRecord (nowSec w) = true ∧
      ((∃ e, refreshAccessToken w = Err e) ∧
       handle env w req d
       = ([TokenFetch (ProviderConfig.token_url providerCfg)
             (ProviderConfig.client_id providerCfg)
             (ProviderConfig.client_secret providerCfg)
             (StoredToken.refreshToken tokenRecord);
           LogError "Token refresh failed in proxy"], d,
          Replied (tokenRefreshFailed (provider req) account)) ∨
       ∃ accessToken expiresAt tokenRecord',
         refreshAccessToken w = Ok (accessToken, expiresAt) ∧
         StoredToken.accessToken tokenRecord' = Some accessToken ∧
         handle env w req d
         = (TokenFetch (ProviderConfig.token_url providerCfg)
              (ProviderConfig.client_id providerCfg)
              (ProviderConfig.client_secret providerCfg)
              (StoredToken.refreshToken tokenRecord)
            :: (forward w req providerCfg tokenRecord').1,
            Store.updateAccessToken (nowWritten w) (provider req) account accessToken
              expiresAt d,
            (forward w req providerCfg tokenRecord').2)))).
Proof.
  destruct (getProvider w (provider req)) as [providerCfg|] eqn:Hprov;
    [|left; unfold handle; by rewrite Hprov].
  destruct (loadToken env req d) as [[[tokenRecord|] account]|e] eqn:Hload;
    [|left; unfold handle; by rewrite Hprov, Hload..].
  right. exists providerCfg, tokenRecord, account. split_and!; [done..|].
  pose proof (handle_resolved env w req d providerCfg tokenRecord account Hprov Hload) as H.
  cbv zeta in H. destruct (shouldRefresh tokenRecord (nowSec w)); [right|left; by split].
  split; [done|].
  destruct (refreshAccessToken w) as [[accessToken expiresAt]|e].
  - right. destruct H as (tokenRecord' & Ha & H). by exists accessToken, expiresAt, tokenRecord'.
  - left. split; [by exists e|done].
Qed.

(** X14: a request calls the token endpoint at most once and the
    upstream at most once, the token endpoint first; whatever else it does
    to the outside is a log line. *)
Theorem handle_effects_shape env w req d :
  ∃ pre up post,
    (handle env w req d).1.1 = pre ++ up ++ post ∧
    (pre = [] ∨ ∃ tokenUrl clientId clientSecret refreshToken,
                  pre = [TokenFetch tokenUrl clientId clientSecret refreshToken]) ∧
    (up = [] ∨ ∃ url hs b, up = [UpstreamFetch url (method req) hs b]) ∧
    (∀ e, e ∈ post → ∃ message, e = LogError message).
Proof.
  destruct (handle_cases env w req d)
    as [[-> _]|(providerCfg & tokenRecord & account & _ & _ &
                [[_ ->]|[_ [[_ ->]|(accessToken & expiresAt & tokenRecord' & _ & _ & ->)]]])].
  - exists [], [], []. split_and!; [done|by left|by left|by intros e ?%elem_of_nil].
  - destruct (forward_call w req providerCfg tokenRecord) as (tail & Hcall & Htail & _).
    cbn [fst]. rewrite Hcall.
    eexists [], [_], tail. split_and!; [done|by left|right; by eauto|done].
  - cbn [fst]. eexists [_], [], [_]. split_and!; [done|right; by eauto|by left|].
    intros e ->%list_elem_of_singleton. by eexists.
  - destruct (forward_call w req providerCfg tokenRecord') as (tail & Hcall & Htail & _).
    cbn [fst]. rewrite Hcall.
    eexists [_], [_], tail. split_and!; [done|right; by eauto|right; by eauto|done].
Qed.

(** X15: a request leaves the database as it was, unless it refreshed the
    resolved record with success; then the one change is that
    [updateAccessToken] of the refreshed token for the resolved pair. *)
Theorem handle_store_change env w req d :
  (handle env w req d).1.2 = d ∨
  ∃ tokenRecord account accessToken expiresAt,
    loadToken env req d = Ok (Some tokenRecord, account) ∧
    shouldRefresh tokenRecord (nowSec w) = true ∧
    refreshAccessToken w = Ok (accessToken, expiresAt) ∧
    (handle env w req d).1.2
    = Store.updateAccessToken (nowWritten w) (provider req) account accessToken expiresAt d.
Proof.
  destruct (handle_cases env w req d)
    as [[_ ->]|(providerCfg & tokenRecord & account & _ & Hload &
                [[_ ->]|[Hshould [[_ ->]|(accessToken & expiresAt & tokenRecord' & Hfresh & _ & ->)]]])];
    [by left..|].
  right. by exists tokenRecord, account, accessToken, expiresAt.
Qed.

Lemma handle_upstream_inv env w req d url m hs b :
  UpstreamFetch url m hs b ∈ (handle env w req d).1.1 →
  ∃ providerCfg tokenRecord,
    getProvider w (provider req) = Some providerCfg ∧
    UpstreamFetch url m hs b ∈ (forward w req providerCfg tokenRecord).1 ∧
    (handle env w req d).2 = (forward w req providerCfg tokenRecord).2.
Proof.
  destruct (handle_cases env w req d)
    as [[-> _]|(providerCfg & tokenRecord & account & Hprov & _ &
                [[_ ->]|[_ [[_ ->]|(accessToken & expiresAt & tokenRecord' & _ & _ & ->)]]])];
    cbn [fst snd].
  - by intros ?%elem_of_nil.
  - intros Hin. by exists providerCfg, tokenRecord.
  - intros [|[|?%elem_of_nil]%elem_of_cons]%elem_of_cons; done.
  - intros [|Hin]%elem_of_cons; [done|]. by exists providerCfg, tokenRecord'.
Qed.

Lemma stripQueryParams_filter (query : list (string * Value)) (keys : list string) :
  stripQueryParams query keys = stripQueryParams (filter (λ kv, kv.1 ∉ keys) query) [].
Proof.
  unfold stripQueryParams.
  enough (Hparams :
    flat_map (λ kv : string * Value,
                if bool_decide (kv.1 ∈ keys) then []
                else match kv.2 with
                     | VArray l => (λ val, (kv.1, val)) <$> l
                     | VString v => [(kv.1, v)]
                     | VUndefined => []
                     end) query
    = flat_map (λ kv : string * Value,
                  if bool_decide (kv.1 ∈ @nil string) then []
                  else match kv.2 with
                       | VArray l => (λ val, (kv.1, val)) <$> l
                       | VString v => [(kv.1, v)]
                       | VUndefined => []
                       end) (filter (λ kv, kv.1 ∉ keys) query))
    by (by rewrite Hparams).
  induction query as [|kv query IH]; [done|].
  rewrite filter_cons. cbn [flat_map]. case_bool_decide as Hk.
  - rewrite decide_False by tauto. done.
  - rewrite decide_True by done. cbn [flat_map].
    rewrite bool_decide_eq_false_2 by apply not_elem_of_nil. by rewrite IH.
Qed.

(** X16: the upstream call goes to the provider's base URL, a slash, the
    wildcard path and the query without its [account] entries, with the
    request's method, and carries a body only for POST, PUT and PATCH. *)
Theorem upstream_request env w req d url m hs b :
  UpstreamFetch url m hs b ∈ (handle env w req d).1.1 →
  ∃ providerCfg,
    registry w !! provider req = Some providerCfg ∧
    url = ProviderConfig.base_url providerCfg +:+ "/" +:+ wildcardPath req
          +:+ stripQueryParams (filter (λ kv, kv.1 ∉ ["account"]) (query req)) [] ∧
    m = method req ∧
    (Text.toUpperCase (method req) ∉ ["POST"; "PUT"; "PATCH"] → b = None).
Proof.
  intros (providerCfg & tokenRecord & Hprov & Hin & _)%handle_upstream_inv.
  destruct (forward_call w req providerCfg tokenRecord) as (tail & Hcall & Htail & _).
  rewrite Hcall in Hin. apply elem_of_cons in Hin as [[= -> -> _ ->]|Hin];
    [|by destruct (Htail _ Hin)].
  exists providerCfg. split_and!; [done|by rewrite stripQueryParams_filter|done|].
  intros Hm. by rewrite bool_decide_eq_false_2.
Qed.


Context (laws : AesGcmLaws G).

Lemma getDefaultToken_getToken env provider d t :
  Store.reachable env d →
  Store.getDefaultToken env provider d = Ok (Some t) →
  Store.getToken env provider (StoredToken.account t) d = Ok (Some t).
Proof.
  intros [Hnd _]%(reachable_wf laws). unfold Store.getDefaultToken.
  pose proof (merge_sort_Permutation Store.accountLe
                (List.filter (Store.ofProvider provider) (Store.connections d))) as Hperm.
  assert (Hrow : ∀ row record,
            row ∈ merge_sort Store.accountLe
                    (List.filter (Store.ofProvider provider) (Store.connections d)) →
            Store.rowToRecord env row = Ok record →
            Store.getToken env provider (StoredToken.account (Store.toStored record)) d
            = Ok (Some (Store.toStored record))).
  { intros row record Hin Hrec. rewrite Hperm, filter_bool in Hin.
    apply list_elem_of_filter in Hin as [Hp%ofProvider_spec Hin].
    pose proof (getToken_of_row env d row record Hnd Hin Hrec) as Hget.
    apply rowToRecord_fields in Hrec as [_ Hstored]. rewrite Hstored in Hget |- *.
    cbn [StoredToken.account]. by rewrite <- Hp. }
  destruct (merge_sort _ _) as [|r1 [|r2 rest]] eqn:Hsorted; [done| |].
  - destruct (Store.rowToRecord env r1) as [record|] eqn:Hrec; [|done].
    intros [= <-]. apply (Hrow r1); [by left|done].
  - destruct (find _ _) as [row|] eqn:Hfind; [|done].
    destruct (Store.rowToRecord env row) as [record|] eqn:Hrec; [|done].
    intros [= <-]. apply find_some in Hfind as [Hin%list_elem_of_In _].
    by apply (Hrow row).
Qed.

(** The account name that step 2 resolves is the one under which the
    record it returns is stored. *)
Lemma loadToken_getToken env req d t account :
  Store.reachable env d →
  loadToken env req d = Ok (Some t, account) →
  Store.getToken env (provider req) account d = Ok (Some t).
Proof.
  intros Hreach.
  assert (Hdefault : loadDefault env (provider req) d = Ok (Some t, account) →
                     Store.getToken env (provider req) account d = Ok (Some t)).
  { unfold loadDefault.
    destruct (Store.getToken env (provider req) "default" d) as [[t0|]|] eqn:Hget;
      [by intros [= <- <-]| |done].
    cbn [rbind]. destruct (Store.getDefaultToken env (provider req) d) as [[t0|]|] eqn:Hdef;
      [|done..].
    cbn [rbind from_option]. intros [= <- <-]. by apply getDefaultToken_getToken. }
  unfold loadToken. destruct (accountParam req) as [[acc|l|]|]; [|done|done|done].
  destruct (String.eqb acc EmptyString); [done|]. cbn [negb].
  destruct (Store.getToken env (provider req) acc d) as [[t0|]|] eqn:Hget; [|done..].
  by intros [= <- <-].
Qed.

(** X18: after a successful refresh the store holds the refreshed access
    token and expiry under the resolved pair, with the refresh token, the
    scopes and [createdAt] as before, whatever the upstream then
    answers. *)
Theorem refreshed_token_persisted env w req d providerCfg tokenRecord account
    accessToken expiresAt :
  Store.reachable env d →
  getProvider w (provider req) = Some providerCfg →
  loadToken env req d = Ok (Some tokenRecord, account) →
  shouldRefresh tokenRecord (nowSec w) = true →
  refreshAccessToken w = Ok (accessToken, expiresAt) →
  Store.getToken env (provider req) account (handle env w req d).1.2
  = Ok (Some (StoredToken.mk (StoredToken.provider tokenRecord)
                (StoredToken.account tokenRecord) (StoredToken.refreshToken tokenRecord)
                (Some accessToken) (Some expiresAt) (StoredToken.scopes tokenRecord)
                (StoredToken.createdAt tokenRecord) (nowWritten w))).
Proof.
  intros Hreach Hprov Hload Hshould Hfresh.
  pose proof (handle_resolved env w req d providerCfg tokenRecord account Hprov Hload) as H.
  cbv zeta in H. rewrite Hshould, Hfresh in H. destruct H as (tokenRecord' & _ & ->).
  cbn [fst snd]. apply (updateAccessToken_lookup env).
  by apply loadToken_getToken.
Qed.

End ProxyRuns.

Lemma fixture_expired_reachable :
  Store.reachable (H := vigenere) Fixture.env Fixture.expired.
Proof.
  apply Store.reach_storeToken with
    (d := Store.empty) (iv := Fixture.iv) (now := 1000)
    (params := StoreParams.mk "oura" "daniel" (js "r1") (Some "a1") (Some 4900) None);
    [constructor|reflexivity|by vm_compute].
Qed.

Lemma fixture_fresh_upstream_call :
  Proxy.UpstreamFetch "https://api.ouraring.com/v2/usercollection/daily_sleep" "GET"
    {[ "accept" := "application/json"; "authorization" := "Bearer a1" ]} None
  ∈ (Proxy.handle (H := vigenere) Fixture.env (Fixture.world Proxy.TokenFetchRejected)
       Fixture.request Fixture.fresh).1.1.
Proof. vm_compute. apply list_elem_of_here. Qed.

(** The request of the fixture: [?account=daniel] is not passed on. *)
Lemma upstream_request_witness :
  ∃ providerCfg,
    Proxy.registry (Fixture.world Proxy.TokenFetchRejected) !! Proxy.provider Fixture.request
    = Some providerCfg ∧
    "https://api.ouraring.com/v2/usercollection/daily_sleep"
    = ProviderConfig.base_url providerCfg +:+ "/" +:+ Proxy.wildcardPath Fixture.request
      +:+ Proxy.stripQueryParams
            (filter (λ kv, kv.1 ∉ ["account"]) (Proxy.query Fixture.request)) [].
Proof.
  destruct (upstream_request (G := vigenere) Fixture.env
              (Fixture.world Proxy.TokenFetchRejected) Fixture.request Fixture.fresh _ _ _ _
              fixture_fresh_upstream_call) as (providerCfg & Hreg & Hurl & _).
  exists providerCfg. split; [exact Hreg|exact Hurl].
Defined.


(** The expired token of the fixture is refreshed, and the store then
    holds the new one. *)
Lemma refreshed_token_persisted_witness :
  let w := Fixture.world
             (Proxy.TokenHttp 200 (Some (Proxy.mkTokenJson "a2" (Some 3600) None None))) in
  Store.getToken (H := vigenere) Fixture.env "oura" "daniel"
    (Proxy.handle (H := vigenere) Fixture.env w Fixture.request Fixture.expired).1.2
  = Ok (Some (StoredToken.mk "oura" "daniel" (js "r1") (Some "a2") (Some 8601) None 1000 5002)).
Proof.
  cbv zeta.
  apply (refreshed_token_persisted (G := vigenere) vigenere_laws Fixture.env
           (Fixture.world
              (Proxy.TokenHttp 200 (Some (Proxy.mkTokenJson "a2" (Some 3600) None None))))
           Fixture.request Fixture.expired Fixture.oura
           (StoredToken.mk "oura" "daniel" (js "r1") (Some "a1") (Some 4900) None 1000 1000)
           "daniel" "a2" 8601 fixture_expired_reachable).
  - by vm_compute.
  - by vm_compute.
  - by vm_compute.
  - by vm_compute.
Defined.

(** ** auth.ts: the two routes *)

Section AuthRoutes.
Context `{G : AesGcm}.

(** X19: the callback changes the connections only when it replies with
    the success page, removes at most the state it was called with, and
    touches nothing when the provider reported an error or the code or the
    state is missing: the state then stays usable. *)
Theorem callback_changes env (w : Auth.World) (req : Auth.CallbackRequest) (d : Store.db) :
  let d' := (Auth.callback env w req d).1 in
  (Store.connections d' = Store.connections d ∨
   ∃ account, (Auth.callback env w req d).2
              = Auth.Replied (Auth.mkReply 200 (Auth.SuccessHtml (Auth.provider req) account))) ∧
  (Store.oauth_states d' = Store.oauth_states d ∨
   ∃ st, Auth.state req = Some st ∧
         Store.oauth_states d' = delete st (Store.oauth_states d)) ∧
  (Auth.truthy (Auth.error req) = true ∨ Auth.truthy (Auth.code req) = false
   ∨ Auth.truthy (Auth.state req) = false →
   d' = d ∧ ∃ message, (Auth.callback env w req d).2
                       = Auth.Replied (Auth.mkReply 400 (Auth.ErrorHtml message))).
Proof.
  cbv zeta. unfold Auth.callback.
  destruct (Auth.truthy (Auth.error req)); [by split_and!; eauto|].
  destruct (Auth.truthy (Auth.code req)); cbn [negb orb]; [|by split_and!; eauto].
  destruct (Auth.truthy (Auth.state req)) eqn:Hstate; cbn [negb]; [|by split_and!; eauto].
  apply auth_truthy_Some in Hstate as (st & Hst & _). rewrite Hst.
  cbn [default from_option]. unfold id.
  split_and!; [| |by intros [|[|]]].
  - unfold Store.consumeOAuthState.
    destruct (Store.oauth_states d !! st) as [row|]; [|by left].
    destruct (negb _); [by left|].
    destruct (Auth.registry w !! Auth.provider req); [|by left].
    destruct (Auth.exchange w) as [tokenData|]; [|by left].
    destruct (Proxy.refresh_token tokenData) as [[|c refreshToken]|]; [by left| |by left].
    destruct (Store.storeToken _ _ _ _ _); [right; by eauto|by left].
  - assert (Hconsumed :
      Store.oauth_states (Store.consumeOAuthState st d).2 = Store.oauth_states d ∨
      Store.oauth_states (Store.consumeOAuthState st d).2 = delete st (Store.oauth_states d)).
    { unfold Store.consumeOAuthState. destruct (Store.oauth_states d !! st); [by right|by left]. }
    destruct (Store.consumeOAuthState st d) as [[[stateProvider account]|] d1];
      cbn [snd] in Hconsumed.
    + assert (Hgoal : Store.oauth_states d1 = Store.oauth_states d ∨
                      ∃ st0, Some st = Some st0 ∧
                             Store.oauth_states d1 = delete st0 (Store.oauth_states d))
        by (destruct Hconsumed; by eauto).
      destruct (negb _); [done|].
      destruct (Auth.registry w !! Auth.provider req); [|done].
      destruct (Auth.exchange w) as [tokenData|]; [|done].
      destruct (Proxy.refresh_token tokenData) as [[|c refreshToken]|]; [done| |done].
      destruct (Store.storeToken _ _ _ _ _) as [d2|] eqn:Hstore; [|done].
      cbn [fst]. unfold Store.storeToken in Hstore.
      destruct (Crypto.encrypt _ _ _); [|done]. cbn [rbind] in Hstore.
      destruct (Store.upsert _ _ _ _ _ _ _ _ _); [|done]. by injection Hstore as <-.
    + destruct Hconsumed; by eauto.
Qed.

Context (laws : AesGcmLaws G).

(** X20: when the callback replies with the success page, the state was
    bound to the provider of the request and to the account the page
    names, it is gone afterwards, and [getToken] returns for that pair the
    access token of the exchange and its refresh token as it survives
    UTF-8, written at the time of the call. *)
Theorem callback_success env (w : Auth.World) (req : Auth.CallbackRequest) (d d' : Store.db)
    (account : string) :
  length (Auth.iv w) = 12%nat →
  Auth.callback env w req d
  = (d', Auth.Replied (Auth.mkReply 200 (Auth.SuccessHtml (Auth.provider req) account))) →
  ∃ st row tokenData refreshToken t,
    Auth.state req = Some st ∧
    Store.oauth_states d !! st = Some row ∧
    StateRow.provider row = Auth.provider req ∧ StateRow.account row = account ∧
    Store.oauth_states d' !! st = None ∧
    Auth.exchange w = Ok tokenData ∧
    Proxy.refresh_token tokenData = Some refreshToken ∧
    Store.getToken env (Auth.provider req) account d' = Ok (Some t) ∧
    StoredToken.accessToken t = Some (Proxy.access_token tokenData) ∧
    StoredToken.refreshToken t = Utf8.decode (Utf8.encode refreshToken) ∧
    StoredToken.updatedAt t = Auth.nowWritten w.
Proof.
  intros Hiv. unfold Auth.callback.
  destruct (Auth.truthy (Auth.error req)); [done|].
  destruct (Auth.truthy (Auth.code req)); cbn [negb orb]; [|done].
  destruct (Auth.truthy (Auth.state req)) eqn:Hstate; cbn [negb]; [|done].
  apply auth_truthy_Some in Hstate as (st & Hst & _). rewrite Hst.
  cbn [default from_option]. unfold id, Store.consumeOAuthState.
  destruct (Store.oauth_states d !! st) as [row|] eqn:Hrow; [|done].
  destruct (String.eqb_spec (StateRow.provider row) (Auth.provider req)) as [Hp|];
    cbn [negb]; [|done].
  destruct (Auth.registry w !! Auth.provider req) as [providerCfg|]; [|done].
  destruct (Auth.exchange w) as [tokenData|]; [|done].
  destruct (Proxy.refresh_token tokenData) as [[|c refreshToken]|] eqn:Hrt; [done| |done].
  destruct (Store.storeToken _ _ _ _ _) as [d2|] eqn:Hstore; [|done].
  intros [= <- <-].
  destruct (storeToken_lookup laws _ _ _ _ _ _ Hiv Hstore) as [Hget Hstates].
  cbn [StoreParams.provider StoreParams.account StoreParams.refreshToken
       StoreParams.accessToken StoreParams.expiresAt StoreParams.scopes] in Hget.
  eexists st, row, tokenData, (c :: refreshToken), _.
  split_and!; [done|done|done|done| |done|done|exact Hget|done|done|done].
  rewrite Hstates. cbn [Store.oauth_states]. apply lookup_delete_eq.
Qed.

(** X21: the state that the start route saves is one the callback for
    the same provider accepts: with a code, an exchange that returns a
    refresh token, and a key of 32 bytes, the callback consumes the state
    and either replies with the success page, and [getToken] then returns
    the exchanged tokens for the provider and the account given at the
    start, "default" when none was given, or fails on the id constraint
    and leaves the connections as they were. *)
Theorem start_then_callback env (sw : AuthStart.World) (sreq : AuthStart.StartRequest)
    (cw : Auth.World) (code : string) (key : list byte) (d : Store.db)
    (providerCfg : ProviderConfig.t) (tokenData : Proxy.TokenJson) (refreshToken : jsstring) :
  AuthStart.registry sw !! AuthStart.provider sreq = Some providerCfg →
  Auth.registry cw = AuthStart.registry sw →
  AuthStart.random sw ≠ [] →
  code ≠ EmptyString →
  Auth.exchange cw = Ok tokenData →
  Proxy.refresh_token tokenData = Some refreshToken → refreshToken ≠ [] →
  length (Auth.iv cw) = 12%nat →
  Crypto.getKey env = Ok key → length key = 32%nat →
  let provider := AuthStart.provider sreq in
  let account := default "default" (AuthStart.account sreq) in
  let state := Buffer.toHex (AuthStart.random sw) in
  let d1 := (AuthStart.start sw sreq d).1 in
  let run := Auth.callback env cw (Auth.mkCallback provider (Some code) (Some state) None) d1 in
  Store.oauth_states run.1 !! state = None ∧
  ((run.2 = Auth.Replied (Auth.mkReply 200 (Auth.SuccessHtml provider account)) ∧
    ∃ t, Store.getToken env provider account run.1 = Ok (Some t) ∧
         StoredToken.accessToken t = Some (Proxy.access_token tokenData) ∧
         StoredToken.refreshToken t = Utf8.decode (Utf8.encode refreshToken)) ∨
   (run.2 = Auth.Threw SqliteConstraint ∧ Store.connections run.1 = Store.connections d)).
Proof.
  intros Hcfg Hreg Hrandom Hcode Hexchange Hrt Hne Hiv Hkey Hlen. cbv zeta.
  assert (Hsaved : (AuthStart.start sw sreq d).1
                   = Store.saveOAuthState (AuthStart.nowWritten sw)
                       (Buffer.toHex (AuthStart.random sw)) (AuthStart.provider sreq)
                       (default "default" (AuthStart.account sreq)) d).
  { unfold AuthStart.start. rewrite Hcfg. by destruct (AuthStart.parsedAuthUrl sw). }
  rewrite Hsaved.
  remember (Auth.callback env cw _ _) as run eqn:Hrun.
  unfold Auth.callback in Hrun.
  cbn [Auth.error Auth.code Auth.state Auth.provider Auth.truthy] in Hrun.
  assert (Hstate : String.eqb (Buffer.toHex (AuthStart.random sw)) EmptyString = false)
    by (by destruct (AuthStart.random sw)).
  apply String.eqb_neq in Hcode. rewrite Hcode, Hstate in Hrun.
  cbn [negb orb default from_option] in Hrun.
  unfold id, Store.consumeOAuthState, Store.saveOAuthState in Hrun.
  cbn [Store.oauth_states Store.connections] in Hrun. rewrite lookup_insert_eq in Hrun.
  cbn [StateRow.provider StateRow.account] in Hrun. rewrite String.eqb_refl in Hrun.
  cbn [negb] in Hrun. rewrite Hreg, Hcfg, Hexchange, Hrt in Hrun.
  destruct refreshToken as [|c refreshToken]; [done|].
  match type of Hrun with
  | context [Store.storeToken ?e ?i ?n ?p ?q] =>
      destruct (Store.storeToken e i n p q) as [d2|e'] eqn:Hstore
  end; subst run; cbn [fst snd].
  - destruct (storeToken_lookup laws _ _ _ _ _ _ Hiv Hstore) as [Hget Hstates].
    cbn [StoreParams.provider StoreParams.account StoreParams.refreshToken
         StoreParams.accessToken StoreParams.expiresAt StoreParams.scopes] in Hget.
    split.
    + rewrite Hstates. cbn [Store.oauth_states]. apply lookup_delete_eq.
    + left. split; [done|]. eexists. split; [exact Hget|done].
  - cbn [Store.oauth_states Store.connections].
    split; [apply lookup_delete_eq|]. right. split; [|done].
    unfold Store.storeToken, Crypto.encrypt in Hstore. rewrite Hkey in Hstore.
    cbn [rbind] in Hstore. unfold Crypto.createCipher in Hstore.
    rewrite decide_True in Hstore by done. cbn [rbind] in Hstore.
    unfold Store.upsert in Hstore.
    destruct (existsb _ _); [done|]. destruct (existsb _ _); [|done].
    by injection Hstore as <-.
Qed.

End AuthRoutes.

Lemma start_then_callback_witness :
  let sw := AuthStart.mkWorld Fixture.registry None None (replicate 24 x00) 100 None in
  let sreq := AuthStart.mkStart "oura" None in
  let cw := Auth.mkWorld Fixture.registry
              (Proxy.TokenHttp 200
                 (Some (Proxy.mkTokenJson "a1" (Some 3600) (Some (js "r1")) None)))
              200 Fixture.iv 201 in
  let state := Buffer.toHex (replicate 24 x00) in
  let run := Auth.callback (H := vigenere) Fixture.env cw
               (Auth.mkCallback "oura" (Some "test-code") (Some state) None)
               (AuthStart.start sw sreq Store.empty).1 in
  run.2 = Auth.Replied (Auth.mkReply 200 (Auth.SuccessHtml "oura" "default")) ∧
  Store.oauth_states run.1 !! state = None.
Proof.
  cbv zeta.
  destruct (start_then_callback (G := vigenere) vigenere_laws Fixture.env
              (AuthStart.mkWorld Fixture.registry None None (replicate 24 x00) 100 None)
              (AuthStart.mkStart "oura" None)
              (Auth.mkWorld Fixture.registry
                 (Proxy.TokenHttp 200
                    (Some (Proxy.mkTokenJson "a1" (Some 3600) (Some (js "r1")) None)))
                 200 Fixture.iv 201)
              "test-code" (replicate 32 x00) Store.empty Fixture.oura
              (Proxy.mkTokenJson "a1" (Some 3600) (Some (js "r1")) None) (js "r1"))
    as [Hgone _]; try reflexivity; try discriminate.
  split; [by vm_compute|exact Hgone].
Defined.

Lemma callback_success_witness :
  let w := Auth.mkWorld Fixture.registry
             (Proxy.TokenHttp 200
                (Some (Proxy.mkTokenJson "a1" (Some 3600) (Some (js "r1")) None)))
             200 Fixture.iv 201 in
  let d := Store.saveOAuthState 100 "test-state" "oura" "daniel" Store.empty in
  let req := Auth.mkCallback "oura" (Some "test-code") (Some "test-state") None in
  ∃ t, Store.getToken (H := vigenere) Fixture.env "oura" "daniel"
         (Auth.callback (H := vigenere) Fixture.env w req d).1 = Ok (Some t) ∧
       StoredToken.accessToken t = Some "a1" ∧
       StoredToken.refreshToken t = js "r1".
Proof.
  cbv zeta.
  destruct (Auth.callback (H := vigenere) Fixture.env
              (Auth.mkWorld Fixture.registry
                 (Proxy.TokenHttp 200
                    (Some (Proxy.mkTokenJson "a1" (Some 3600) (Some (js "r1")) None)))
                 200 Fixture.iv 201)
              (Auth.mkCallback "oura" (Some "test-code") (Some "test-state") None)
              (Store.saveOAuthState 100 "test-state" "oura" "daniel" Store.empty))
    as [d' outcome] eqn:Hrun.
  assert (Houtcome : outcome
                     = Auth.Replied (Auth.mkReply 200 (Auth.SuccessHtml "oura" "daniel")))
    by (apply (f_equal snd) in Hrun; vm_compute in Hrun; by subst outcome).
  subst outcome.
  destruct (λ Hiv, callback_success (G := vigenere) vigenere_laws Fixture.env _ _ _ _ _ Hiv Hrun)
    as (st & row & tokenData & refreshToken & t & _ & _ & _ & _ & _ & Hex & Hrt & Hget & Ha & Hr & _).
  { reflexivity. }
  vm_compute in Hex. injection Hex as <-. injection Hrt as <-.
  exists t. split; [exact Hget|]. split; [exact Ha|exact Hr].
Defined.

(** ** auth.ts: the authorization URL *)

Section AuthUrl.
Import AuthStart.

Lemma list_to_map_drop_key (name value : string) (params : list (string * string)) :
  <[name := value]>
    (list_to_map (List.filter (λ kv, negb (String.eqb kv.1 name)) params) : gmap string string)
  = <[name := value]> (list_to_map params).
Proof.
  induction params as [|[k v] params IH]; [done|]. cbn [List.filter fst list_to_map foldr].
  destruct (String.eqb_spec k name) as [->|Hne]; cbn [negb].
  - by rewrite insert_insert_eq.
  - cbn [list_to_map foldr]. by rewrite insert_insert_ne, IH, (insert_insert_ne _ k name).
Qed.

(** [searchParams.set] on the query is an insertion on what
    [searchParams.get] reads from it. *)
Lemma setParam_map (name value : string) (params : list (string * string)) :
  (list_to_map (setParam name value params) : gmap string string)
  = <[name := value]> (list_to_map params).
Proof.
  induction params as [|[k v] params IH]; [done|]. cbn [setParam].
  destruct (String.eqb_spec k name) as [->|Hne].
  - cbn [list_to_map foldr]. by rewrite list_to_map_drop_key, insert_insert_eq.
  - cbn [list_to_map foldr]. fold (list_to_map (M := gmap string string) (setParam name value params)).
    by rewrite IH, insert_insert_ne.
Qed.

Lemma setParams_map (extra params : list (string * string)) :
  (list_to_map (fold_left (λ acc kv, setParam kv.1 kv.2 acc) extra params) : gmap string string)
  = fold_left (λ m kv, <[kv.1 := kv.2]> m) extra (list_to_map params).
Proof.
  revert params. induction extra as [|[k v] extra IH]; intros params; [done|].
  cbn [fold_left fst snd]. by rewrite IH, setParam_map.
Qed.

(** X22: when the start route replies with a URL, it has saved the
    state, bound to the provider and the account given or "default", before
    anything else, and the URL is the provider's authorization URL whose
    query reads, name by name: what it read before, overridden by
    response_type, client_id, redirect_uri, scope and the saved state, and
    those overridden by the provider's extra parameters in their order. *)
Theorem start_auth_url (w : World) (req : StartRequest) (d d' : Store.db)
    (auth_url redirect_uri : string) (expires_in : Z) :
  start w req d = (d', Started auth_url redirect_uri expires_in) →
  ∃ providerCfg authUrl params,
    registry w !! provider req = Some providerCfg ∧
    parsedAuthUrl w = Some authUrl ∧
    d' = Store.saveOAuthState (nowWritten w) (Buffer.toHex (random w)) (provider req)
           (default "default" (account req)) d ∧
    auth_url = toString (mkUrl (beforeQuery authUrl) params (fragment authUrl)) ∧
    (list_to_map params : gmap string string)
    = fold_left (λ m kv, <[kv.1 := kv.2]> m)
        (default [] (ProviderConfig.extra_params providerCfg))
        (<["state" := Buffer.toHex (random w)]>
           (<["scope" := Text.join " " (ProviderConfig.scopes providerCfg)]>
              (<["redirect_uri" := redirect_uri]>
                 (<["client_id" := ProviderConfig.client_id providerCfg]>
                    (<["response_type" := "code"]>
                       (list_to_map (searchParams authUrl))))))) ∧
    expires_in = 600.
Proof.
  unfold start. destruct (registry w !! provider req) as [providerCfg|]; [|done].
  destruct (parsedAuthUrl w) as [authUrl|]; [|done].
  intros [= <- <- <- <-]. eexists providerCfg, authUrl, _.
  split_and!; [done|done|done|reflexivity| |done].
  by rewrite setParams_map, !setParam_map.
Qed.

End AuthUrl.

Lemma start_auth_url_witness :
  let w := AuthStart.mkWorld Fixture.registry None None (replicate 24 x00) 100
             (Some (AuthStart.mkUrl "https://cloud.ouraring.com/oauth/authorize" []
                      EmptyString)) in
  ∃ d' auth_url,
    AuthStart.start w (AuthStart.mkStart "oura" None) Store.empty
    = (d', AuthStart.Started auth_url "http://localhost:3001/auth/oura/callback" 600) ∧
    Store.oauth_states d' !! Buffer.toHex (replicate 24 x00)
    = Some (StateRow.mk "oura" "default" 100).
Proof.
  cbv zeta.
  destruct (AuthStart.start
              (AuthStart.mkWorld Fixture.registry None None (replicate 24 x00) 100
                 (Some (AuthStart.mkUrl "https://cloud.ouraring.com/oauth/authorize" []
                          EmptyString)))
              (AuthStart.mkStart "oura" None) Store.empty) as [d' outcome] eqn:Hrun.
  assert (Houtcome : ∃ auth_url,
            outcome
            = AuthStart.Started auth_url "http://localhost:3001/auth/oura/callback" 600)
    by (apply (f_equal snd) in Hrun; vm_compute in Hrun; subst outcome; by eexists).
  destruct Houtcome as [auth_url ->].
  destruct (start_auth_url _ _ _ _ _ _ _ Hrun)
    as (providerCfg & authUrl & params & _ & _ & Hsaved & _).
  exists d', auth_url. split; [reflexivity|]. rewrite Hsaved. by vm_compute.
Defined.

(** ** middleware.ts *)

Section MiddlewareFacts.
Import Middleware.
Context `{S : Sha256} (laws : Sha256Laws S).

Lemma substring_all (s : string) : String.substring 0 (String.length s) s = s.
Proof. induction s as [|c s IH]; [done|]. cbn. by rewrite IH. Qed.

Lemma bearer_header (provided : string) :
  String.prefix "Bearer " ("Bearer " +:+ provided) = true ∧
  slice 7 ("Bearer " +:+ provided) = provided.
Proof.
  split; [by destruct provided|].
  unfold slice.
  replace (String.length ("Bearer " +:+ provided) - 7)%nat with (String.length provided)
    by (rewrite !append_cons, append_nil_l; cbn [String.length]; lia).
  change (String.substring 0 (String.length provided) provided = provided).
  apply substring_all.
Qed.

Lemma requireApiKey_cache_configured (key provided : string) :
  String.eqb key EmptyString = false →
  (requireApiKey (Some key) None (Some ("Bearer " +:+ provided))).1 = Some (digest key).
Proof.
  intros Hkey. unfold requireApiKey. destruct (bearer_header provided) as [-> ->].
  unfold keyHash, getApiKeyHash. rewrite Hkey.
  by destruct (timingSafeEqual _ _) as [[|]|].
Qed.

(** X23: on a process that has checked no key yet, a request with
    [Authorization: Bearer p] passes exactly when the digest of p is the
    digest of API_KEY and is answered 401 otherwise; with API_KEY unset or
    empty it is answered 500 and the next request reads API_KEY again. *)
Theorem requireApiKey_decides (apiKey : option string) (provided : string) :
  requireApiKey apiKey None (Some ("Bearer " +:+ provided))
  = match apiKey with
    | Some key =>
        if String.eqb key EmptyString then (None, Some notConfigured)
        else (Some (digest key),
              if decide (digest provided = digest key) then None else Some invalidKey)
    | None => (None, Some notConfigured)
    end.
Proof.
  unfold requireApiKey. destruct (bearer_header provided) as [-> ->].
  unfold keyHash, getApiKeyHash. destruct apiKey as [key|]; [|done].
  destruct (String.eqb key EmptyString); [done|].
  unfold timingSafeEqual. rewrite decide_True by (by rewrite !(digest_length _ laws)).
  case_bool_decide; by case_decide.
Qed.

(** X24: API_KEY is read once: after a request was checked against a
    configured key, every later request is checked against that same key,
    whatever API_KEY has become; a header that does not start with
    "Bearer " is answered 401 without the key being looked at. *)
Theorem api_key_read_once (key provided : string) (apiKey' : option string)
    (header : option string) :
  key ≠ EmptyString →
  let cache := (requireApiKey (Some key) None (Some ("Bearer " +:+ provided))).1 in
  requireApiKey apiKey' cache header = requireApiKey (Some key) cache header ∧
  (∀ apiKey cache',
     (∀ h, header = Some h → String.prefix "Bearer " h = false) →
     requireApiKey apiKey cache' header = (cache', Some headerRequired)).
Proof.
  intros Hkey%String.eqb_neq. cbv zeta. split.
  - rewrite (requireApiKey_cache_configured key provided Hkey).
    unfold requireApiKey, keyHash. destruct header as [h|]; [|done].
    by destruct (String.prefix "Bearer " h).
  - intros apiKey cache' Hno. unfold requireApiKey. destruct header as [h|]; [|done].
    by rewrite (Hno h).
Qed.

End MiddlewareFacts.

Lemma padded_laws : Sha256Laws padded.
Proof.
  split. intros s. unfold digest, padded. rewrite length_take, length_app, length_replicate. lia.
Qed.

Lemma api_key_read_once_witness :
  Middleware.requireApiKey (H := padded) None (Some (digest (Sha256 := padded) "test-api-key"))
    (Some "Bearer test-api-key")
  = (Some (digest (Sha256 := padded) "test-api-key"), None).
Proof.
  destruct (api_key_read_once (S := padded) "test-api-key" "wrong" None
              (Some "Bearer test-api-key")) as [Hcached _]; [discriminate|].
  cbv zeta in Hcached. etransitivity; [exact Hcached|]. by vm_compute.
Defined.

Lemma requireApiKey_decides_witness :
  Middleware.requireApiKey (H := padded) (Some "test-api-key") None (Some "Bearer wrong-key")
  = (Some (digest (Sha256 := padded) "test-api-key"), Some Middleware.invalidKey).
Proof.
  etransitivity;
    [exact (requireApiKey_decides (S := padded) padded_laws (Some "test-api-key") "wrong-key")|].
  by vm_compute.
Defined.

(** ** providers.ts *)

Section ProvidersFacts.
Import Providers.






(** X27: the base URL loses one trailing slash, if it has one, and
    nothing else. *)
Theorem stripTrailingSlash_spec (s : string) :
  stripTrailingSlash (s +:+ "/") = s ∧
  ((∀ t, s ≠ t +:+ "/") → stripTrailingSlash s = s).
Proof.
  split.
  - induction s as [|c s IH]; [done|]. rewrite append_cons. cbn [stripTrailingSlash].
    rewrite IH. by destruct s.
  - induction s as [|c s IH]; [done|]. intros Hno. cbn [stripTrailingSlash].
    destruct s as [|c' s].
    + destruct (Ascii.eqb_spec c "/") as [->|]; [|done]. by destruct (Hno EmptyString).
    + f_equal. apply IH. intros t Ht. apply (Hno (String c t)).
      by rewrite append_cons, <- Ht.
Qed.

End ProvidersFacts.



(** ** refresh.ts: what the loop does to the store *)

Section RefreshRuns.
Import Refresh.
Context `{G : AesGcm}.

Lemma updateAccessToken_keeps now provider account accessToken expiresAt d :
  (λ row, (Row.id row, Row.provider row, Row.account row, Row.refresh_token_encrypted row,
           Row.scopes row, Row.created_at row))
    <$> Store.connections (Store.updateAccessToken now provider account accessToken expiresAt d)
  = (λ row, (Row.id row, Row.provider row, Row.account row, Row.refresh_token_encrypted row,
             Row.scopes row, Row.created_at row)) <$> Store.connections d ∧
  Store.oauth_states (Store.updateAccessToken now provider account accessToken expiresAt d)
  = Store.oauth_states d.
Proof.
  split; [|done]. cbn [Store.updateAccessToken Store.connections].
  rewrite <- list_fmap_compose. apply list_fmap_ext. intros _ row _. cbn.
  by destruct (Store.sameKey provider account row).
Qed.

Lemma step_db env registry s ev :
  db (step env registry s ev) = db s ∨
  ∃ now provider account accessToken expiresAt,
    db (step env registry s ev)
    = Store.updateAccessToken now provider account accessToken expiresAt (db s).
Proof.
  assert (Hcycle : ∀ now, db (runRefreshCycle env registry now s) = db s).
  { intros now. unfold runRefreshCycle.
    destruct (Store.getTokensNeedingRefresh _ _ _ _); [|done].
    by destruct (advance registry _). }
  destruct ev as [now|now|i resp nowRefreshed nowWritten|]; cbn [step].
  - left. destruct (timer s); [done|]. cbn [db]. apply Hcycle.
  - left. destruct (timer s); [apply Hcycle|done].
  - destruct (cycles s !! i) as [c|]; [|by left]. cbn [db].
    destruct (refreshToken resp nowRefreshed) as [[accessToken expiresAt]|]; [|by left].
    right. by eauto 6.
  - by left.
Qed.

(** X28: whatever the events, the refresh loop adds no connection,
    removes none, and changes no id, provider, account, refresh token,
    scopes or creation time; the handshake states are left alone. *)
Theorem run_keeps_connections env registry s evs :
  (λ row, (Row.id row, Row.provider row, Row.account row, Row.refresh_token_encrypted row,
           Row.scopes row, Row.created_at row))
    <$> Store.connections (db (run env registry s evs))
  = (λ row, (Row.id row, Row.provider row, Row.account row, Row.refresh_token_encrypted row,
             Row.scopes row, Row.created_at row)) <$> Store.connections (db s) ∧
  Store.oauth_states (db (run env registry s evs)) = Store.oauth_states (db s).
Proof.
  revert s. induction evs as [|ev evs IH]; intros s; [done|].
  change (run env registry s (ev :: evs)) with (run env registry (step env registry s ev) evs).
  destruct (IH (step env registry s ev)) as [-> ->].
  destruct (step_db env registry s ev)
    as [->|(now & provider & account & accessToken & expiresAt & ->)]; [done|].
  apply updateAccessToken_keeps.
Qed.

Context (laws : AesGcmLaws G).

Lemma getTokensNeedingRefresh_ok env nowSec thresholdSec d :
  Store.reachable env d →
  ∃ tokens, Store.getTokensNeedingRefresh env nowSec thresholdSec d = Ok tokens.
Proof.
  intros Hwf%(reachable_wf laws). unfold Store.getTokensNeedingRefresh.
  destruct (mapM_Forall2 (Store.rowToRecord env)
              (List.filter (Store.needsRefresh (nowSec + thresholdSec)) (Store.connections d)))
    as (records & -> & _); [|by eexists].
  apply Forall_forall. intros row Hin. rewrite filter_bool in Hin.
  apply list_elem_of_filter in Hin as [_ Hin].
  destruct (wf_rowToRecord env d row Hwf Hin) as [record Hrec]. by exists record.
Qed.

(** X29: on a database built through the store's operations under the
    key in use, no cycle of the refresh loop ends in an unhandled
    rejection, whatever the token endpoint answers. *)
Theorem run_no_unhandled env registry s evs :
  Store.reachable env (db s) →
  unhandled (run env registry s evs) = unhandled s.
Proof.
  revert s. induction evs as [|ev evs IH]; intros s Hreach; [done|].
  change (run env registry s (ev :: evs)) with (run env registry (step env registry s ev) evs).
  assert (Hcycle : ∀ now, unhandled (runRefreshCycle env registry now s) = unhandled s).
  { intros now. unfold runRefreshCycle.
    destruct (getTokensNeedingRefresh_ok env now REFRESH_THRESHOLD_SEC (db s) Hreach)
      as [tokens ->].
    by destruct (advance registry tokens). }
  assert (Hstep : unhandled (step env registry s ev) = unhandled s).
  { destruct ev as [now|now|i resp nowRefreshed nowWritten|]; cbn [step].
    - destruct (timer s); [done|]. cbn [unhandled]. apply Hcycle.
    - destruct (timer s); [apply Hcycle|done].
    - by destruct (cycles s !! i).
    - done. }
  rewrite <- Hstep. apply IH.
  destruct (step_db env registry s ev)
    as [->|(now & provider & account & accessToken & expiresAt & ->)]; [done|].
  by constructor.
Qed.

End RefreshRuns.

Lemma run_no_unhandled_witness :
  Refresh.unhandled
    (Refresh.run (H := vigenere) Fixture.env Fixture.registry (Refresh.initial Fixture.expired)
       [Refresh.StartRefreshLoop 5000;
        Refresh.Settled 0 Proxy.TokenFetchRejected 5001 5002;
        Refresh.Tick 5300]) = [].
Proof.
  apply (run_no_unhandled (G := vigenere) vigenere_laws Fixture.env Fixture.registry
           (Refresh.initial Fixture.expired)).
  apply fixture_expired_reachable.
Defined.

(** * Worked examples *)

(** 'é', '你' and the surrogate pair of U+1F512 in UTF-8. *)
Example utf8_encode_sample :
  Utf8.encode [0xE9; 0x4F60; 0xD83D; 0xDD12]
  = Buffer.byteOf <$> [0xC3; 0xA9; 0xE4; 0xBD; 0xA0; 0xF0; 0x9F; 0x94; 0x92].
Proof. reflexivity. Qed.

(** A truncated sequence decodes to one U+FFFD and the text after it. *)
Example utf8_decode_truncated :
  Utf8.decode (Buffer.byteOf <$> [0xE4; 0xBD; 0x41]) = [0xFFFD; 0x41].
Proof. reflexivity. Qed.

Example toHex_sample : Buffer.toHex (Buffer.byteOf <$> [0; 171; 255]) = "00abff".
Proof. reflexivity. Qed.

(** Hex decoding takes either case and stops at the first bad pair. *)
Example fromHex_sample :
  Buffer.fromHex "00ABff" = Buffer.byteOf <$> [0; 171; 255] ∧
  Buffer.fromHex "12zz34" = Buffer.byteOf <$> [18] ∧
  Buffer.fromHex "123" = Buffer.byteOf <$> [18].
Proof. by vm_compute. Qed.

(** A buffer shorter than the tag: the negative start counts from the end. *)
Example subarray_short :
  let data := Buffer.byteOf <$> [1; 2; 3; 4; 5; 6; 7; 8; 9; 10] in
  Buffer.subarray data (10 - 16) 10 = Buffer.byteOf <$> [5; 6; 7; 8; 9; 10] ∧
  Buffer.subarray data 0 (10 - 16) = Buffer.byteOf <$> [1; 2; 3; 4].
Proof. by vm_compute. Qed.

Example split_sample :
  Crypto.split ":" "a:b:c" = ["a"; "b"; "c"] ∧
  Crypto.split ":" "no-colon" = ["no-colon"] ∧
  Crypto.split ":" EmptyString = [EmptyString] ∧
  Crypto.split ":" "a:" = ["a"; EmptyString].
Proof. by vm_compute. Qed.

(** The malformed inputs of the test suite. *)
Example decrypt_malformed :
  Crypto.decrypt (H := vigenere) Fixture.env "invalid" = Err FormatError ∧
  Crypto.decrypt (H := vigenere) Fixture.env "no-colon" = Err FormatError ∧
  Crypto.decrypt (H := vigenere) None "aa:bb" = Err ConfigError.
Proof. by vm_compute. Qed.

Example toLowerCase_sample : Text.toLowerCase "Keep-Alive" = "keep-alive".
Proof. reflexivity. Qed.

Example stripQueryParams_sample :
  Proxy.stripQueryParams
    [("account", Proxy.VString "daniel"); ("start_date", Proxy.VString "2024-01-01");
     ("tag", Proxy.VArray ["a b"; "c"])] ["account"]
  = "?start_date=2024-01-01&tag=a+b&tag=c".
Proof. by vm_compute. Qed.

(** The account resolution cases of the specification. *)
Example getDefaultToken_cases :
  Store.getDefaultToken (H := vigenere) Fixture.env "oura" Store.empty = Ok None ∧
  StoredToken.account <$> default None
    (match Store.getDefaultToken (H := vigenere) Fixture.env "oura" Fixture.onePersonal with
     | Ok o => Some o
     | Err _ => None
     end) = Some "personal" ∧
  Store.getDefaultToken (H := vigenere) Fixture.env "oura"
    (Fixture.store 1001 "oura" "work" (js "refresh-2") None None Fixture.onePersonal)
  = Ok None.
Proof. by vm_compute. Qed.

(** The end-to-end scenario of the specification: the stored access token
    expired 100 seconds ago; the request triggers one refresh, the new
    token and expiry are stored, and the request goes upstream with the new
    token and without the account selector. *)
Example proxy_refresh_scenario :
  let w := Fixture.world (Proxy.TokenHttp 200 (Some (Proxy.mkTokenJson "a2" (Some 7200) None None))) in
  let run := Proxy.handle (H := vigenere) Fixture.env w Fixture.request Fixture.expired in
  run.1.1 =
    [Proxy.TokenFetch "https://api.ouraring.com/oauth/token" "client-id" "client-secret" (js "r1");
     Proxy.UpstreamFetch "https://api.ouraring.com/v2/usercollection/daily_sleep" "GET"
       {[ "accept" := "application/json"; "authorization" := "Bearer a2" ]} None] ∧
  Store.getToken (H := vigenere) Fixture.env "oura" "daniel" run.1.2
  = Ok (Some (StoredToken.mk "oura" "daniel" (js "r1") (Some "a2") (Some 12201) None 1000 5002)) ∧
  run.2 = Proxy.Replied (Proxy.mkReply 200 [("content-type", "application/json")] (Proxy.Text "{}")).
Proof. by vm_compute. Qed.
